(** * Classifier: the classification index of the fragments toolkit

    A shallow embedding of the [Classifier] component (class [Classifier],
    fields [list], methods [onFragmentsDisposed], [remove], [find],
    [byModel], [byPredefinedType], [byEntity], [byIfcRel],
    [bySpatialStructure], [saveItem]) together with the properties its
    specification states about them.

    Conventions of the embedding:
    - a JS object used as a dictionary is a [gmap] with string keys and a
      [Set<number>] is a [gset Z]; the [Map] [group.data], whose order of
      iteration decides where a throw happens, is an association list in
      insertion order; the other [Map]s are [gmap]s;
    - a [Map] is enumerated with [for ... of] over its entries; what
      [for ... in], [Object.keys] and [Object.values] give of a [Map] object
      are its own properties, for a [DataMap] the fields of the class, whose
      names are the parameter [fields];
    - methods that mutate [this.list] take the index and return the new one;
    - a [throw] is the [Thrown] outcome, carrying the message and the index
      as mutated so far. *)

From Stdlib Require Import ZArith Lia.
From stdpp Require Import base option list strings gmap sets pretty.

Local Open Scope Z_scope.
Local Open Scope string_scope.

(** ** JavaScript values *)

Module JS.

(** Truthiness of a string: only the empty string is falsy. *)
Definition truthy (s : string) : bool := negb (String.eqb s "").

(** [!x] for [x : string | undefined]. *)
Definition falsy (x : option string) : bool :=
  match x with
  | None => true
  | Some s => negb (truthy s)
  end.

(** A possibly undefined value used as the key of a string-keyed mapping. *)
Definition propertyKey (x : option string) : string :=
  match x with
  | None => "undefined"
  | Some s => s
  end.

(** [String(x)] for [x : string | undefined]. *)
Definition String_ (x : option string) : string := propertyKey x.

(** [Number.prototype.toString] on an integer. *)
Definition toString (n : Z) : string := pretty n.

Definition upper_ascii (c : Ascii.ascii) : Ascii.ascii :=
  let n := Ascii.nat_of_ascii c in
  if (Nat.leb 97 n && Nat.leb n 122)%bool
  then Ascii.ascii_of_nat (n - 32) else c.

(** [String.prototype.toUpperCase], on the ASCII letters. *)
Fixpoint toUpperCase (s : string) : string :=
  match s with
  | EmptyString => EmptyString
  | String c r => String (upper_ascii c) (toUpperCase r)
  end.

End JS.

(** ** Data model *)

(** An [ExpressID] is a [Z]; a fragment identifier is a [string]. *)
Abbreviation FragmentIdMap := (gmap string (gset Z)).

(** A class of a classification system:
    [{ map: FragmentIdMap; name: string; id: number | null }]. *)
Module Group.

Record t := mk { map : FragmentIdMap; name : string; id : option Z }.

(** The own properties of the record, as [Object.values(group)] lists them:
    the three of the literal [{ map, id, name }], whatever their values
    (a [null] id is a value too). *)
Inductive property : Type :=
  | PMap (m : FragmentIdMap)
  | PId (n : option Z)
  | PName (s : string).

Definition Object_values (g : t) : list property :=
  [PMap (map g); PId (id g); PName (name g)].

(** [delete group.map[fragmentID]]. *)
Definition deleteFragment (fragmentID : string) (g : t) : t :=
  mk (delete fragmentID (map g)) (name g) (id g).

(** [if (!group.map[f]) group.map[f] = new Set(); group.map[f].add(e)]. *)
Definition add (fragmentID : string) (expressID : Z) (g : t) : t :=
  let m := match map g !! fragmentID with
           | None => <[fragmentID := ∅]> (map g)
           | Some _ => map g
           end in
  match m !! fragmentID with
  | None => g
  | Some ids => mk (<[fragmentID := {[expressID]} ∪ ids]> m) (name g) (id g)
  end.

End Group.

(** Modelled from the spec: the [DataMap] container class, which the
    classifier imports from [../../core] and whose declaration is not among
    the sources of the component.  The specification describes [list] as a
    [Map] of [Map]s, systemName to className to group, and the classifier
    reaches its entries with [get], [set] and [delete]; accordingly a
    [DataMap] is a finite mapping with lookup, insertion and deletion.

    The entries of a [Map] are not properties of the object.  What
    [for ... in], [Object.keys] and [Object.values] list of a [DataMap] are
    the own enumerable properties of the object, that is the fields that
    its class declares, and a name that they give is looked up with [get]
    like any other.  The names of these fields, in the order of
    enumeration, are the parameter [fields] of the methods that enumerate
    a [DataMap]; all [DataMap]s are instances of the one class and have
    the same fields. *)
Abbreviation DataMap V := (gmap string V).

(** [list] of the classifier: system name to class name to group. *)
Abbreviation ClassificationSystem := (DataMap Group.t).
Abbreviation ClassificationList := (DataMap (DataMap Group.t)).

(** [Object.keys(o)], also the keys that [for (const key in o)] visits,
    for a plain object [o] used as a dictionary. *)
Definition Object_keys {V} (o : gmap string V) : list string :=
  (map_to_list o).*1.

(** [for (const key in obj) body] and [for (const x of xs) body]: the body
    receives the current state; a [continue] is a body that returns its
    state unchanged. *)
Definition forEach {A S} (xs : list A) (body : A → S → S) (st : S) : S :=
  foldl (λ st x, body x st) st xs.

(** The properties of an entity that the classifier reads: its expressID,
    [PredefinedType?.value] and [Name?.value]. *)
Record Entity := mkEntity {
  expressID : Z;
  PredefinedType : option string;
  Name : option string
}.

(** The loaded model ([FragmentsGroup]), as far as the classifier reads it:
    [data] maps an ExpressID to the pair of its geometry keys and its
    relation record, [keyFragments] maps a geometry key to a fragment. *)
Record FragmentsGroup := mkGroup {
  uuid : string;
  name : string;
  data : list (Z * (list Z * list Z));
  keyFragments : gmap Z string;
  getAllPropertiesIDs : list Z;
  getProperties : Z → option Entity
}.

(** [group.data.get(expressID)]. *)
Fixpoint data_get (d : list (Z * (list Z * list Z))) (expressID : Z)
  : option (list Z * list Z) :=
  match d with
  | [] => None
  | (e, v) :: rest => if Z.eqb e expressID then Some v else data_get rest expressID
  end.

(** ** Index maintenance *)

(** [onFragmentsDisposed]: the body of [for (const groupName of groupNames)].
    The fragments are deleted from the map of the class; the test that
    follows is made on the values of the group record. *)
Definition disposeGroup (fragmentIDs : list string) (groupName : string)
    (system : ClassificationSystem) : ClassificationSystem :=
  match system !! groupName with
  | None => system
  | Some group =>
      let group := forEach fragmentIDs Group.deleteFragment group in
      let system := <[groupName := group]> system in
      if Nat.eqb (length (Group.Object_values group)) 0
      then delete groupName system
      else system
  end.

(** The body of [for (const systemName in this.list)], for a name that
    the enumeration gives.  [Object.keys(system)] and
    [Object.values(system)] are the names and the values of the fields of
    the system, a [DataMap]: when [groupID] is among the names, the entry
    of [groupID] is deleted from the system, and the system from the index
    when there is no field at all; otherwise the fragments are deleted from
    the classes that [get] finds under the names. *)
Definition disposeSystem (fields : list string) (groupID : string)
    (fragmentIDs : list string)
    (systemName : string) (lst : ClassificationList) : ClassificationList :=
  match lst !! systemName with
  | None => lst
  | Some system =>
      let groupNames := fields in
      if bool_decide (groupID ∈ groupNames) then
        let system := delete groupID system in
        let lst := <[systemName := system]> lst in
        if Nat.eqb (length fields) 0
        then delete systemName lst
        else lst
      else
        <[systemName := forEach groupNames (disposeGroup fragmentIDs) system]> lst
  end.

(** [onFragmentsDisposed({ groupID, fragmentIDs })]: the loop
    [for (const systemName in this.list)] visits the fields of
    [this.list]. *)
Definition onFragmentsDisposed (fields : list string) (groupID : string)
    (fragmentIDs : list string)
    (lst : ClassificationList) : ClassificationList :=
  forEach fields (disposeSystem fields groupID fragmentIDs) lst.

(** [remove(guid)]: the body of [for (const groupName in system)]. *)
Definition removeFromGroup (guid : string) (groupName : string)
    (system : ClassificationSystem) : ClassificationSystem :=
  match system !! groupName with
  | None => system
  | Some group => <[groupName := Group.deleteFragment guid group]> system
  end.

(** The outer loop of [remove], over the names that are left to visit; a
    name under which [get] finds no system ends the whole method
    ([if (!system) return]).  The inner loop visits the fields of the
    system. *)
Fixpoint removeLoop (fields : list string) (guid : string)
    (systemNames : list string)
    (lst : ClassificationList) : ClassificationList :=
  match systemNames with
  | [] => lst
  | systemName :: rest =>
      match lst !! systemName with
      | None => lst
      | Some system =>
          removeLoop fields guid rest
            (<[systemName :=
                forEach fields (removeFromGroup guid) system]> lst)
      end
  end.

(** [remove(guid)]: the loop [for (const systemName in this.list)] visits
    the fields of [this.list]. *)
Definition remove (fields : list string) (guid : string)
    (lst : ClassificationList) : ClassificationList :=
  removeLoop fields guid fields lst.

(** [saveItem]: the body of [for (const key of keys[0])].  A key without
    fragment is passed by; the class is created with [parentID] when the
    system does not have it. *)
Definition saveItemKey (group : FragmentsGroup) (systemName className : string)
    (expressID : Z) (parentID : option Z) (key : Z)
    (lst : ClassificationList) : ClassificationList :=
  let fragmentID := keyFragments group !! key in
  if JS.falsy fragmentID then lst else
  match fragmentID with
  | None => lst
  | Some fragmentID =>
      match lst !! systemName with
      | None => lst
      | Some system =>
          let system :=
            match system !! className with
            | None => <[className := Group.mk ∅ className parentID]> system
            | Some _ => system
            end in
          match system !! className with
          | None => <[systemName := system]> lst
          | Some g =>
              <[systemName :=
                  <[className := Group.add fragmentID expressID g]> system]> lst
          end
      end
  end.

(** [saveItem(group, systemName, className, expressID, parentID = null)]:
    the system is created first, then the entity is looked up in
    [group.data]. *)
Definition saveItem (group : FragmentsGroup) (systemName className : string)
    (expressID : Z) (parentID : option Z)
    (lst : ClassificationList) : ClassificationList :=
  let lst := match lst !! systemName with
             | None => <[systemName := ∅]> lst
             | Some _ => lst
             end in
  match data_get (data group) expressID with
  | None => lst
  | Some keys =>
      forEach keys.1
        (saveItemKey group systemName className expressID parentID) lst
  end.

(** ** Outcomes of methods that can throw *)

Inductive Result (S : Type) : Type :=
  | Done (st : S)
  | Thrown (msg : string) (st : S).
Arguments Done {S} st.
Arguments Thrown {S} msg st.

(** A loop whose body can throw: the first [Thrown] ends the loop. *)
Fixpoint forEachT {A S} (xs : list A) (body : A → S → Result S) (st : S)
  : Result S :=
  match xs with
  | [] => Done st
  | x :: rest =>
      match body x st with
      | Done st => forEachT rest body st
      | Thrown msg st => Thrown msg st
      end
  end.

(** ** Query *)

Abbreviation Filter := (gmap string (list string)).

(** [models] of [find]: per fragment, the number of matches of each id. *)
Abbreviation MatchCounts := (gmap string (gmap Z nat)).

(** The body of [for (const id of groupData.map[guid])]: one more match
    for the pair. *)
Definition countId (guid : string) (id : Z) (models : MatchCounts)
  : MatchCounts :=
  match models !! guid with
  | None => models
  | Some model =>
      match model !! id with
      | None => <[guid := <[id := 1%nat]> model]> models
      | Some matchCount => <[guid := <[id := (matchCount + 1)%nat]> model]> models
      end
  end.

(** The body of [for (const guid in groupData.map)]. *)
Definition countGuid (groupData : Group.t) (guid : string)
    (models : MatchCounts) : MatchCounts :=
  let models := match models !! guid with
                | None => <[guid := ∅]> models
                | Some _ => models
                end in
  match Group.map groupData !! guid with
  | None => models
  | Some ids => forEach (elements ids) (countId guid) models
  end.

(** The body of [for (const value of values)]: a class that the system
    does not have contributes nothing. *)
Definition countValue (lst : ClassificationList) (name value : string)
    (models : MatchCounts) : MatchCounts :=
  match lst !! name with
  | None => models
  | Some systemGroups =>
      match systemGroups !! value with
      | None => models
      | Some groupData =>
          forEach (Object_keys (Group.map groupData)) (countGuid groupData) models
      end
  end.

(** The body of [for (const name in filter)]; an unknown system is skipped
    (after the warning). *)
Definition countName (lst : ClassificationList) (filter : Filter)
    (name : string) (models : MatchCounts) : MatchCounts :=
  match filter !! name with
  | None => models
  | Some values =>
      match lst !! name with
      | None => models
      | Some _ => forEach values (countValue lst name) models
      end
  end.

(** The body of [for (const [id, numberOfMatches] of model)].  The counts
    stored in [models] are numbers by construction, so the guard
    [numberOfMatches === undefined] of the source never fires and the
    collecting loops cannot throw. *)
Definition collectId (filterCount : nat) (guid : string) (entry : Z * nat)
    (result : FragmentIdMap) : FragmentIdMap :=
  let '(id, numberOfMatches) := entry in
  if Nat.eqb numberOfMatches filterCount then
    let result := match result !! guid with
                  | None => <[guid := ∅]> result
                  | Some _ => result
                  end in
    match result !! guid with
    | None => result
    | Some ids => <[guid := {[id]} ∪ ids]> result
    end
  else result.

(** The body of [for (const guid in models)]. *)
Definition collectGuid (filterCount : nat) (models : MatchCounts)
    (guid : string) (result : FragmentIdMap) : FragmentIdMap :=
  match models !! guid with
  | None => result
  | Some model => forEach (map_to_list model) (collectId filterCount guid) result
  end.

(** [find(filter)] for a given filter: the counting pass, then the pass
    that keeps the pairs whose count is the number of filter keys. *)
Definition findFiltered (lst : ClassificationList) (filter : Filter)
  : FragmentIdMap :=
  let filterCount := length (Object_keys filter) in
  let models := forEach (Object_keys filter) (countName lst filter) ∅ in
  forEach (Object_keys models) (collectGuid filterCount models) ∅.

(** [find(filter?)]; [fragments] is the list of the fragments manager, each
    fragment with its [ids]. *)
Definition find (fragments : list (string * list Z))
    (lst : ClassificationList) (filter : option Filter) : FragmentIdMap :=
  match filter with
  | None =>
      forEach fragments
        (λ '(id, ids) result, <[id := list_to_set ids]> result) ∅
  | Some filter => findFiltered lst filter
  end.

(** ** Builders *)

(** [byModel]: the body of [for (const key of keys)]. *)
Definition byModelKey (group : FragmentsGroup) (expressID key : Z)
    (currentModel : Group.t) : Group.t :=
  let fragID := keyFragments group !! key in
  if JS.falsy fragID then currentModel else
  match fragID with
  | None => currentModel
  | Some fragID => Group.add fragID expressID currentModel
  end.

(** [byModel(modelID, group)]: the class [currentModel] is fetched once and
    filled by the loops over [group.data]. *)
Definition byModel (modelID : string) (group : FragmentsGroup)
    (lst : ClassificationList) : ClassificationList :=
  let lst := match lst !! "models" with
             | None => <["models" := ∅]> lst
             | Some _ => lst
             end in
  match lst !! "models" with
  | None => lst
  | Some modelsClassification =>
      let modelsClassification :=
        match modelsClassification !! modelID with
        | None => <[modelID := Group.mk ∅ modelID None]> modelsClassification
        | Some _ => modelsClassification
        end in
      match modelsClassification !! modelID with
      | None => <["models" := modelsClassification]> lst
      | Some currentModel =>
          let currentModel :=
            forEach (data group)
              (λ '(expressID, d) currentModel,
                 forEach d.1 (byModelKey group expressID) currentModel)
              currentModel in
          <["models" := <[modelID := currentModel]> modelsClassification]> lst
      end
  end.

(** [byPredefinedType]: the body of the loop over the geometry keys. *)
Definition predefinedKey (group : FragmentsGroup) (entity : Entity) (key : Z)
    (currentType : Group.t) : Result Group.t :=
  let fragmentID := keyFragments group !! key in
  if JS.falsy fragmentID then Thrown "Fragment ID not found!" currentType else
  match fragmentID with
  | None => Thrown "Fragment ID not found!" currentType
  | Some fragmentID => Done (Group.add fragmentID (expressID entity) currentType)
  end.

(** [for (const [_expressID, data] of group.data) for (const key of data[0])]. *)
Definition predefinedData (group : FragmentsGroup) (entity : Entity)
    (currentType : Group.t) : Result Group.t :=
  forEachT (data group)
    (λ '(_, d) currentType, forEachT d.1 (predefinedKey group entity) currentType)
    currentType.

(** [String(entity.PredefinedType?.value).toUpperCase()]. *)
Definition predefinedTypeOf (entity : Entity) : string :=
  JS.toUpperCase (JS.String_ (PredefinedType entity)).

(** The body of [for (const id of ids)], on the system [currentTypes]. *)
Definition predefinedEntity (group : FragmentsGroup) (id : Z)
    (currentTypes : ClassificationSystem) : Result ClassificationSystem :=
  match getProperties group id with
  | None => Done currentTypes
  | Some entity =>
      let predefinedType := predefinedTypeOf entity in
      let currentTypes :=
        match currentTypes !! predefinedType with
        | None =>
            <[predefinedType := Group.mk ∅ predefinedType None]> currentTypes
        | Some _ => currentTypes
        end in
      match currentTypes !! predefinedType with
      | None => Done currentTypes
      | Some currentType =>
          match predefinedData group entity currentType with
          | Done currentType =>
              Done (<[predefinedType := currentType]> currentTypes)
          | Thrown msg currentType =>
              Thrown msg (<[predefinedType := currentType]> currentTypes)
          end
      end
  end.

(** [byPredefinedType]: the system [currentTypes] is fetched once and
    mutated by the loop over the entities that have properties. *)
Definition byPredefinedType (group : FragmentsGroup)
    (lst : ClassificationList) : Result ClassificationList :=
  let lst := match lst !! "predefinedTypes" with
             | None => <["predefinedTypes" := ∅]> lst
             | Some _ => lst
             end in
  match lst !! "predefinedTypes" with
  | None => Done lst
  | Some currentTypes =>
      match forEachT (getAllPropertiesIDs group) (predefinedEntity group)
              currentTypes with
      | Done currentTypes => Done (<["predefinedTypes" := currentTypes]> lst)
      | Thrown msg currentTypes =>
          Thrown msg (<["predefinedTypes" := currentTypes]> lst)
      end
  end.

(** [byEntity]; [IfcCategoryMap] is the static table from category code to
    category name. *)
Definition byEntity (IfcCategoryMap : Z → option string)
    (group : FragmentsGroup) (lst : ClassificationList) : ClassificationList :=
  let lst := match lst !! "entities" with
             | None => <["entities" := ∅]> lst
             | Some _ => lst
             end in
  forEach (data group)
    (λ '(expressID, d) lst,
       let entity := d.2 !! 1%nat ≫= IfcCategoryMap in
       saveItem group "entities" (JS.propertyKey entity) expressID None lst)
    lst.

(** [byIfcRel]; [isRel], the relation map and the entity names come from
    the IFC properties utilities. *)
Definition byIfcRel (isRel : Z → bool)
    (getRelationMap : Z → list (Z * list Z))
    (getEntityName : Z → option string)
    (group : FragmentsGroup) (ifcRel : Z) (systemName : string)
    (lst : ClassificationList) : ClassificationList :=
  if negb (isRel ifcRel) then lst else
  forEach (getRelationMap ifcRel)
    (λ '(relatingID, relatedIDs) lst,
       let relatingName := getEntityName relatingID in
       forEach relatedIDs
         (λ expressID lst,
            saveItem group systemName (default "NO REL NAME" relatingName)
              expressID None lst)
         lst)
    lst.

(** The relations indexer for one model: [relationMaps] is the sequence of
    entities of [indexer.relationMaps[model.uuid]], if the model was
    indexed. *)
Record RelationsIndexer := mkIndexer {
  relationMaps : option (list Z);
  getEntityRelations : Z → string → option (list Z)
}.

Record SpatialConfig := mkConfig {
  useProperties : option bool;
  isolate : option (gset Z)
}.

(** [systemName] of [bySpatialStructure]. *)
Definition spatialSystem : string := "spatialStructures".

(** The body of [for (const id of spatialRels)]. *)
Definition spatialParent (model : FragmentsGroup) (useProps : bool)
    (expressID id : Z) (lst : ClassificationList) : ClassificationList :=
  if useProps then
    match getProperties model id with
    | None => lst
    | Some spatialRelAttrs =>
        saveItem model spatialSystem (JS.propertyKey (Name spatialRelAttrs))
          expressID (Some id) lst
    end
  else saveItem model spatialSystem (JS.toString id) expressID (Some id) lst.

(** The body of [for (const id of rels)], with the nested pass. *)
Definition spatialChild (indexer : RelationsIndexer) (model : FragmentsGroup)
    (relName : string) (expressID id : Z)
    (lst : ClassificationList) : ClassificationList :=
  let lst := saveItem model spatialSystem relName id (Some expressID) lst in
  match getEntityRelations indexer id "IsDecomposedBy" with
  | None => lst
  | Some decompositionRelations =>
      forEach decompositionRelations
        (λ decomposedID lst,
           saveItem model spatialSystem relName decomposedID (Some expressID) lst)
        lst
  end.

(** The [isolate] test: [true] when the entity is skipped. *)
Definition isolated (model : FragmentsGroup) (config : SpatialConfig)
    (expressID : Z) : bool :=
  match isolate config with
  | None => false
  | Some categories =>
      match data_get (data model) expressID with
      | None => true
      | Some d =>
          match d.2 !! 1%nat with
          | None => true
          | Some category => negb (bool_decide (category ∈ categories))
          end
      end
  end.

(** The class name of a container: its [Name] property, or its identifier
    when properties are not used; [None] when the lookup fails. *)
Definition containerName (model : FragmentsGroup) (useProps : bool)
    (expressID : Z) : option string :=
  if useProps then
    JS.propertyKey ∘ Name <$> getProperties model expressID
  else Some (JS.toString expressID).

(** The body of [for (const [expressID] of modelRelations)]. *)
Definition spatialEntity (indexer : RelationsIndexer) (model : FragmentsGroup)
    (config : SpatialConfig) (expressID : Z)
    (lst : ClassificationList) : ClassificationList :=
  let useProps := default true (useProperties config) in
  if isolated model config expressID then lst else
  let lst :=
    match getEntityRelations indexer expressID "Decomposes" with
    | None => lst
    | Some spatialRels =>
        forEach spatialRels (spatialParent model useProps expressID) lst
    end in
  match getEntityRelations indexer expressID "ContainsElements" with
  | None => lst
  | Some rels =>
      match containerName model useProps expressID with
      | None => lst
      | Some relName =>
          forEach rels (spatialChild indexer model relName expressID) lst
      end
  end.

(** [bySpatialStructure(model, config)]; it throws when the relations of
    the model were not indexed. *)
Definition bySpatialStructure (indexer : RelationsIndexer)
    (model : FragmentsGroup) (config : SpatialConfig)
    (lst : ClassificationList) : Result ClassificationList :=
  match relationMaps indexer with
  | None =>
      Thrown
        ("Classifier: model relations of "
           +:+ (if JS.truthy (name model) then name model else uuid model)
           +:+ " have to exists to group by spatial structure.")
        lst
  | Some modelRelations =>
      Done (forEach modelRelations (spatialEntity indexer model config) lst)
  end.

(** ** Derived descriptions used in the statements *)

(** What the disposal handler makes of a system that it reaches: with
    [groupID] among the fields, the system without its entry of [groupID];
    otherwise the system with the fragments deleted from the classes that
    are named like a field. *)
Definition disposedSystem (fields : list string) (groupID : string)
    (fragmentIDs : list string)
    (system : ClassificationSystem) : ClassificationSystem :=
  if decide (groupID ∈ fields) then delete groupID system
  else map_imap
         (λ c g, Some (if decide (c ∈ fields)
                       then forEach fragmentIDs Group.deleteFragment g
                       else g))
         system.

(** The systems that [remove] reaches: the names at the head of the
    enumeration under which the index has a system, up to the first name
    under which it has none. *)
Fixpoint reached (names : list string) (lst : ClassificationList)
  : list string :=
  match names with
  | [] => []
  | n :: rest =>
      match lst !! n with
      | None => []
      | Some _ => n :: reached rest lst
      end
  end.

(** No system of the index is named like a field of a [DataMap]. *)
Definition noFieldNamed (fields : list string) (lst : ClassificationList)
  : Prop :=
  ∀ f, f ∈ fields → lst !! f = None.

(** The pair (fragment [guid], entity [id]) is recorded in a fragment map. *)
Definition inMap (m : FragmentIdMap) (guid : string) (id : Z) : Prop :=
  ∃ ids, m !! guid = Some ids ∧ id ∈ ids.

(** The pair belongs to class [className] of system [systemName]. *)
Definition inClass (lst : ClassificationList) (systemName className : string)
    (guid : string) (id : Z) : Prop :=
  ∃ system g, lst !! systemName = Some system ∧ system !! className = Some g
              ∧ inMap (Group.map g) guid id.

(** No system without classes and no class without fragment entries. *)
Definition pruned (lst : ClassificationList) : Prop :=
  ∀ s system, lst !! s = Some system →
    system ≠ ∅ ∧ ∀ c g, system !! c = Some g → Group.map g ≠ ∅.

(** Every system and every class of [lst] is still present in [lst']. *)
Definition keeps (lst lst' : ClassificationList) : Prop :=
  ∀ s system, lst !! s = Some system →
    ∃ system', lst' !! s = Some system' ∧ dom system ⊆ dom system'.

(** [lst'] has every system, class, fragment entry and id of [lst]. *)
Definition extends (lst lst' : ClassificationList) : Prop :=
  ∀ s system, lst !! s = Some system →
    ∃ system', lst' !! s = Some system' ∧
      ∀ c g, system !! c = Some g →
        ∃ g', system' !! c = Some g' ∧
          ∀ f ids, Group.map g !! f = Some ids →
            ∃ ids', Group.map g' !! f = Some ids' ∧ ids ⊆ ids'.

(** The index left by a method, whether it returned or threw. *)
Definition indexOf (r : Result ClassificationList) : ClassificationList :=
  match r with
  | Done lst => lst
  | Thrown _ lst => lst
  end.

(** The operations of the classifier that change the index. *)
Inductive Operation : Type :=
  | OpSaveItem (group : FragmentsGroup) (systemName className : string)
      (expressID : Z) (parentID : option Z)
  | OpRemove (guid : string)
  | OpFragmentsDisposed (groupID : string) (fragmentIDs : list string)
  | OpByModel (modelID : string) (group : FragmentsGroup)
  | OpByPredefinedType (group : FragmentsGroup)
  | OpByEntity (IfcCategoryMap : Z → option string) (group : FragmentsGroup)
  | OpByIfcRel (isRel : Z → bool) (getRelationMap : Z → list (Z * list Z))
      (getEntityName : Z → option string) (group : FragmentsGroup)
      (ifcRel : Z) (systemName : string)
  | OpBySpatialStructure (indexer : RelationsIndexer) (model : FragmentsGroup)
      (config : SpatialConfig).

Definition perform (fields : list string) (op : Operation)
    (lst : ClassificationList) : ClassificationList :=
  match op with
  | OpSaveItem group systemName className expressID parentID =>
      saveItem group systemName className expressID parentID lst
  | OpRemove guid => remove fields guid lst
  | OpFragmentsDisposed groupID fragmentIDs =>
      onFragmentsDisposed fields groupID fragmentIDs lst
  | OpByModel modelID group => byModel modelID group lst
  | OpByPredefinedType group => indexOf (byPredefinedType group lst)
  | OpByEntity table group => byEntity table group lst
  | OpByIfcRel isRel relMap names group ifcRel systemName =>
      byIfcRel isRel relMap names group ifcRel systemName lst
  | OpBySpatialStructure indexer model config =>
      indexOf (bySpatialStructure indexer model config lst)
  end.

(** ** Sample inputs *)

(** One wall, entity 7, drawn by fragment [frag-1]. *)
Definition wallIndex : ClassificationList :=
  {[ "entities" := {[ "IFCWALL" := Group.mk {[ "frag-1" := {[ 7 ]} ]} "IFCWALL" None ]} ]}.

(** Fields of a [DataMap] that declares four events and a guard. *)
Definition eventFields : list string :=
  ["onItemSet"; "onItemUpdated"; "onItemDeleted"; "onCleared"; "guard"].

(** A model without entities. *)
Definition noData : FragmentsGroup :=
  mkGroup "uuid-0" "empty" [] ∅ [] (λ _, None).

(** A model with the single entity 7, whose geometry key 70 is drawn by
    fragment [frag-1]. *)
Definition oneWall : FragmentsGroup :=
  mkGroup "uuid-1" "wall" [(7, ([70], [0; 10]))] {[ 70 := "frag-1" ]} [7]
    (λ id, if Z.eqb id 7 then Some (mkEntity 7 (Some "standard") (Some "W1"))
           else None).

(** [g'] has every fragment entry and id of [g]. *)
Definition grows (g g' : Group.t) : Prop :=
  ∀ f ids, Group.map g !! f = Some ids →
    ∃ ids', Group.map g' !! f = Some ids' ∧ ids ⊆ ids'.

(** ** The counting of [find], as numbers *)

Definition inMapb (m : FragmentIdMap) (guid : string) (id : Z) : bool :=
  match m !! guid with
  | Some ids => bool_decide (id ∈ ids)
  | None => false
  end.

Definition inClassb (lst : ClassificationList) (systemName className : string)
    (guid : string) (id : Z) : bool :=
  match lst !! systemName with
  | Some system =>
      match system !! className with
      | Some g => inMapb (Group.map g) guid id
      | None => false
      end
  | None => false
  end.

(** The number stored in [models] for a pair, 0 when there is none. *)
Definition matchCount (models : MatchCounts) (guid : string) (id : Z) : nat :=
  default 0%nat (models !! guid ≫= λ model, model !! id).

(** How often the class names listed for one filter key, counted with
    their repetitions, name a class that contains the pair. *)
Definition keyHits (lst : ClassificationList) (name : string)
    (values : list string) (guid : string) (id : Z) : nat :=
  length (filter (λ value, inClassb lst name value guid id = true) values).

Definition totalHits (lst : ClassificationList) (entries : list (string * list string))
    (guid : string) (id : Z) : nat :=
  sum_list ((λ '(name, values), keyHits lst name values guid id) <$> entries).

(** Every stored count is at least 1. *)
Definition positive (models : MatchCounts) : Prop :=
  ∀ g model i c, models !! g = Some model → model !! i = Some c → (1 ≤ c)%nat.

(** AND across the filter keys, OR within the classes listed for a key. *)
Definition matchesFilter (lst : ClassificationList) (filter : Filter)
    (guid : string) (id : Z) : Prop :=
  ∀ name values, filter !! name = Some values →
    ∃ value, value ∈ values ∧ inClass lst name value guid id.

(** No key of the filter matches the pair more than once: among the class
    names listed for the key, repetitions included, at most one names a
    class that contains the pair. *)
Definition singleMatch (lst : ClassificationList) (filter : Filter)
    (guid : string) (id : Z) : Prop :=
  ∀ name values, filter !! name = Some values →
    (keyHits lst name values guid id ≤ 1)%nat.

Definition noEmptySet (m : FragmentIdMap) : Prop :=
  ∀ g ids, m !! g = Some ids → ids ≠ ∅.

(** Entity 7 (fragment [frag-1]) is on two floors and is no wall; entity 8
    is a wall on the first floor. *)
Definition twoFloors : ClassificationList :=
  {[ "floors" :=
       {[ "F1" := Group.mk {[ "frag-1" := {[ 7; 8 ]} ]} "F1" None;
          "F2" := Group.mk {[ "frag-1" := {[ 7 ]} ]} "F2" None ]};
     "entities" :=
       {[ "IFCWALL" := Group.mk {[ "frag-1" := {[ 8 ]} ]} "IFCWALL" None ]} ]}.

(** A geometry key that resolves to no fragment identifier: the test
    [!fragmentID] of the source succeeds. *)
Definition unresolved (group : FragmentsGroup) (key : Z) : Prop :=
  keyFragments group !! key = None ∨ keyFragments group !! key = Some "".

(** The model without the geometry key [key]. *)
Definition dropKey (key : Z) (group : FragmentsGroup) : FragmentsGroup :=
  mkGroup (uuid group) (name group)
    ((λ '(e, (keys, rels)), (e, (filter (λ k, k ≠ key) keys, rels)))
       <$> data group)
    (keyFragments group) (getAllPropertiesIDs group) (getProperties group).

(** Every class of [system] is in [system'], with all its pairs. *)
Definition systemGrows (system system' : ClassificationSystem) : Prop :=
  ∀ c g, system !! c = Some g → ∃ g', system' !! c = Some g' ∧ grows g g'.

(** The pairs of a model: an entity of [group.data] with a fragment that one
    of its geometry keys resolves to.  As in the source, a key resolves when
    [keyFragments] has a non-empty identifier for it. *)
Definition modelPair (group : FragmentsGroup) (guid : string) (id : Z) : Prop :=
  ∃ keys rels key, (id, (keys, rels)) ∈ data group ∧ key ∈ keys
                   ∧ keyFragments group !! key = Some guid ∧ guid ≠ "".

(** A model whose first entity has a geometry key without fragment: entity
    1 has properties, key 10 resolves to nothing, key 20 to [frag-2]. *)
Definition halfResolved : FragmentsGroup :=
  mkGroup "uuid-2" "half" [(1, ([10], [0; 10])); (2, ([20], [0; 10]))]
    {[ 20 := "frag-2" ]} [1]
    (λ id, if Z.eqb id 1 then Some (mkEntity 1 (Some "beam") (Some "B1"))
           else None).

(** A model whose only entity has a geometry key without fragment, and
    in which no entity has properties. *)
Definition noProperties : FragmentsGroup :=
  mkGroup "uuid-4" "bare" [(1, ([10], [0; 10]))] ∅ [] (λ _, None).

(** A storey (entity 100, named Level 3) that contains the curtain wall
    200, decomposed into the parts 300 and 301; only 200 and 301 have
    geometry. *)
Definition tower : FragmentsGroup :=
  mkGroup "uuid-3" "tower"
    [(200, ([20], [0; 1])); (301, ([31], [0; 2]))]
    {[ 20 := "frag-cw"; 31 := "frag-panel" ]} [100]
    (λ id, if Z.eqb id 100 then Some (mkEntity 100 None (Some "Level 3"))
           else None).

Definition towerRelations : RelationsIndexer :=
  mkIndexer (Some [100; 200])
    (λ id rel,
       if (Z.eqb id 100 && String.eqb rel "ContainsElements")%bool
       then Some [200]
       else if (Z.eqb id 200 && String.eqb rel "IsDecomposedBy")%bool
       then Some [300; 301]
       else None).

Definition towerClassified : ClassificationList :=
  {[ "spatialStructures" :=
       {[ "Level 3" :=
            Group.mk {[ "frag-cw" := {[ 200 ]}; "frag-panel" := {[ 301 ]} ]}
              "Level 3" (Some 100) ]} ]}.

(** ** Further descriptions used in the statements *)

(** The class [className] of the system [systemName], if the index has it. *)
Definition classOf (lst : ClassificationList) (systemName className : string)
  : option Group.t :=
  lst !! systemName ≫= λ system, system !! className.

(** A geometry key of the entity resolves to the fragment [f]. *)
Definition entityFragment (group : FragmentsGroup) (expressID : Z)
    (f : string) : Prop :=
  ∃ keys rels key, data_get (data group) expressID = Some (keys, rels)
                   ∧ key ∈ keys
                   ∧ keyFragments group !! key = Some f ∧ f ≠ "".

(** What one geometry key of [saveItem] makes of the class it fills: a key
    without fragment leaves it as it is, another one adds the pair, to the
    new class when there was none. *)
Definition saveKeyInClass (group : FragmentsGroup) (className : string)
    (expressID : Z) (parentID : option Z) (key : Z)
    (class : option Group.t) : option Group.t :=
  match keyFragments group !! key with
  | Some f =>
      if JS.truthy f
      then Some (Group.add f expressID
                   (default (Group.mk ∅ className parentID) class))
      else class
  | None => class
  end.

(** The state left by a loop or a method, whether it returned or threw. *)
Definition stateOf {S} (r : Result S) : S :=
  match r with
  | Done st => st
  | Thrown _ st => st
  end.

(** Every class is filed under its own name. *)
Definition wellNamed (lst : ClassificationList) : Prop :=
  ∀ s c g, classOf lst s c = Some g → Group.name g = c.

(** The loops of [byModel] over [group.data] and the geometry keys, on the
    class of the model. *)
Definition fillModel (group : FragmentsGroup) (currentModel : Group.t)
  : Group.t :=
  forEach (data group)
    (λ '(expressID, d) currentModel,
       forEach d.1 (byModelKey group expressID) currentModel)
    currentModel.

(** [F] adds to an index exactly the pairs [P]: a pair is in a class after
    [F] when it was there before or is one of [P]. *)
Definition adds (F : ClassificationList → ClassificationList)
    (P : string → string → string → Z → Prop) : Prop :=
  ∀ lst s c f i, inClass (F lst) s c f i ↔ inClass lst s c f i ∨ P s c f i.

(** The class name that [byEntity] files an entity under: the name of the
    category code of its relation record, in the table of the categories. *)
Definition entityClass (IfcCategoryMap : Z → option string)
    (d : list Z * list Z) : string :=
  JS.propertyKey (d.2 !! 1%nat ≫= IfcCategoryMap).

(** The pairs that [bySpatialStructure] records for one entity of the
    relations of the model: the entity itself under the name of each
    spatial element that it decomposes, and, under its own name, the
    elements that it contains and their parts. *)
Definition spatialPair (indexer : RelationsIndexer) (model : FragmentsGroup)
    (config : SpatialConfig) (expressID : Z)
    (c : string) (f : string) (i : Z) : Prop :=
  isolated model config expressID = false
  ∧ ((∃ spatialRels id,
        getEntityRelations indexer expressID "Decomposes" = Some spatialRels
        ∧ id ∈ spatialRels
        ∧ containerName model (default true (useProperties config)) id = Some c
        ∧ i = expressID ∧ entityFragment model expressID f)
     ∨ (∃ rels id,
          getEntityRelations indexer expressID "ContainsElements" = Some rels
          ∧ containerName model (default true (useProperties config)) expressID
            = Some c
          ∧ id ∈ rels
          ∧ (i = id
             ∨ ∃ parts, getEntityRelations indexer id "IsDecomposedBy" = Some parts
                        ∧ i ∈ parts)
          ∧ entityFragment model i f)).

(** The pairs that [byPredefinedType] records: an entity that has
    properties, under the class of its predefined type, with a fragment
    that a geometry key of any entity of [group.data] resolves to. *)
Definition predefinedPair (group : FragmentsGroup)
    (c : string) (f : string) (i : Z) : Prop :=
  ∃ id entity,
    id ∈ getAllPropertiesIDs group ∧ getProperties group id = Some entity
    ∧ c = predefinedTypeOf entity ∧ i = expressID entity
    ∧ ∃ e keys rels key, (e, (keys, rels)) ∈ data group ∧ key ∈ keys
                         ∧ keyFragments group !! key = Some f ∧ f ≠ "".

(** The system that a builder writes to; [remove] and the disposal handler
    go through all of them. *)
Definition systemOf (op : Operation) : option string :=
  match op with
  | OpSaveItem _ systemName _ _ _ => Some systemName
  | OpRemove _ => None
  | OpFragmentsDisposed _ _ => None
  | OpByModel _ _ => Some "models"
  | OpByPredefinedType _ => Some "predefinedTypes"
  | OpByEntity _ _ => Some "entities"
  | OpByIfcRel _ _ _ _ _ systemName => Some systemName
  | OpBySpatialStructure _ _ _ => Some "spatialStructures"
  end.

(** Every class of the system is filed under its own name. *)
Definition systemNamed (system : ClassificationSystem) : Prop :=
  ∀ c g, system !! c = Some g → Group.name g = c.

(** ** The configurator

    [Configurator.overwrite(config?)] of [configurator.ts].  [this] is the
    dictionary of the properties that the [in] operator sees on the
    configurator, [config] the dictionary of the given settings, or [None]
    when the argument is left out; values are of any type [V].
    [isConfigurable] is the answer of [this._component.isConfigurable()],
    which is asked after the loop and only when a property was set.  The
    result is the configurator after the call and whether [onSetup] was
    triggered. *)

(** The body of [for (const key in config)], on the pair of [this] and
    [wasConfigured]. *)
Definition overwriteKey {V} (config : gmap string V) (key : string)
    (st : gmap string V * bool) : gmap string V * bool :=
  match st.1 !! key with
  | None => st
  | Some _ =>
      match config !! key with
      | None => st
      | Some v => (<[key := v]> st.1, true)
      end
  end.

Definition overwrite {V} (isConfigurable : bool)
    (config : option (gmap string V)) (this : gmap string V)
  : gmap string V * bool :=
  let st :=
    match config with
    | None => (this, false)
    | Some config =>
        forEach (Object_keys config) (overwriteKey config) (this, false)
    end in
  (st.1, st.2 && isConfigurable).

(** ** JavaScript values: truthiness *)

Lemma truthy_spec s : JS.truthy s = true ↔ s ≠ "".
Proof.
  unfold JS.truthy. rewrite negb_true_iff.
  destruct (String.eqb_spec s ""); split; congruence.
Qed.

Lemma falsy_spec x : JS.falsy x = false ↔ ∃ s, x = Some s ∧ s ≠ "".
Proof.
  destruct x as [s|]; simpl.
  - rewrite negb_false_iff, truthy_spec. split.
    + intros H. by exists s.
    + by intros (s' & [= ->] & H).
  - split; [done | by intros (s & ? & _)].
Qed.

(** ** The methods on the sample inputs *)

Example saveItem_oneWall :
  saveItem oneWall "entities" "IFCWALL" 7 None ∅ = wallIndex.
Proof. vm_compute. reflexivity. Qed.

Example byModel_oneWall :
  byModel "model-1" oneWall ∅
  = {[ "models" :=
         {[ "model-1" := Group.mk {[ "frag-1" := {[ 7 ]} ]} "model-1" None ]} ]}.
Proof. vm_compute. reflexivity. Qed.

Example find_oneWall :
  find [] (byModel "model-1" oneWall ∅) (Some {[ "models" := ["model-1"] ]})
  = {[ "frag-1" := {[ 7 ]} ]}.
Proof. vm_compute. reflexivity. Qed.

Example find_without_filter :
  find [("frag-1", [7; 8; 7])] wallIndex None = {[ "frag-1" := {[ 7; 8 ]} ]}.
Proof. vm_compute. reflexivity. Qed.

Example onFragmentsDisposed_whole_class :
  onFragmentsDisposed eventFields "IFCWALL" ["frag-1"] wallIndex = wallIndex.
Proof. vm_compute. reflexivity. Qed.

Example remove_oneWall :
  remove eventFields "frag-1" wallIndex = wallIndex.
Proof. vm_compute. reflexivity. Qed.

Example byEntity_oneWall :
  byEntity (λ code, if Z.eqb code 10 then Some "IFCWALL" else None) oneWall ∅
  = wallIndex.
Proof. vm_compute. reflexivity. Qed.

Example predefinedTypeOf_absent :
  predefinedTypeOf (mkEntity 1 None None) = "UNDEFINED".
Proof. reflexivity. Qed.

Example bySpatialStructure_not_indexed :
  bySpatialStructure (mkIndexer None (λ _ _, None)) tower (mkConfig None None) ∅
  = Thrown
      "Classifier: model relations of tower have to exists to group by spatial structure."
      ∅.
Proof. vm_compute. reflexivity. Qed.

(** ** Loops over the keys of a mapping *)

Lemma forEach_nil {A S} (body : A → S → S) st : forEach [] body st = st.
Proof. reflexivity. Qed.

Lemma forEach_cons {A S} x (xs : list A) (body : A → S → S) st :
  forEach (x :: xs) body st = forEach xs body (body x st).
Proof. reflexivity. Qed.

Lemma forEach_app {A S} (xs ys : list A) (body : A → S → S) st :
  forEach (xs ++ ys) body st = forEach ys body (forEach xs body st).
Proof. unfold forEach. apply foldl_app. Qed.

Lemma NoDup_Object_keys {V} (o : gmap string V) : NoDup (Object_keys o).
Proof. apply NoDup_fst_map_to_list. Qed.

Lemma elem_of_Object_keys {V} (o : gmap string V) k :
  k ∈ Object_keys o ↔ is_Some (o !! k).
Proof.
  unfold Object_keys. rewrite list_elem_of_fmap. split.
  - intros ([k' v] & -> & H%elem_of_map_to_list). by exists v.
  - intros [v H]. exists (k, v). split; [done|]. by apply elem_of_map_to_list.
Qed.

Lemma length_Object_keys {V} (o : gmap string V) :
  length (Object_keys o) = size o.
Proof. unfold Object_keys. by rewrite length_fmap, length_map_to_list. Qed.

(** ** Deleting fragments from a class *)

Lemma deleteFragments_name fragmentIDs g :
  Group.name (forEach fragmentIDs Group.deleteFragment g) = Group.name g
  ∧ Group.id (forEach fragmentIDs Group.deleteFragment g) = Group.id g.
Proof.
  revert g. induction fragmentIDs as [|f fs IH]; intros g; [done|].
  rewrite forEach_cons. destruct (IH (Group.deleteFragment f g)) as [-> ->].
  done.
Qed.

Lemma deleteFragments_map fragmentIDs g f :
  Group.map (forEach fragmentIDs Group.deleteFragment g) !! f
  = if decide (f ∈ fragmentIDs) then None else Group.map g !! f.
Proof.
  revert g. induction fragmentIDs as [|f0 fs IH]; intros g.
  - by rewrite decide_False by apply not_elem_of_nil.
  - rewrite forEach_cons, IH. simpl.
    destruct (decide (f ∈ fs)) as [Hin|Hin].
    + by rewrite decide_True by (by apply list_elem_of_further).
    + destruct (decide (f = f0)) as [->|Hne].
      * rewrite lookup_delete_eq.
        by rewrite decide_True by apply list_elem_of_here.
      * rewrite lookup_delete_ne by done.
        rewrite decide_False; [done|]. by intros [?|?]%elem_of_cons.
Qed.

Lemma deleteFragment_commute a b g :
  Group.deleteFragment a (Group.deleteFragment b g)
  = Group.deleteFragment b (Group.deleteFragment a g).
Proof. unfold Group.deleteFragment. simpl. by rewrite delete_delete. Qed.

Lemma deleteFragment_idemp a g :
  Group.deleteFragment a (Group.deleteFragment a g) = Group.deleteFragment a g.
Proof. unfold Group.deleteFragment. simpl. by rewrite delete_delete_eq. Qed.

Lemma deleteFragments_idemp fragmentIDs g :
  forEach fragmentIDs Group.deleteFragment
    (forEach fragmentIDs Group.deleteFragment g)
  = forEach fragmentIDs Group.deleteFragment g.
Proof.
  destruct (deleteFragments_name fragmentIDs
              (forEach fragmentIDs Group.deleteFragment g)) as [Hn Hi].
  destruct (forEach fragmentIDs Group.deleteFragment
              (forEach fragmentIDs Group.deleteFragment g)) as [m2 n2 i2] eqn:H2.
  destruct (forEach fragmentIDs Group.deleteFragment g) as [m1 n1 i1] eqn:H1.
  simpl in *. subst. f_equal. apply map_eq. intros f.
  change m2 with (Group.map (Group.mk m2 n1 i1)). rewrite <-H2.
  rewrite deleteFragments_map. simpl. case_decide as Hin; [|done].
  change m1 with (Group.map (Group.mk m1 n1 i1)). rewrite <-H1.
  by rewrite deleteFragments_map, decide_True.
Qed.

(** A loop whose body replaces the entry that [get] finds under the name
    it is given by its image under [h], and passes by a name without
    entry: the entries under the names visited are replaced once, also
    under a name that comes twice, and the others are left. *)
Lemma forEach_visits {V} (h : V → V)
    (body : string → gmap string V → gmap string V) (names : list string) :
  (∀ k m, body k m = match m !! k with
                     | None => m
                     | Some v => <[k := h v]> m
                     end) →
  (∀ v, h (h v) = h v) →
  ∀ m k, forEach names body m !! k
         = (λ v, if decide (k ∈ names) then h v else v) <$> m !! k.
Proof.
  intros Hbody Hh. induction names as [|n ns IH]; intros m k.
  - rewrite forEach_nil. by destruct (m !! k).
  - rewrite forEach_cons, IH, Hbody.
    destruct (decide (k = n)) as [->|Hne].
    + destruct (m !! n) as [v|] eqn:Hn.
      * rewrite lookup_insert_eq. simpl.
        rewrite (decide_True (P := n ∈ n :: ns)) by apply list_elem_of_here.
        case_decide; by rewrite ?Hh.
      * by rewrite Hn.
    + assert (m !! k = match m !! n with
                       | None => m
                       | Some v => <[n := h v]> m
                       end !! k) as <-.
      { destruct (m !! n); [by rewrite lookup_insert_ne|done]. }
      destruct (m !! k); [|done]. simpl. f_equal.
      destruct (decide (k ∈ ns)) as [Hin|Hin].
      * by rewrite decide_True by (by apply list_elem_of_further).
      * rewrite decide_False; [done|]. by intros [?|?]%elem_of_cons.
Qed.

(** ** [remove], system by system *)

(** The inner loop of [remove] deletes the fragment from the classes that
    are named like a field. *)
Lemma removeFromGroups_lookup fields guid (system : ClassificationSystem) c :
  forEach fields (removeFromGroup guid) system !! c
  = (λ g, if decide (c ∈ fields) then Group.deleteFragment guid g else g)
      <$> system !! c.
Proof.
  apply (forEach_visits (Group.deleteFragment guid)); [done|].
  apply deleteFragment_idemp.
Qed.

Lemma removeFromGroups_idemp fields guid (system : ClassificationSystem) :
  forEach fields (removeFromGroup guid)
    (forEach fields (removeFromGroup guid) system)
  = forEach fields (removeFromGroup guid) system.
Proof.
  apply map_eq. intros c. rewrite !removeFromGroups_lookup.
  destruct (system !! c) as [g|]; [|done]. simpl. f_equal.
  case_decide; [apply deleteFragment_idemp|done].
Qed.

Lemma reached_dom names (l1 l2 : ClassificationList) :
  (∀ k, is_Some (l1 !! k) ↔ is_Some (l2 !! k)) →
  reached names l1 = reached names l2.
Proof.
  intros Hdom. induction names as [|n ns IH]; [done|]. simpl.
  destruct (l1 !! n) eqn:H1, (l2 !! n) eqn:H2; try done.
  - by rewrite IH.
  - assert (is_Some (l2 !! n)) as [? ?] by (apply Hdom; by eexists).
    congruence.
  - assert (is_Some (l1 !! n)) as [? ?] by (apply Hdom; by eexists).
    congruence.
Qed.

Lemma elem_of_reached names (lst : ClassificationList) s :
  s ∈ reached names lst → s ∈ names ∧ is_Some (lst !! s).
Proof.
  induction names as [|n ns IH]; simpl; [by intros ?%elem_of_nil|].
  destruct (lst !! n) eqn:Hn; [|by intros ?%elem_of_nil].
  intros [->|Hin]%elem_of_cons.
  - split; [apply list_elem_of_here|by eexists].
  - destruct (IH Hin). split; [by apply list_elem_of_further|done].
Qed.

Lemma reached_noFieldNamed fields (lst : ClassificationList) :
  noFieldNamed fields lst → reached fields lst = [].
Proof.
  intros Hno. destruct fields as [|f fs]; [done|]. simpl.
  by rewrite (Hno f) by apply list_elem_of_here.
Qed.

(** The outer loop of [remove] reaches the systems at the head of the
    enumeration, and stops at the first name without system. *)
Lemma removeLoop_lookup fields guid systemNames :
  ∀ (lst : ClassificationList) s,
    removeLoop fields guid systemNames lst !! s
    = (λ system, if decide (s ∈ reached systemNames lst)
                 then forEach fields (removeFromGroup guid) system
                 else system) <$> lst !! s.
Proof.
  induction systemNames as [|n ns IH]; intros lst s.
  - simpl. by destruct (lst !! s).
  - simpl. destruct (lst !! n) as [system|] eqn:Hn; [|by destruct (lst !! s)].
    rewrite IH.
    rewrite (reached_dom ns _ lst).
    2:{ intros k. destruct (decide (k = n)) as [->|Hne].
        - rewrite lookup_insert_eq, Hn. split; by eexists.
        - by rewrite lookup_insert_ne. }
    destruct (decide (s = n)) as [->|Hne].
    + rewrite lookup_insert_eq, Hn. simpl.
      rewrite (decide_True (P := n ∈ n :: reached ns lst))
        by apply list_elem_of_here.
      case_decide; by rewrite ?removeFromGroups_idemp.
    + rewrite lookup_insert_ne by done.
      destruct (lst !! s); [|done]. simpl. f_equal.
      destruct (decide (s ∈ reached ns lst)) as [Hin|Hin].
      * by rewrite decide_True by (by apply list_elem_of_further).
      * rewrite decide_False; [done|]. by intros [?|?]%elem_of_cons.
Qed.

Lemma remove_lookup fields guid (lst : ClassificationList) s :
  remove fields guid lst !! s
  = (λ system, if decide (s ∈ reached fields lst)
               then forEach fields (removeFromGroup guid) system
               else system) <$> lst !! s.
Proof. apply removeLoop_lookup. Qed.

Lemma remove_is_Some fields guid (lst : ClassificationList) k :
  is_Some (remove fields guid lst !! k) ↔ is_Some (lst !! k).
Proof. by rewrite remove_lookup, fmap_is_Some. Qed.

Lemma reached_remove fields guid names (lst : ClassificationList) :
  reached names (remove fields guid lst) = reached names lst.
Proof. apply reached_dom. intros k. apply remove_is_Some. Qed.

(** No system named like a field: [remove] returns at the first name that
    the enumeration gives, or has no name to visit, and the index is as it
    was. *)
Lemma remove_unreached fields guid (lst : ClassificationList) :
  noFieldNamed fields lst → remove fields guid lst = lst.
Proof.
  intros Hno. apply map_eq. intros s.
  rewrite remove_lookup, reached_noFieldNamed by done.
  by destruct (lst !! s).
Qed.

(** ** The disposal handler, system by system *)

(** The inner loop of the disposal handler deletes the fragments from the
    classes under the names it visits and removes no class: the test on
    [Object.values(group)] never succeeds. *)
Lemma disposeGroups_lookup names fragmentIDs (system : ClassificationSystem) c :
  forEach names (disposeGroup fragmentIDs) system !! c
  = (λ g, if decide (c ∈ names)
          then forEach fragmentIDs Group.deleteFragment g else g)
      <$> system !! c.
Proof.
  apply (forEach_visits (λ g, forEach fragmentIDs Group.deleteFragment g)).
  - intros k m. unfold disposeGroup. by destruct (m !! k).
  - apply deleteFragments_idemp.
Qed.

Lemma disposeSystem_Some fields groupID fragmentIDs k (lst : ClassificationList) :
  disposeSystem fields groupID fragmentIDs k lst
  = match lst !! k with
    | None => lst
    | Some system =>
        <[k := disposedSystem fields groupID fragmentIDs system]> lst
    end.
Proof.
  unfold disposeSystem, disposedSystem.
  destruct (lst !! k) as [system|]; [|done]. cbv zeta.
  case_bool_decide as Hin.
  - rewrite decide_True by done. destruct fields; [|done].
    by apply elem_of_nil in Hin.
  - rewrite decide_False by done. f_equal. apply map_eq. intros c.
    rewrite disposeGroups_lookup, map_lookup_imap.
    by destruct (system !! c).
Qed.

Lemma disposedSystem_idemp fields groupID fragmentIDs
    (system : ClassificationSystem) :
  disposedSystem fields groupID fragmentIDs
    (disposedSystem fields groupID fragmentIDs system)
  = disposedSystem fields groupID fragmentIDs system.
Proof.
  unfold disposedSystem. case_decide; [apply delete_delete_eq|].
  apply map_eq. intros c. rewrite !map_lookup_imap.
  destruct (system !! c) as [g|]; [|done]. simpl. f_equal.
  case_decide; [apply deleteFragments_idemp|done].
Qed.

(** The handler reaches the systems that are named like a field, and no
    other. *)
Lemma onFragmentsDisposed_lookup fields groupID fragmentIDs
    (lst : ClassificationList) s :
  onFragmentsDisposed fields groupID fragmentIDs lst !! s
  = (λ system, if decide (s ∈ fields)
               then disposedSystem fields groupID fragmentIDs system
               else system) <$> lst !! s.
Proof.
  apply (forEach_visits (disposedSystem fields groupID fragmentIDs)).
  - intros k m. apply disposeSystem_Some.
  - apply disposedSystem_idemp.
Qed.

(** No system named like a field: every name that the enumeration gives
    is passed by ([if (!system) continue]), and the index is as it was. *)
Lemma onFragmentsDisposed_unreached fields groupID fragmentIDs
    (lst : ClassificationList) :
  noFieldNamed fields lst →
  onFragmentsDisposed fields groupID fragmentIDs lst = lst.
Proof.
  intros Hno. apply map_eq. intros s. rewrite onFragmentsDisposed_lookup.
  destruct (lst !! s) eqn:Hs; [|done]. simpl.
  rewrite decide_False; [done|]. intros Hin. specialize (Hno s Hin).
  congruence.
Qed.

Lemma noFieldNamed_eventFields_wallIndex : noFieldNamed eventFields wallIndex.
Proof.
  intros f Hin. unfold eventFields in Hin.
  repeat (apply elem_of_cons in Hin as [->|Hin]; [by vm_compute|]).
  by apply elem_of_nil in Hin.
Qed.

(** ** Disposal of fragments (C3, C4) *)

(** C3 (the code, in general and at the failing input): the handler
    enumerates [this.list] with [for ... in], which gives the fields of the
    [DataMap] and not the names of the systems.  When no system is named
    like a field, [get] finds nothing under any name given, every turn of
    the loop is passed by and the index is left as it was: no fragment is
    deleted from a class, no class and no system is removed. *)
Theorem onFragmentsDisposed_reaches_no_system fields groupID fragmentIDs
    (lst : ClassificationList) :
  noFieldNamed fields lst →
  onFragmentsDisposed fields groupID fragmentIDs lst = lst.
Proof. apply onFragmentsDisposed_unreached. Qed.

Lemma onFragmentsDisposed_reaches_no_system_witness :
  noFieldNamed eventFields wallIndex
  ∧ onFragmentsDisposed eventFields "model-1" ["frag-1"] wallIndex = wallIndex.
Proof.
  split; [apply noFieldNamed_eventFields_wallIndex|].
  apply (onFragmentsDisposed_reaches_no_system eventFields "model-1"
           ["frag-1"] wallIndex).
  apply noFieldNamed_eventFields_wallIndex.
Defined.

(** C4 (the code, in general and at the failing input): [remove]
    enumerates [this.list] in the same way, and returns at the first name
    under which [get] finds no system.  When no system is named like a
    field, [remove(guid)] deletes the fragment from no class, and the
    disposal notification for the same fragment prunes nothing: both leave
    the index as it was. *)
Theorem remove_and_disposal_delete_nothing fields guid groupID
    (lst : ClassificationList) :
  noFieldNamed fields lst →
  remove fields guid lst = lst
  ∧ onFragmentsDisposed fields groupID [guid] lst = lst.
Proof.
  intros Hno. split;
    [by apply remove_unreached|by apply onFragmentsDisposed_unreached].
Qed.

Lemma remove_and_disposal_delete_nothing_witness :
  noFieldNamed eventFields wallIndex
  ∧ remove eventFields "frag-1" wallIndex = wallIndex
  ∧ onFragmentsDisposed eventFields "model-1" ["frag-1"] wallIndex = wallIndex.
Proof.
  split; [apply noFieldNamed_eventFields_wallIndex|].
  apply (remove_and_disposal_delete_nothing eventFields "frag-1" "model-1"
           wallIndex).
  apply noFieldNamed_eventFields_wallIndex.
Defined.

(** ** [saveItem] on an entity without geometry (C5) *)

(** C5 (counterexample): entity 42 has no entry in the data of the model,
    and yet [saveItem] changes the empty index: it creates the system. *)
Lemma saveItem_creates_system :
  data_get (data noData) 42 = None
  ∧ saveItem noData "spatialStructures" "Level 1" 42 None ∅ ≠ ∅
  ∧ saveItem noData "spatialStructures" "Level 1" 42 None ∅
    = {[ "spatialStructures" := ∅ ]}.
Proof. split; [done|]. split; [|by vm_compute]. by vm_compute. Qed.

(** C5 (amended): for an entity without entry in [group.data], [saveItem]
    creates no class and no fragment entry; it leaves the index unchanged
    when the system exists, and otherwise only adds the system, empty. *)
Theorem saveItem_without_data group systemName className expressID parentID
    (lst : ClassificationList) :
  data_get (data group) expressID = None →
  saveItem group systemName className expressID parentID lst
  = match lst !! systemName with
    | Some _ => lst
    | None => <[systemName := ∅]> lst
    end.
Proof. intros Hdata. unfold saveItem. rewrite Hdata. by destruct (lst !! systemName). Qed.

Lemma saveItem_without_data_witness :
  data_get (data noData) 42 = None
  ∧ saveItem noData "entities" "IFCSLAB" 42 None wallIndex = wallIndex.
Proof.
  split; [reflexivity|].
  exact (saveItem_without_data noData "entities" "IFCSLAB" 42 None wallIndex
           eq_refl).
Defined.

(** ** What the insertions preserve *)

Lemma grows_refl g : grows g g.
Proof. intros f ids H. by exists ids. Qed.

Lemma grows_trans g1 g2 g3 : grows g1 g2 → grows g2 g3 → grows g1 g3.
Proof.
  intros H12 H23 f ids H. destruct (H12 _ _ H) as (ids2 & H2 & Hs2).
  destruct (H23 _ _ H2) as (ids3 & H3 & Hs3). exists ids3. split; [done|].
  set_solver.
Qed.

Lemma extends_refl lst : extends lst lst.
Proof.
  intros s system Hs. exists system. split; [done|]. intros c g Hc.
  exists g. split; [done|]. apply grows_refl.
Qed.

Lemma extends_trans l1 l2 l3 : extends l1 l2 → extends l2 l3 → extends l1 l3.
Proof.
  intros H12 H23 s sys1 Hs1. destruct (H12 _ _ Hs1) as (sys2 & Hs2 & Hc2).
  destruct (H23 _ _ Hs2) as (sys3 & Hs3 & Hc3). exists sys3. split; [done|].
  intros c g1 Hg1. destruct (Hc2 _ _ Hg1) as (g2 & Hg2 & Hgr2).
  destruct (Hc3 _ _ Hg2) as (g3 & Hg3 & Hgr3). exists g3. split; [done|].
  by apply grows_trans with g2.
Qed.

Lemma extends_keeps lst lst' : extends lst lst' → keeps lst lst'.
Proof.
  intros Hext s system Hs. destruct (Hext _ _ Hs) as (system' & Hs' & Hc).
  exists system'. split; [done|]. intros c [g Hg]%elem_of_dom.
  destruct (Hc _ _ Hg) as (g' & Hg' & _). apply elem_of_dom. by exists g'.
Qed.

Lemma extends_inClass lst lst' s c f e :
  extends lst lst' → inClass lst s c f e → inClass lst' s c f e.
Proof.
  intros Hext (system & g & Hs & Hc & ids & Hf & He).
  destruct (Hext _ _ Hs) as (system' & Hs' & Hcs).
  destruct (Hcs _ _ Hc) as (g' & Hg' & Hgr).
  destruct (Hgr _ _ Hf) as (ids' & Hf' & Hsub).
  exists system', g'. repeat split; try done. exists ids'. split; [done|].
  set_solver.
Qed.

Lemma forEach_extends {A} (xs : list A)
    (body : A → ClassificationList → ClassificationList) lst :
  (∀ x st, extends st (body x st)) → extends lst (forEach xs body lst).
Proof.
  intros Hbody. revert lst. induction xs as [|x xs IH]; intros lst.
  - apply extends_refl.
  - rewrite forEach_cons. eapply extends_trans; [apply Hbody | apply IH].
Qed.

Lemma forEach_grows {A} (xs : list A) (body : A → Group.t → Group.t) g :
  (∀ x st, grows st (body x st)) → grows g (forEach xs body g).
Proof.
  intros Hbody. revert g. induction xs as [|x xs IH]; intros g.
  - apply grows_refl.
  - rewrite forEach_cons. eapply grows_trans; [apply Hbody | apply IH].
Qed.

(** [Group.add] records the pair and keeps name, parent and other pairs. *)
Lemma Group_add_lookup f e g f' :
  Group.map (Group.add f e g) !! f'
  = if decide (f' = f) then Some ({[e]} ∪ default ∅ (Group.map g !! f))
    else Group.map g !! f'.
Proof.
  unfold Group.add. destruct (Group.map g !! f) as [ids|] eqn:Hf; simpl.
  - rewrite Hf. simpl. case_decide as Hd.
    + subst. by rewrite lookup_insert_eq.
    + by rewrite lookup_insert_ne.
  - rewrite lookup_insert_eq. simpl. case_decide as Hd.
    + subst. rewrite lookup_insert_eq. done.
    + by rewrite !lookup_insert_ne.
Qed.

Lemma Group_add_name f e g :
  Group.name (Group.add f e g) = Group.name g
  ∧ Group.id (Group.add f e g) = Group.id g.
Proof.
  unfold Group.add.
  destruct (Group.map g !! f) eqn:Hf; simpl;
    [rewrite Hf | rewrite lookup_insert_eq]; done.
Qed.

Lemma Group_add_grows f e g : grows g (Group.add f e g).
Proof.
  intros f' ids Hf'. rewrite Group_add_lookup. case_decide as Hd.
  - subst. rewrite Hf'. eexists. split; [done|]. simpl. set_solver.
  - by exists ids.
Qed.

Lemma Group_add_in f e g : inMap (Group.map (Group.add f e g)) f e.
Proof.
  eexists. rewrite Group_add_lookup, decide_True by done. split; [done|].
  set_solver.
Qed.

Lemma extends_insert_system (lst : ClassificationList) s
    (system system' : ClassificationSystem) :
  lst !! s = Some system →
  (∀ c g, system !! c = Some g → ∃ g', system' !! c = Some g' ∧ grows g g') →
  extends lst (<[s := system']> lst).
Proof.
  intros Hs Hsys s0 system0 Hs0. destruct (decide (s0 = s)) as [->|Hne].
  - rewrite lookup_insert_eq. exists system'. split; [done|].
    rewrite Hs in Hs0. injection Hs0 as <-. done.
  - rewrite lookup_insert_ne by done. exists system0. split; [done|].
    intros c g Hc. exists g. split; [done|]. apply grows_refl.
Qed.

Lemma extends_insert_fresh (lst : ClassificationList) s
    (system : ClassificationSystem) :
  lst !! s = None → extends lst (<[s := system]> lst).
Proof.
  intros Hs s0 system0 Hs0. assert (s0 ≠ s) by congruence.
  rewrite lookup_insert_ne by done. exists system0. split; [done|].
  intros c g Hc. exists g. split; [done|]. apply grows_refl.
Qed.

Lemma system_insert_grows (system : ClassificationSystem) c g' :
  (∀ g, system !! c = Some g → grows g g') →
  ∀ c0 g0, system !! c0 = Some g0 →
    ∃ g1, <[c := g']> system !! c0 = Some g1 ∧ grows g0 g1.
Proof.
  intros Hg c0 g0 Hc0. destruct (decide (c0 = c)) as [->|Hne].
  - rewrite lookup_insert_eq. exists g'. split; [done|]. by apply Hg.
  - rewrite lookup_insert_ne by done. exists g0. split; [done|].
    apply grows_refl.
Qed.

Lemma saveItemKey_extends group systemName className expressID parentID key lst :
  extends lst
    (saveItemKey group systemName className expressID parentID key lst).
Proof.
  unfold saveItemKey. destruct (JS.falsy _); [apply extends_refl|].
  destruct (keyFragments group !! key) as [f|]; [|apply extends_refl].
  destruct (lst !! systemName) as [system|] eqn:Hs; [|apply extends_refl].
  destruct (system !! className) as [g|] eqn:Hc.
  - rewrite Hc. apply (extends_insert_system _ _ system); [done|].
    apply system_insert_grows. intros g0 Hg0.
    rewrite Hc in Hg0. injection Hg0 as <-. apply Group_add_grows.
  - rewrite lookup_insert_eq. apply (extends_insert_system _ _ system); [done|].
    intros c0 g0 Hc0. assert (c0 ≠ className) by congruence.
    rewrite !lookup_insert_ne by done. exists g0. split; [done|].
    apply grows_refl.
Qed.

Lemma ensureSystem_extends (lst : ClassificationList) s :
  extends lst (match lst !! s with
               | None => <[s := ∅]> lst
               | Some _ => lst
               end).
Proof.
  destruct (lst !! s) eqn:Hs; [apply extends_refl|].
  by apply extends_insert_fresh.
Qed.

Lemma saveItem_extends group systemName className expressID parentID lst :
  extends lst (saveItem group systemName className expressID parentID lst).
Proof.
  unfold saveItem. eapply extends_trans; [apply ensureSystem_extends|].
  destruct (data_get (data group) expressID) as [keys|]; [|apply extends_refl].
  apply forEach_extends. intros. apply saveItemKey_extends.
Qed.

Lemma byModelKey_grows group expressID key g :
  grows g (byModelKey group expressID key g).
Proof.
  unfold byModelKey. destruct (JS.falsy _); [apply grows_refl|].
  destruct (keyFragments group !! key); [apply Group_add_grows|apply grows_refl].
Qed.

Lemma byModel_extends modelID group lst :
  extends lst (byModel modelID group lst).
Proof.
  unfold byModel. eapply extends_trans; [apply (ensureSystem_extends _ "models")|].
  cbv zeta.
  generalize (match lst !! "models" with
              | None => <["models" := ∅]> lst
              | Some _ => lst
              end).
  intros lst1.
  destruct (lst1 !! "models") as [mc|] eqn:Hmc; [|apply extends_refl].
  destruct (mc !! modelID) as [g|] eqn:Hg.
  - rewrite Hg. apply (extends_insert_system _ _ mc); [done|].
    apply system_insert_grows. intros g0 Hg0. rewrite Hg in Hg0.
    injection Hg0 as <-. apply forEach_grows. intros [e d] st.
    apply forEach_grows. intros. apply byModelKey_grows.
  - rewrite lookup_insert_eq. apply (extends_insert_system _ _ mc); [done|].
    intros c0 g0 Hc0. assert (c0 ≠ modelID) by congruence.
    rewrite !lookup_insert_ne by done. exists g0. split; [done|].
    apply grows_refl.
Qed.

Lemma removeFromGroups_dom fields guid (system : ClassificationSystem) :
  dom (forEach fields (removeFromGroup guid) system) = dom system.
Proof.
  apply set_eq. intros c.
  by rewrite !elem_of_dom, removeFromGroups_lookup, fmap_is_Some.
Qed.

Lemma remove_keeps fields guid lst : keeps lst (remove fields guid lst).
Proof.
  intros s system Hs. rewrite remove_lookup, Hs. simpl.
  eexists. split; [done|]. case_decide; [|done].
  by rewrite removeFromGroups_dom.
Qed.

(** ** Empty systems and classes (C6) *)

(** C6 (counterexample): from the empty index, one [saveItem] for an entity
    without geometry leaves a system with zero classes, and [byModel] for a
    model without entities leaves a class with zero fragment entries. *)
Lemma empty_entries_are_not_pruned :
  ¬ pruned (forEach [OpSaveItem noData "entities" "IFCWALL" 42 None]
              (perform eventFields) ∅)
  ∧ ¬ pruned (forEach [OpByModel "model-1" noData] (perform eventFields) ∅).
Proof.
  split; intros Hp.
  - destruct (Hp "entities" ∅) as [Hne _]; [by vm_compute|]. by apply Hne.
  - destruct (Hp "models" {[ "model-1" := Group.mk ∅ "model-1" None ]})
      as [_ Hcl]; [by vm_compute|].
    by apply (Hcl "model-1" (Group.mk ∅ "model-1" None)).
Qed.

(** C6 (amended): the index can hold a system with zero classes and a
    class with zero fragment entries.  [saveItem] creates an empty system
    for an entity without entry in [group.data], [byModel] creates an empty
    class for a model without entities, and [saveItem], [byModel] and
    [remove] never take a system or a class out of the index. *)
Theorem empty_entries_stay :
  (∀ group systemName className expressID parentID lst,
     keeps lst (saveItem group systemName className expressID parentID lst))
  ∧ (∀ modelID group lst, keeps lst (byModel modelID group lst))
  ∧ (∀ fields guid lst, keeps lst (remove fields guid lst))
  ∧ (∀ group systemName className expressID parentID
       (lst : ClassificationList),
       data_get (data group) expressID = None → lst !! systemName = None →
       saveItem group systemName className expressID parentID lst
         !! systemName = Some ∅)
  ∧ (∀ modelID group (lst : ClassificationList),
       data group = [] → lst !! "models" = None →
       classOf (byModel modelID group lst) "models" modelID
       = Some (Group.mk ∅ modelID None)).
Proof.
  repeat split.
  - intros. apply extends_keeps, saveItem_extends.
  - intros. apply extends_keeps, byModel_extends.
  - intros. apply remove_keeps.
  - intros group systemName className expressID parentID lst Hdata Hs.
    unfold saveItem. by rewrite Hdata, Hs, lookup_insert_eq.
  - intros modelID group lst Hdata Hm. unfold byModel, classOf.
    rewrite Hm, Hdata. cbv zeta.
    rewrite !lookup_insert_eq, lookup_empty, lookup_insert_eq. simpl.
    rewrite lookup_insert_eq. simpl. by rewrite lookup_insert_eq.
Qed.

(** ** The counting pass of [find] *)

Lemma inMapb_spec m guid id : inMapb m guid id = true ↔ inMap m guid id.
Proof.
  unfold inMapb, inMap. destruct (m !! guid) as [ids|].
  - rewrite bool_decide_eq_true. split; [by exists ids|].
    by intros (? & [= <-] & ?).
  - split; [done|]. by intros (? & ? & _).
Qed.

Lemma inClassb_spec lst s c guid id :
  inClassb lst s c guid id = true ↔ inClass lst s c guid id.
Proof.
  unfold inClassb, inClass. destruct (lst !! s) as [system|].
  - destruct (system !! c) as [g|] eqn:Hc.
    + rewrite inMapb_spec. split; [by exists system, g|].
      intros (? & g' & [= <-] & Hc' & ?). by simplify_eq.
    + split; [done|]. intros (? & ? & [= <-] & ? & _). congruence.
  - split; [done|]. by intros (? & ? & ? & _).
Qed.

Lemma matchCount_stored (models : MatchCounts) g i c :
  positive models →
  (∃ model, models !! g = Some model ∧ model !! i = Some c)
  ↔ matchCount models g i = c ∧ (1 ≤ c)%nat.
Proof.
  intros Hpos. unfold matchCount. split.
  - intros (model & Hg & Hi). rewrite Hg. simpl. rewrite Hi. simpl.
    split; [done|]. by eapply Hpos.
  - intros [Hc Hle]. destruct (models !! g) as [model|]; simpl in Hc; [|lia].
    exists model. split; [done|]. destruct (model !! i); simpl in Hc; [|lia].
    by subst.
Qed.

Lemma countId_count guid id (models : MatchCounts) model g i :
  models !! guid = Some model →
  matchCount (countId guid id models) g i
  = (matchCount models g i
     + if bool_decide (g = guid ∧ i = id) then 1 else 0)%nat.
Proof.
  intros Hm. unfold countId, matchCount. rewrite Hm.
  destruct (decide (g = guid)) as [->|Hg].
  - rewrite Hm. simpl. destruct (decide (i = id)) as [->|Hi].
    + rewrite bool_decide_eq_true_2 by done.
      destruct (model !! id) as [c|] eqn:Hc; rewrite lookup_insert_eq; simpl;
        rewrite lookup_insert_eq; simpl; lia.
    + rewrite bool_decide_eq_false_2 by (by intros [_ ?]).
      destruct (model !! id) as [c|] eqn:Hc; rewrite lookup_insert_eq; simpl;
        rewrite lookup_insert_ne by done; lia.
  - rewrite bool_decide_eq_false_2 by (by intros [? _]).
    destruct (model !! id); rewrite lookup_insert_ne by done; lia.
Qed.

Lemma countId_Some guid id (models : MatchCounts) g :
  is_Some (models !! g) → is_Some (countId guid id models !! g).
Proof.
  intros Hg. unfold countId. destruct (models !! guid) as [model|]; [|done].
  destruct (model !! id); (destruct (decide (g = guid)) as [->|Hne];
    [rewrite lookup_insert_eq; by eexists | by rewrite lookup_insert_ne]).
Qed.

Lemma countId_positive guid id models :
  positive models → positive (countId guid id models).
Proof.
  intros Hpos g model i c. unfold countId.
  destruct (models !! guid) as [model0|] eqn:Hm; [|apply Hpos].
  destruct (model0 !! id) as [c0|] eqn:Hc0;
    (destruct (decide (g = guid)) as [->|Hne];
     [rewrite lookup_insert_eq; intros [= <-];
      destruct (decide (i = id)) as [->|Hi];
      [rewrite lookup_insert_eq; intros [= <-]; lia
      |rewrite lookup_insert_ne by done; intros ?; by eapply (Hpos guid model0)]
     |rewrite lookup_insert_ne by done; apply Hpos]).
Qed.

Lemma countIds_count guid ids :
  NoDup ids →
  ∀ (models : MatchCounts) g i, is_Some (models !! guid) →
    matchCount (forEach ids (countId guid) models) g i
    = (matchCount models g i
       + if bool_decide (g = guid ∧ i ∈ ids) then 1 else 0)%nat.
Proof.
  induction ids as [|id ids IH]; intros Hnd models g i Hsome.
  - rewrite forEach_nil, bool_decide_eq_false_2; [lia|].
    intros [_ H]. by apply not_elem_of_nil in H.
  - apply NoDup_cons in Hnd as [Hid Hnd]. rewrite forEach_cons.
    rewrite IH by auto using countId_Some. destruct Hsome as [model Hm].
    rewrite (countId_count _ _ _ model) by done.
    rewrite <-Nat.add_assoc. f_equal.
    destruct (decide (g = guid ∧ i = id)) as [[-> ->]|Hne].
    + rewrite bool_decide_eq_true_2 by done.
      rewrite bool_decide_eq_false_2 by (by intros [_ ?]).
      rewrite bool_decide_eq_true_2; [done|]. split; [done|]. by left.
    + rewrite (bool_decide_eq_false_2 _ Hne). simpl.
      apply (f_equal (λ b : bool, if b then 1%nat else 0%nat)).
      apply bool_decide_ext. rewrite elem_of_cons. clear -Hne. intuition congruence.
Qed.

Lemma forEach_invariant {A S} (P : S → Prop) (xs : list A) (body : A → S → S) st :
  (∀ x st, P st → P (body x st)) → P st → P (forEach xs body st).
Proof.
  intros Hbody. revert st. induction xs as [|x xs IH]; intros st Hst; [done|].
  rewrite forEach_cons. by apply IH, Hbody.
Qed.

Lemma countGuid_count groupData guid (models : MatchCounts) g i :
  matchCount (countGuid groupData guid models) g i
  = (matchCount models g i
     + if bool_decide (g = guid ∧ inMapb (Group.map groupData) guid i = true)
       then 1 else 0)%nat.
Proof.
  unfold countGuid.
  assert (Hm : matchCount (match models !! guid with
                           | None => <[guid := ∅]> models
                           | Some _ => models
                           end) g i = matchCount models g i).
  { destruct (models !! guid) eqn:Hg; [done|]. unfold matchCount.
    destruct (decide (g = guid)) as [->|Hne].
    - by rewrite lookup_insert_eq, Hg.
    - by rewrite lookup_insert_ne. }
  assert (Hs : is_Some (match models !! guid with
                        | None => <[guid := ∅]> models
                        | Some _ => models
                        end !! guid)).
  { destruct (models !! guid) eqn:Hg; [by rewrite Hg|].
    rewrite lookup_insert_eq. by eexists. }
  unfold inMapb. destruct (Group.map groupData !! guid) as [ids|].
  - rewrite countIds_count; [|apply NoDup_elements|done]. rewrite Hm.
    f_equal. apply (f_equal (λ b : bool, if b then 1%nat else 0%nat)).
    apply bool_decide_ext. by rewrite elem_of_elements, bool_decide_eq_true.
  - rewrite Hm, bool_decide_eq_false_2; [lia|]. by intros [_ ?].
Qed.

Lemma countGuid_positive groupData guid models :
  positive models → positive (countGuid groupData guid models).
Proof.
  intros Hpos. unfold countGuid.
  assert (Hp : positive (match models !! guid with
                         | None => <[guid := ∅]> models
                         | Some _ => models
                         end)).
  { destruct (models !! guid) eqn:Hg; [done|]. intros g model i c.
    destruct (decide (g = guid)) as [->|Hne].
    - rewrite lookup_insert_eq. by intros [= <-].
    - rewrite lookup_insert_ne by done. apply Hpos. }
  destruct (Group.map groupData !! guid); [|done].
  apply forEach_invariant; [|done]. intros. by apply countId_positive.
Qed.

Lemma countGuids_count groupData guids :
  NoDup guids →
  ∀ (models : MatchCounts) g i,
    matchCount (forEach guids (countGuid groupData) models) g i
    = (matchCount models g i
       + if bool_decide (g ∈ guids ∧ inMapb (Group.map groupData) g i = true)
         then 1 else 0)%nat.
Proof.
  induction guids as [|guid guids IH]; intros Hnd models g i.
  - rewrite forEach_nil, bool_decide_eq_false_2; [lia|].
    intros [H _]. by apply not_elem_of_nil in H.
  - apply NoDup_cons in Hnd as [Hg Hnd]. rewrite forEach_cons, IH by done.
    rewrite countGuid_count. rewrite <-Nat.add_assoc. f_equal.
    destruct (decide (g = guid)) as [->|Hne].
    + rewrite (bool_decide_eq_false_2 (guid ∈ guids ∧ _)) by (by intros [? _]).
      rewrite Nat.add_0_r.
      apply (f_equal (λ b : bool, if b then 1%nat else 0%nat)).
      apply bool_decide_ext. rewrite elem_of_cons. clear. intuition.
    + rewrite (bool_decide_eq_false_2 (g = guid ∧ _)) by (by intros [? _]).
      simpl. apply (f_equal (λ b : bool, if b then 1%nat else 0%nat)).
      apply bool_decide_ext. rewrite elem_of_cons. clear -Hne. intuition congruence.
Qed.

Lemma countValue_count lst name value (models : MatchCounts) g i :
  matchCount (countValue lst name value models) g i
  = (matchCount models g i
     + if inClassb lst name value g i then 1 else 0)%nat.
Proof.
  unfold countValue, inClassb. destruct (lst !! name) as [system|]; [|lia].
  destruct (system !! value) as [groupData|]; [|lia].
  rewrite countGuids_count by apply NoDup_Object_keys. f_equal.
  destruct (inMapb (Group.map groupData) g i) eqn:Hin.
  - rewrite bool_decide_eq_true_2; [done|]. split; [|done].
    apply elem_of_Object_keys. apply inMapb_spec in Hin as (ids & Hids & _).
    by exists ids.
  - rewrite bool_decide_eq_false_2; [done|]. by intros [_ ?].
Qed.

Lemma countValue_positive lst name value models :
  positive models → positive (countValue lst name value models).
Proof.
  intros Hpos. unfold countValue. destruct (lst !! name) as [system|]; [|done].
  destruct (system !! value) as [groupData|]; [|done].
  apply forEach_invariant; [|done]. intros. by apply countGuid_positive.
Qed.

Lemma keyHits_cons lst name value values g i :
  keyHits lst name (value :: values) g i
  = ((if inClassb lst name value g i then 1 else 0)
     + keyHits lst name values g i)%nat.
Proof.
  unfold keyHits. rewrite filter_cons.
  destruct (inClassb lst name value g i) eqn:Hin.
  - by rewrite decide_True.
  - by rewrite decide_False.
Qed.

Lemma keyHits_unknown (lst : ClassificationList) name values g i :
  lst !! name = None → keyHits lst name values g i = 0%nat.
Proof.
  intros Hname. induction values as [|v vs IH]; [done|].
  rewrite keyHits_cons, IH. unfold inClassb. by rewrite Hname.
Qed.

Lemma countValues_count lst name values :
  ∀ (models : MatchCounts) g i,
    matchCount (forEach values (countValue lst name) models) g i
    = (matchCount models g i + keyHits lst name values g i)%nat.
Proof.
  induction values as [|v vs IH]; intros models g i.
  - rewrite forEach_nil. unfold keyHits. simpl. lia.
  - rewrite forEach_cons, IH, countValue_count, keyHits_cons. lia.
Qed.

Lemma countName_count lst (filter : Filter) name values (models : MatchCounts) g i :
  filter !! name = Some values →
  matchCount (countName lst filter name models) g i
  = (matchCount models g i + keyHits lst name values g i)%nat.
Proof.
  intros Hvalues. unfold countName. rewrite Hvalues.
  destruct (lst !! name) eqn:Hname.
  - apply countValues_count.
  - rewrite keyHits_unknown by done. lia.
Qed.

Lemma countName_positive lst (filter : Filter) name models :
  positive models → positive (countName lst filter name models).
Proof.
  intros Hpos. unfold countName. destruct (filter !! name); [|done].
  destruct (lst !! name); [|done].
  apply forEach_invariant; [|done]. intros. by apply countValue_positive.
Qed.

Lemma totalHits_cons lst name values entries g i :
  totalHits lst ((name, values) :: entries) g i
  = (keyHits lst name values g i + totalHits lst entries g i)%nat.
Proof. reflexivity. Qed.

Lemma countNames_count lst (filter : Filter) (entries : list (string * list string)) :
  (∀ name values, (name, values) ∈ entries → filter !! name = Some values) →
  ∀ (models : MatchCounts) g i,
    matchCount (forEach entries.*1 (countName lst filter) models) g i
    = (matchCount models g i + totalHits lst entries g i)%nat.
Proof.
  induction entries as [|[name values] entries IH]; intros Hall models g i.
  - unfold totalHits. simpl. lia.
  - rewrite fmap_cons, forEach_cons, IH.
    + rewrite (countName_count _ _ _ values) by (apply Hall; by left).
      rewrite totalHits_cons. simpl. lia.
    + intros n v Hin. apply Hall. by right.
Qed.

Lemma positive_empty : positive ∅.
Proof. intros g model i c Hg. by rewrite lookup_empty in Hg. Qed.

(** ** The collecting pass of [find] *)

Lemma inMap_ensure (result : FragmentIdMap) guid g i :
  inMap (match result !! guid with
         | None => <[guid := ∅]> result
         | Some _ => result
         end) g i ↔ inMap result g i.
Proof.
  destruct (result !! guid) eqn:Hg; [done|]. unfold inMap.
  destruct (decide (g = guid)) as [->|Hne].
  - rewrite lookup_insert_eq, Hg. split.
    + intros (ids & [= <-] & Hi). set_solver.
    + by intros (ids & ? & _).
  - by rewrite lookup_insert_ne.
Qed.

Lemma collectId_in filterCount guid id n (result : FragmentIdMap) g i :
  inMap (collectId filterCount guid (id, n) result) g i
  ↔ inMap result g i ∨ (g = guid ∧ i = id ∧ n = filterCount).
Proof.
  unfold collectId. destruct (Nat.eqb_spec n filterCount) as [->|Hn].
  2:{ split; [by left|]. intros [?|(_ & _ & ?)]; [done|congruence]. }
  unfold inMap. destruct (result !! guid) as [ids|] eqn:Hr.
  - rewrite Hr. destruct (decide (g = guid)) as [->|Hne].
    + rewrite lookup_insert_eq, Hr. split.
      * intros (ids' & [= <-] & [->%elem_of_singleton|Hi]%elem_of_union).
        -- by right.
        -- left. by exists ids.
      * intros [(ids' & [= <-] & Hi)|(_ & -> & _)];
          eexists; (split; [done|]); apply elem_of_union;
          [by right | left; by apply elem_of_singleton].
    + rewrite lookup_insert_ne by done. split; [by left|].
      intros [?|(? & _)]; [done|congruence].
  - rewrite lookup_insert_eq. destruct (decide (g = guid)) as [->|Hne].
    + rewrite lookup_insert_eq, Hr. split.
      * intros (ids' & [= <-] & Hi). right.
        apply elem_of_union in Hi as [Hi%elem_of_singleton|Hi]; [done|].
        by apply elem_of_empty in Hi.
      * intros [(ids' & ? & _)|(_ & -> & _)]; [done|].
        eexists. split; [done|]. apply elem_of_union. left.
        by apply elem_of_singleton.
    + rewrite !lookup_insert_ne by done. split; [by left|].
      intros [?|(? & _)]; [done|congruence].
Qed.

Lemma collectIds_in filterCount guid (entries : list (Z * nat)) :
  ∀ (result : FragmentIdMap) g i,
    inMap (forEach entries (collectId filterCount guid) result) g i
    ↔ inMap result g i ∨ (g = guid ∧ (i, filterCount) ∈ entries).
Proof.
  induction entries as [|[id n] entries IH]; intros result g i.
  - rewrite forEach_nil. split; [by left|].
    intros [?|[_ H]]; [done|]. by apply not_elem_of_nil in H.
  - rewrite forEach_cons, IH, collectId_in, elem_of_cons.
    split; [intros [[?|(? & ? & ?)]|[? ?]]|intros [?|[? [?|?]]]];
      simplify_eq; auto 6.
Qed.

Lemma collectGuid_in filterCount (models : MatchCounts) guid
    (result : FragmentIdMap) g i :
  inMap (collectGuid filterCount models guid result) g i
  ↔ inMap result g i
    ∨ (g = guid ∧ ∃ model, models !! g = Some model
                           ∧ model !! i = Some filterCount).
Proof.
  unfold collectGuid. destruct (models !! guid) as [model|] eqn:Hm.
  - rewrite collectIds_in, elem_of_map_to_list. split.
    + intros [?|[-> ?]]; [by left|]. right. split; [done|]. by exists model.
    + intros [?|(-> & model' & Hm' & ?)]; [by left|]. right. split; [done|].
      congruence.
  - split; [by left|]. intros [?|(-> & model' & Hm' & ?)]; [done|congruence].
Qed.

Lemma collectGuids_in filterCount (models : MatchCounts) (guids : list string) :
  ∀ (result : FragmentIdMap) g i,
    inMap (forEach guids (collectGuid filterCount models) result) g i
    ↔ inMap result g i
      ∨ (g ∈ guids ∧ ∃ model, models !! g = Some model
                              ∧ model !! i = Some filterCount).
Proof.
  induction guids as [|guid guids IH]; intros result g i.
  - rewrite forEach_nil. split; [by left|].
    intros [?|[H _]]; [done|]. by apply not_elem_of_nil in H.
  - rewrite forEach_cons, IH, collectGuid_in, elem_of_cons.
    split; [intros [[?|(? & ?)]|[? ?]]|intros [?|[[?|?] ?]]]; auto 6.
Qed.

(** [find(filter)] returns the pairs whose number of matches, summed over
    the filter keys and the class names listed for them, equals the number
    of filter keys. *)
Lemma findFiltered_counts lst (filter : Filter) g i :
  inMap (findFiltered lst filter) g i
  ↔ totalHits lst (map_to_list filter) g i = size filter
    ∧ (1 ≤ size filter)%nat.
Proof.
  unfold findFiltered. rewrite collectGuids_in, length_Object_keys.
  assert (Hpos : positive (forEach (Object_keys filter) (countName lst filter) ∅)).
  { apply forEach_invariant; [|apply positive_empty].
    intros. by apply countName_positive. }
  assert (Hcount : matchCount (forEach (Object_keys filter) (countName lst filter) ∅) g i
                   = totalHits lst (map_to_list filter) g i).
  { unfold Object_keys. rewrite countNames_count.
    - unfold matchCount. by rewrite lookup_empty.
    - intros name values. apply elem_of_map_to_list. }
  rewrite <-Hcount, <-(matchCount_stored _ g i (size filter) Hpos). split.
  - intros [(ids & Hlk & _)|[_ ?]]; [by rewrite lookup_empty in Hlk|done].
  - intros (model & Hg & Hi). right. split; [|by exists model].
    apply elem_of_Object_keys. by exists model.
Qed.

(** ** Sums of numbers that are at most 1 *)

Lemma sum_list_units {A} (f : A → nat) (l : list A) :
  (∀ x, x ∈ l → (f x ≤ 1)%nat) →
  (sum_list (f <$> l) ≤ length l)%nat
  ∧ (sum_list (f <$> l) = length l ↔ ∀ x, x ∈ l → f x = 1%nat).
Proof.
  induction l as [|a l IH]; intros Hle.
  - split; [done|]. split; [|done]. intros _ x H. by apply not_elem_of_nil in H.
  - destruct IH as [IH1 IH2]; [intros; apply Hle; by right|].
    pose proof (Hle a (list_elem_of_here _ _)) as Ha.
    rewrite fmap_cons. simpl. split; [lia|]. split.
    + intros Hsum x [->|Hx]%elem_of_cons; [lia|]. apply IH2; [lia|done].
    + intros Hall. rewrite (Hall a) by (by left).
      f_equal. apply IH2. intros. apply Hall. by right.
Qed.

Lemma keyHits_pos lst name values g i :
  (1 ≤ keyHits lst name values g i)%nat
  ↔ ∃ value, value ∈ values ∧ inClass lst name value g i.
Proof.
  induction values as [|v vs IH].
  - unfold keyHits. simpl. split; [lia|].
    intros (? & H & _). by apply not_elem_of_nil in H.
  - rewrite keyHits_cons. destruct (inClassb lst name v g i) eqn:Hv.
    + split; [|lia]. intros _. exists v. split; [by left|].
      by apply inClassb_spec.
    + simpl. rewrite IH. split.
      * intros (v' & Hin & Hc). exists v'. split; [by right|done].
      * intros (v' & [->|Hin]%elem_of_cons & Hc); [|by exists v'].
        apply inClassb_spec in Hc. congruence.
Qed.

Lemma totalHits_fmap lst entries g i :
  totalHits lst entries g i
  = sum_list ((λ e : string * list string, keyHits lst e.1 e.2 g i) <$> entries).
Proof.
  unfold totalHits. f_equal. apply list_fmap_ext. by intros _ [name values] _.
Qed.

(** ** Filters (C1, C10) *)

(** For a non-empty filter and a pair that no key matches more than once,
    the count equals the number of keys exactly when every key matches. *)
Lemma findFiltered_and_or lst (filter : Filter) g i :
  filter ≠ ∅ → singleMatch lst filter g i →
  inMap (findFiltered lst filter) g i ↔ matchesFilter lst filter g i.
Proof.
  intros Hne Hsingle. rewrite findFiltered_counts, totalHits_fmap.
  destruct (sum_list_units (λ e : string * list string, keyHits lst e.1 e.2 g i)
              (map_to_list filter)) as [_ Hall].
  { intros [name values] Hin%elem_of_map_to_list. by apply Hsingle. }
  rewrite length_map_to_list in Hall. rewrite Hall. split.
  - intros [Hunits _] name values Hin. apply keyHits_pos.
    apply elem_of_map_to_list in Hin. apply Hunits in Hin. simpl in Hin. lia.
  - intros Hmatch. split.
    + intros [name values] Hin%elem_of_map_to_list. simpl.
      pose proof (Hsingle _ _ Hin). pose proof (Hmatch _ _ Hin) as Hm.
      apply keyHits_pos in Hm. lia.
    + destruct (size filter) eqn:Hsz; [|lia].
      by apply map_size_empty_inv in Hsz.
Qed.

(** One class per key, for two systems. *)
Lemma findFiltered_two_systems lst system1 system2 a b g i :
  system1 ≠ system2 →
  inMap (findFiltered lst {[ system1 := [a]; system2 := [b] ]}) g i
  ↔ inClass lst system1 a g i ∧ inClass lst system2 b g i.
Proof.
  intros Hne. rewrite findFiltered_and_or.
  - split.
    + intros Hm. split.
      * destruct (Hm system1 [a]) as (v & ->%list_elem_of_singleton & Hc);
          [by rewrite lookup_insert_eq|done].
      * destruct (Hm system2 [b]) as (v & ->%list_elem_of_singleton & Hc);
          [|done].
        by rewrite lookup_insert_ne, lookup_singleton_eq.
    + intros [Ha Hb] name values Hin.
      apply lookup_insert_Some in Hin as [[<- <-]|[_ Hin]].
      * exists a. split; [by left|done].
      * apply lookup_singleton_Some in Hin as [<- <-].
        exists b. split; [by left|done].
  - intros H. apply (f_equal (λ m : Filter, m !! system1)) in H.
    by rewrite lookup_insert_eq, lookup_empty in H.
  - intros name values Hin. assert (∃ v, values = [v]) as [v ->].
    { apply lookup_insert_Some in Hin as [[_ <-]|[_ Hin]]; [by eexists|].
      apply lookup_singleton_Some in Hin as [_ <-]. by eexists. }
    rewrite keyHits_cons. unfold keyHits. simpl.
    destruct (inClassb lst name v g i); lia.
Qed.

(** C1 (counterexample): entity 7 is on both listed floors, so it satisfies
    the filter [{floors: [F1, F2]}], and [find] leaves it out; with the key
    [entities: [IFCWALL]] added the filter excludes it, and [find] returns
    it.  The empty filter is satisfied by every pair and returns none. *)
Lemma find_counts_matches_not_keys :
  (matchesFilter twoFloors {[ "floors" := ["F1"; "F2"] ]} "frag-1" 7
   ∧ ¬ inMap (find [] twoFloors (Some {[ "floors" := ["F1"; "F2"] ]})) "frag-1" 7)
  ∧ (¬ matchesFilter twoFloors
         {[ "floors" := ["F1"; "F2"]; "entities" := ["IFCWALL"] ]} "frag-1" 7
     ∧ inMap (find [] twoFloors
                (Some {[ "floors" := ["F1"; "F2"]; "entities" := ["IFCWALL"] ]}))
         "frag-1" 7)
  ∧ (matchesFilter twoFloors ∅ "frag-1" 7
     ∧ ¬ inMap (find [] twoFloors (Some ∅)) "frag-1" 7).
Proof.
  repeat split.
  - intros name values [<- <-]%lookup_singleton_Some. exists "F1".
    split; [by left|]. by apply inClassb_spec.
  - rewrite <-inMapb_spec. by vm_compute.
  - intros Hm. destruct (Hm "entities" ["IFCWALL"]) as (v & Hv & Hc); [done|].
    apply list_elem_of_singleton in Hv as ->. apply inClassb_spec in Hc.
    by vm_compute in Hc.
  - apply inMapb_spec. by vm_compute.
  - intros name values Hin. by rewrite lookup_empty in Hin.
  - rewrite <-inMapb_spec. by vm_compute.
Qed.

(** C1 (amended): for a non-empty filter, [find(filter)] returns exactly
    the pairs that, for every filter key, belong to at least one of the
    classes listed for it, among the pairs that no key matches more than
    once (the classes listed for a key are distinct and do not share the
    pair).  In particular, for the filter [{system1: [a], system2: [b]}] a
    pair is returned iff it is in class [a] of [system1] and in class [b]
    of [system2]. *)
Theorem find_and_or fragments lst :
  (∀ (filter : Filter) g i,
     filter ≠ ∅ → singleMatch lst filter g i →
     inMap (find fragments lst (Some filter)) g i ↔ matchesFilter lst filter g i)
  ∧ (∀ system1 system2 a b g i,
       system1 ≠ system2 →
       inMap (find fragments lst (Some {[ system1 := [a]; system2 := [b] ]})) g i
       ↔ inClass lst system1 a g i ∧ inClass lst system2 b g i).
Proof.
  split.
  - intros filter g i. apply findFiltered_and_or.
  - intros system1 system2 a b g i. apply findFiltered_two_systems.
Qed.

Lemma find_and_or_witness :
  ({[ "floors" := ["F1"]; "entities" := ["IFCWALL"] ]} : Filter) ≠ ∅
  ∧ singleMatch twoFloors {[ "floors" := ["F1"]; "entities" := ["IFCWALL"] ]}
      "frag-1" 8
  ∧ (inMap (find [] twoFloors
              (Some {[ "floors" := ["F1"]; "entities" := ["IFCWALL"] ]}))
       "frag-1" 8
     ↔ matchesFilter twoFloors
         {[ "floors" := ["F1"]; "entities" := ["IFCWALL"] ]} "frag-1" 8).
Proof.
  assert (Hne : ({[ "floors" := ["F1"]; "entities" := ["IFCWALL"] ]} : Filter) ≠ ∅).
  { intros H. apply (f_equal (λ m : Filter, m !! "floors")) in H.
    by vm_compute in H. }
  assert (Hs : singleMatch twoFloors
                 {[ "floors" := ["F1"]; "entities" := ["IFCWALL"] ]} "frag-1" 8).
  { intros name values Hin. destruct (decide (name = "floors")) as [->|Hn1].
    - vm_compute in Hin. injection Hin as <-. vm_compute. lia.
    - destruct (decide (name = "entities")) as [->|Hn2].
      + vm_compute in Hin. injection Hin as <-. vm_compute. lia.
      + rewrite lookup_insert_ne, lookup_singleton_ne in Hin by done. done. }
  split; [exact Hne|]. split; [exact Hs|].
  exact (proj1 (find_and_or [] twoFloors) _ "frag-1" 8 Hne Hs).
Defined.

Lemma collectId_noEmptySet filterCount guid entry result :
  noEmptySet result → noEmptySet (collectId filterCount guid entry result).
Proof.
  intros Hres. destruct entry as [id n]. unfold collectId.
  destruct (n =? filterCount)%nat; [|done].
  assert (Hins : ∀ (r : FragmentIdMap) ids, noEmptySet r →
            noEmptySet (<[guid := {[id]} ∪ ids]> r)).
  { intros r ids Hr g ids'. destruct (decide (g = guid)) as [->|Hne].
    - rewrite lookup_insert_eq. intros [= <-] He.
      apply (not_elem_of_empty (C:=gset Z) id). rewrite <-He.
      apply elem_of_union. left. by apply elem_of_singleton.
    - rewrite lookup_insert_ne by done. apply Hr. }
  destruct (result !! guid) as [ids|] eqn:Hg.
  - rewrite Hg. by apply Hins.
  - rewrite lookup_insert_eq. rewrite insert_insert_eq. by apply Hins.
Qed.

Lemma findFiltered_noEmptySet lst filter : noEmptySet (findFiltered lst filter).
Proof.
  unfold findFiltered. apply forEach_invariant.
  - intros guid result Hres. unfold collectGuid.
    destruct (_ !! guid); [|done]. apply forEach_invariant; [|done].
    intros. by apply collectId_noEmptySet.
  - intros g ids Hg. by rewrite lookup_empty in Hg.
Qed.

Lemma noEmptySet_no_pair (m : FragmentIdMap) :
  noEmptySet m → (∀ g i, ¬ inMap m g i) → m = ∅.
Proof.
  intros Hne Hno. apply map_eq. intros g. rewrite lookup_empty.
  destruct (m !! g) as [ids|] eqn:Hg; [|done]. exfalso.
  destruct (set_choose_L ids) as [i Hi]; [by eapply Hne|].
  apply (Hno g i). by exists ids.
Qed.

(** C10 (counterexample): the class IFCWALL is listed twice, so the wall
    reaches the count 2 of the two filter keys although the system [ghost]
    is unknown, and the result is not empty. *)
Lemma unknown_system_and_repeated_class :
  ({[ "entities" := ["IFCWALL"; "IFCWALL"]; "ghost" := [] ]} : Filter) ≠ ∅
  ∧ wallIndex !! "ghost" = None
  ∧ find [] wallIndex
      (Some {[ "entities" := ["IFCWALL"; "IFCWALL"]; "ghost" := [] ]})
    = {[ "frag-1" := {[ 7 ]} ]}
  ∧ find [] wallIndex
      (Some {[ "entities" := ["IFCWALL"; "IFCWALL"]; "ghost" := [] ]}) ≠ ∅.
Proof.
  split.
  { intros H. apply (f_equal (λ m : Filter, m !! "ghost")) in H.
    by vm_compute in H. }
  split; [reflexivity|]. split; [by vm_compute|].
  intros H. apply (f_equal (λ m : FragmentIdMap, m !! "frag-1")) in H.
  by vm_compute in H.
Qed.

(** C10 (amended): when the filter has a system name that the index does
    not have, and no key matches any pair more than once, [find(filter)]
    returns the empty map. *)
Theorem find_unknown_system fragments (lst : ClassificationList)
    (filter : Filter) name :
  is_Some (filter !! name) → lst !! name = None →
  (∀ g i, singleMatch lst filter g i) →
  find fragments lst (Some filter) = ∅.
Proof.
  intros [values Hvalues] Hname Hsingle. simpl.
  apply noEmptySet_no_pair; [apply findFiltered_noEmptySet|].
  intros g i Hin. apply findFiltered_and_or in Hin; [|by intros ->|done].
  destruct (Hin _ _ Hvalues) as (v & _ & system & _ & Hs & _). congruence.
Qed.

Lemma find_unknown_system_witness :
  find [] wallIndex (Some {[ "entities" := ["IFCWALL"]; "ghost" := ["x"] ]}) = ∅.
Proof.
  apply (find_unknown_system [] wallIndex _ "ghost").
  - by eexists.
  - reflexivity.
  - intros g i name values Hin. destruct (decide (name = "entities")) as [->|Hn1].
    + vm_compute in Hin. injection Hin as <-. rewrite keyHits_cons.
      unfold keyHits. simpl. destruct (inClassb _ _ _ _ _); lia.
    + destruct (decide (name = "ghost")) as [->|Hn2].
      * rewrite keyHits_unknown by reflexivity. lia.
      * rewrite lookup_insert_ne, lookup_singleton_ne in Hin by done. done.
Defined.

(** ** [byModel] and the round trip through [find] (C2) *)

Lemma Group_add_in_iff f e g0 g i :
  inMap (Group.map (Group.add f e g0)) g i
  ↔ inMap (Group.map g0) g i ∨ (g = f ∧ i = e).
Proof.
  unfold inMap. rewrite Group_add_lookup. case_decide as Hd.
  - subst. split.
    + intros (ids & [= <-] & [->%elem_of_singleton|Hi]%elem_of_union).
      * by right.
      * left. destruct (Group.map g0 !! f) as [ids|]; [by exists ids|].
        by apply elem_of_empty in Hi.
    + intros [(ids & Hf & Hi)|[_ ->]]; eexists; (split; [done|]);
        apply elem_of_union.
      * right. by rewrite Hf.
      * left. by apply elem_of_singleton.
  - split; [by left|]. intros [?|[? _]]; [done|congruence].
Qed.

Lemma byModelKey_in group e key cm g i :
  inMap (Group.map (byModelKey group e key cm)) g i
  ↔ inMap (Group.map cm) g i
    ∨ (i = e ∧ keyFragments group !! key = Some g ∧ g ≠ "").
Proof.
  unfold byModelKey. destruct (JS.falsy (keyFragments group !! key)) eqn:Hf.
  - split; [by left|]. intros [?|(_ & Hk & Hne)]; [done|].
    assert (JS.falsy (keyFragments group !! key) = false); [|congruence].
    apply falsy_spec. by exists g.
  - apply falsy_spec in Hf as (f & Hk & Hne). rewrite Hk, Group_add_in_iff.
    split; (intros [?|H]; [by left|right]).
    + destruct H as [-> ->]. done.
    + destruct H as (-> & [= ->] & _). done.
Qed.

Lemma byModelKeys_in group e (keys : list Z) :
  ∀ cm g i,
    inMap (Group.map (forEach keys (byModelKey group e) cm)) g i
    ↔ inMap (Group.map cm) g i
      ∨ (i = e ∧ ∃ key, key ∈ keys ∧ keyFragments group !! key = Some g ∧ g ≠ "").
Proof.
  induction keys as [|k keys IH]; intros cm g i.
  - rewrite forEach_nil. split; [by left|].
    intros [?|(_ & ? & H & _)]; [done|]. by apply not_elem_of_nil in H.
  - rewrite forEach_cons, IH, byModelKey_in. split.
    + intros [[?|(-> & ? & ?)]|(-> & key & ? & ? & ?)]; [by left|right..].
      * split; [done|]. exists k. split; [by left|done].
      * split; [done|]. exists key. split; [by right|done].
    + intros [?|(-> & key & [->|?]%elem_of_cons & ? & ?)].
      * by left; left.
      * by left; right.
      * right. split; [done|]. by exists key.
Qed.

Lemma byModelData_in group (d : list (Z * (list Z * list Z))) :
  ∀ cm g i,
    inMap (Group.map
             (forEach d
                (λ '(expressID, d) currentModel,
                   forEach d.1 (byModelKey group expressID) currentModel)
                cm)) g i
    ↔ inMap (Group.map cm) g i
      ∨ (∃ keys rels key, (i, (keys, rels)) ∈ d ∧ key ∈ keys
                          ∧ keyFragments group !! key = Some g ∧ g ≠ "").
Proof.
  induction d as [|[e [keys rels]] d IH]; intros cm g i.
  - rewrite forEach_nil. split; [by left|].
    intros [?|(? & ? & ? & H & _)]; [done|]. by apply not_elem_of_nil in H.
  - rewrite forEach_cons, IH, byModelKeys_in. simpl. split.
    + intros [[?|(-> & key & ? & ? & ?)]|(keys' & rels' & key & ? & ?)];
        [by left|right..].
      * exists keys, rels, key. split; [by left|done].
      * exists keys', rels', key. split; [by right|done].
    + intros [?|(keys' & rels' & key & [[= -> -> ->]|?]%elem_of_cons & ? & ?)].
      * by left; left.
      * left; right. split; [done|]. by exists key.
      * right. by exists keys', rels', key.
Qed.

(** The class of the model after [byModel]: what it had, and the pairs of
    the model. *)
Lemma byModel_class modelID group lst g i :
  inClass (byModel modelID group lst) "models" modelID g i
  ↔ inClass lst "models" modelID g i ∨ modelPair group g i.
Proof.
  unfold byModel, modelPair. cbv zeta.
  assert (Hens : ∀ g i,
            inClass (match lst !! "models" with
                     | None => <["models" := ∅]> lst
                     | Some _ => lst
                     end) "models" modelID g i
            ↔ inClass lst "models" modelID g i).
  { intros g' i'. destruct (lst !! "models") eqn:Hl; [done|]. unfold inClass.
    rewrite lookup_insert_eq, Hl. split.
    - intros (? & ? & [= <-] & Hc & _). by rewrite lookup_empty in Hc.
    - by intros (? & ? & ? & _). }
  assert (Hsome : is_Some (match lst !! "models" with
                           | None => <["models" := ∅]> lst
                           | Some _ => lst
                           end !! "models")).
  { destruct (lst !! "models") eqn:Hl; [by rewrite Hl|].
    rewrite lookup_insert_eq. by eexists. }
  rewrite <-Hens. clear Hens. revert Hsome.
  generalize (match lst !! "models" with
              | None => <["models" := ∅]> lst
              | Some _ => lst
              end). intros lst1 [mc Hmc]. rewrite Hmc.
  unfold inClass at 2. rewrite Hmc.
  destruct (mc !! modelID) as [cm|] eqn:Hcm.
  - rewrite Hcm. unfold inClass. rewrite lookup_insert_eq. split.
    + intros (? & ? & [= <-] & Hc & Hin). rewrite lookup_insert_eq in Hc.
      injection Hc as <-. apply byModelData_in in Hin as [Hin|Hin]; [|by right].
      left. by exists mc, cm.
    + intros Hin. eexists _, _. split; [done|]. rewrite lookup_insert_eq.
      split; [done|]. apply byModelData_in.
      destruct Hin as [(? & ? & [= <-] & Hc & Hin)|Hin]; [|by right].
      left. congruence.
  - rewrite lookup_insert_eq. unfold inClass. rewrite lookup_insert_eq. split.
    + intros (? & ? & [= <-] & Hc & Hin). rewrite lookup_insert_eq in Hc.
      injection Hc as <-. apply byModelData_in in Hin as [Hin|Hin]; [|by right].
      destruct Hin as (? & Hin & _). simpl in Hin.
      by rewrite lookup_empty in Hin.
    + intros Hin. eexists _, _. split; [done|]. rewrite lookup_insert_eq.
      split; [done|]. apply byModelData_in.
      destruct Hin as [(? & ? & [= <-] & Hc & Hin)|Hin]; [congruence|by right].
Qed.

(** A filter with one key and one class returns that class. *)
Lemma find_one_class fragments lst systemName className g i :
  inMap (find fragments lst (Some {[ systemName := [className] ]})) g i
  ↔ inClass lst systemName className g i.
Proof.
  simpl. rewrite findFiltered_counts, map_to_list_singleton, map_size_singleton.
  rewrite totalHits_cons, keyHits_cons. unfold totalHits, keyHits. simpl.
  rewrite <-inClassb_spec. destruct (inClassb _ _ _ _ _); simpl; split;
    try done; try lia.
Qed.

(** C2: from the empty index, [byModel(modelID, group)] followed by
    [find({models: [modelID]})] returns exactly the pairs of the model: the
    pairs (fragID, expressID) with expressID an entity of [group.data] and
    fragID the fragment that one of its geometry keys resolves to in
    [group.keyFragments]. *)
Theorem byModel_find_roundtrip fragments modelID group g i :
  inMap (find fragments (byModel modelID group ∅)
           (Some {[ "models" := [modelID] ]})) g i
  ↔ ∃ keys rels key, (i, (keys, rels)) ∈ data group ∧ key ∈ keys
                     ∧ keyFragments group !! key = Some g ∧ g ≠ "".
Proof.
  rewrite find_one_class, byModel_class. unfold modelPair. split.
  - intros [(? & ? & Hl & _)|?]; [by rewrite lookup_empty in Hl|done].
  - by right.
Qed.

(** ** Loops that can throw *)

Lemma forEachT_throws {A S} (msg : string) (body : A → S → Result S)
    (xs : list A) (x : A) :
  (∀ y st m st', body y st = Thrown m st' → m = msg) →
  (∀ st, ∃ st', body x st = Thrown msg st') →
  x ∈ xs → ∀ st, ∃ st', forEachT xs body st = Thrown msg st'.
Proof.
  intros Honly Hx. induction xs as [|y xs IH]; intros Hin st.
  - by apply not_elem_of_nil in Hin.
  - simpl. destruct (body y st) as [st1|m st1] eqn:Hy.
    + apply elem_of_cons in Hin as [->|Hin]; [|by apply IH].
      destruct (Hx st) as [st' Hst']. congruence.
    + apply Honly in Hy as ->. by exists st1.
Qed.

Lemma forEachT_only {A S} (msg : string) (body : A → S → Result S)
    (xs : list A) :
  (∀ y st m st', body y st = Thrown m st' → m = msg) →
  ∀ st m st', forEachT xs body st = Thrown m st' → m = msg.
Proof.
  intros Honly. induction xs as [|y xs IH]; intros st m st'; [done|].
  simpl. destruct (body y st) as [st1|m1 st1] eqn:Hy.
  - apply IH.
  - intros [= <- <-]. by eapply Honly.
Qed.

(** A loop that returns ran the body of every element; [R] relates the
    state after that body to the final state. *)
Lemma forEachT_Done {A S} (R : S → S → Prop) (body : A → S → Result S) :
  (∀ s, R s s) → (∀ s1 s2 s3, R s1 s2 → R s2 s3 → R s1 s3) →
  (∀ y s s', body y s = Done s' → R s s') →
  ∀ xs st st', forEachT xs body st = Done st' →
    R st st' ∧ ∀ x, x ∈ xs → ∃ s1 s2, body x s1 = Done s2 ∧ R s2 st'.
Proof.
  intros Hrefl Htrans Hbody. induction xs as [|y xs IH]; intros st st'.
  - intros [= <-]. split; [done|]. intros x H. by apply not_elem_of_nil in H.
  - simpl. destruct (body y st) as [st1|m st1] eqn:Hy; [|done].
    intros Hrest. destruct (IH _ _ Hrest) as [HR Hall]. split.
    + eapply Htrans; [by eapply Hbody|done].
    + intros x [->|Hin]%elem_of_cons; [by exists st, st1|by apply Hall].
Qed.

Lemma grows_inMap g g' f e :
  grows g g' → inMap (Group.map g) f e → inMap (Group.map g') f e.
Proof.
  intros Hgr (ids & Hf & He). destruct (Hgr _ _ Hf) as (ids' & Hf' & Hsub).
  exists ids'. split; [done|]. by apply Hsub.
Qed.

Lemma systemGrows_refl system : systemGrows system system.
Proof. intros c g Hc. exists g. split; [done|]. apply grows_refl. Qed.

Lemma systemGrows_trans s1 s2 s3 :
  systemGrows s1 s2 → systemGrows s2 s3 → systemGrows s1 s3.
Proof.
  intros H12 H23 c g Hc. destruct (H12 _ _ Hc) as (g2 & Hc2 & Hg2).
  destruct (H23 _ _ Hc2) as (g3 & Hc3 & Hg3). exists g3. split; [done|].
  by apply grows_trans with g2.
Qed.

(** ** [byPredefinedType] (C8, C9) *)

Lemma unresolved_falsy group key :
  unresolved group key ↔ JS.falsy (keyFragments group !! key) = true.
Proof.
  unfold unresolved. destruct (keyFragments group !! key) as [f|]; simpl.
  - rewrite negb_true_iff, <-not_true_iff_false, truthy_spec. split.
    + intros [?|[= ->]]; [done|]. by intros ?.
    + intros Hf. right. f_equal. by apply dec_stable.
  - split; [done|]. by left.
Qed.

Lemma predefinedKey_unresolved group entity key currentType :
  unresolved group key →
  predefinedKey group entity key currentType
  = Thrown "Fragment ID not found!" currentType.
Proof.
  intros Hu%unresolved_falsy. unfold predefinedKey. by rewrite Hu.
Qed.

Lemma predefinedKey_only group entity key st m st' :
  predefinedKey group entity key st = Thrown m st' →
  m = "Fragment ID not found!".
Proof.
  unfold predefinedKey. destruct (JS.falsy _); [by intros [= <- _]|].
  destruct (keyFragments group !! key); [done|by intros [= <- _]].
Qed.

Lemma predefinedKey_Done group entity key st st' :
  predefinedKey group entity key st = Done st' →
  grows st st'
  ∧ ∀ f, keyFragments group !! key = Some f →
         inMap (Group.map st') f (expressID entity).
Proof.
  unfold predefinedKey. destruct (JS.falsy _); [done|].
  destruct (keyFragments group !! key) as [f|]; [|done].
  intros [= <-]. split; [apply Group_add_grows|].
  intros f' [= <-]. apply Group_add_in.
Qed.

Lemma predefinedData_only group entity st m st' :
  predefinedData group entity st = Thrown m st' →
  m = "Fragment ID not found!".
Proof.
  apply forEachT_only. intros [e d] s m' s'. apply forEachT_only.
  intros. by eapply predefinedKey_only.
Qed.

(** The loop over [group.data] of [byPredefinedType] throws when one of the
    geometry keys is unresolved. *)
Lemma predefinedData_unresolved group entity e keys rels key currentType :
  (e, (keys, rels)) ∈ data group → key ∈ keys → unresolved group key →
  ∃ currentType',
    predefinedData group entity currentType
    = Thrown "Fragment ID not found!" currentType'.
Proof.
  intros He Hkey Hu. unfold predefinedData.
  apply (forEachT_throws _ _ _ (e, (keys, rels))); [|..|done].
  - intros [e' d'] s m s'. apply forEachT_only.
    intros. by eapply predefinedKey_only.
  - intros st. simpl. apply (forEachT_throws _ _ _ key); [|..|done].
    + intros. by eapply predefinedKey_only.
    + intros s. exists s. by apply predefinedKey_unresolved.
Qed.

Lemma predefinedData_Done group entity st st' :
  predefinedData group entity st = Done st' →
  grows st st'
  ∧ ∀ e keys rels key f,
      (e, (keys, rels)) ∈ data group → key ∈ keys →
      keyFragments group !! key = Some f →
      inMap (Group.map st') f (expressID entity).
Proof.
  intros Hdone. unfold predefinedData in Hdone.
  assert (Hkeys : ∀ keys s s',
            forEachT keys (predefinedKey group entity) s = Done s' →
            grows s s'
            ∧ ∀ key, key ∈ keys →
                ∃ s1 s2, predefinedKey group entity key s1 = Done s2
                         ∧ grows s2 s').
  { intros keys. apply forEachT_Done;
      [apply grows_refl|apply grows_trans|].
    intros y s s' H. by apply predefinedKey_Done in H as [? _]. }
  apply (forEachT_Done grows) in Hdone as [Hgr Hall];
    [|apply grows_refl|apply grows_trans|].
  2:{ intros [e d] s s' H. by apply Hkeys in H as [? _]. }
  split; [done|]. intros e keys rels key f He Hkey Hf.
  destruct (Hall _ He) as (s1 & s2 & Hbody & Hgr2). simpl in Hbody.
  apply Hkeys in Hbody as [_ Hbody].
  destruct (Hbody _ Hkey) as (s3 & s4 & Hk & Hgr4).
  apply predefinedKey_Done in Hk as [_ Hk].
  eapply grows_inMap; [done|]. eapply grows_inMap; [done|]. by apply Hk.
Qed.

Lemma predefinedEntity_only group id st m st' :
  predefinedEntity group id st = Thrown m st' →
  m = "Fragment ID not found!".
Proof.
  unfold predefinedEntity. destruct (getProperties group id) as [entity|]; [|done].
  cbv zeta. destruct (_ !! predefinedTypeOf entity) as [ct|]; [|done].
  destruct (predefinedData group entity ct) as [ct'|m' ct'] eqn:Hd; [done|].
  intros [= <- _]. by eapply predefinedData_only.
Qed.

Lemma ensureClass_lookup (system : ClassificationSystem) c parent :
  ∃ g, match system !! c with
       | None => <[c := Group.mk ∅ c parent]> system
       | Some _ => system
       end !! c = Some g.
Proof.
  destruct (system !! c) as [g|] eqn:Hc; [by exists g|].
  rewrite lookup_insert_eq. by eexists.
Qed.

Lemma ensureClass_grows (system : ClassificationSystem) c parent :
  systemGrows system (match system !! c with
                      | None => <[c := Group.mk ∅ c parent]> system
                      | Some _ => system
                      end).
Proof.
  destruct (system !! c) as [g|] eqn:Hc; [apply systemGrows_refl|].
  intros c0 g0 Hc0. assert (c0 ≠ c) by congruence.
  rewrite lookup_insert_ne by done. exists g0. split; [done|].
  apply grows_refl.
Qed.

Lemma predefinedEntity_unresolved group id entity e keys rels key currentTypes :
  getProperties group id = Some entity →
  (e, (keys, rels)) ∈ data group → key ∈ keys → unresolved group key →
  ∃ currentTypes',
    predefinedEntity group id currentTypes
    = Thrown "Fragment ID not found!" currentTypes'.
Proof.
  intros Hprops He Hkey Hu. unfold predefinedEntity. rewrite Hprops. cbv zeta.
  destruct (ensureClass_lookup currentTypes (predefinedTypeOf entity) None)
    as [ct ->].
  destruct (predefinedData_unresolved group entity e keys rels key ct)
    as [ct' ->]; [done..|]. by eexists.
Qed.

Lemma predefinedEntity_Done group id st st' :
  predefinedEntity group id st = Done st' →
  systemGrows st st'
  ∧ ∀ entity e keys rels key f,
      getProperties group id = Some entity →
      (e, (keys, rels)) ∈ data group → key ∈ keys →
      keyFragments group !! key = Some f →
      ∃ g, st' !! predefinedTypeOf entity = Some g
           ∧ inMap (Group.map g) f (expressID entity).
Proof.
  unfold predefinedEntity.
  destruct (getProperties group id) as [entity|].
  2:{ intros [= <-]. split; [apply systemGrows_refl|]. by intros. }
  cbv zeta.
  pose proof (ensureClass_grows st (predefinedTypeOf entity) None) as Hens.
  destruct (ensureClass_lookup st (predefinedTypeOf entity) None) as [ct Hct].
  revert Hens Hct.
  generalize (match st !! predefinedTypeOf entity with
              | None => <[predefinedTypeOf entity :=
                            Group.mk ∅ (predefinedTypeOf entity) None]> st
              | Some _ => st
              end). intros st1 Hens Hct. rewrite Hct.
  destruct (predefinedData group entity ct) as [ct'|m ct'] eqn:Hd; [|done].
  intros [= <-]. apply predefinedData_Done in Hd as [Hgr Hall]. split.
  - eapply systemGrows_trans; [done|]. intros c g Hc.
    destruct (decide (c = predefinedTypeOf entity)) as [->|Hne].
    + rewrite lookup_insert_eq. exists ct'. split; [done|].
      rewrite Hct in Hc. by injection Hc as <-.
    + rewrite lookup_insert_ne by done. exists g. split; [done|].
      apply grows_refl.
  - intros entity' e keys rels key f [= <-] He Hkey Hf.
    exists ct'. rewrite lookup_insert_eq. split; [done|]. by eapply Hall.
Qed.

Lemma byPredefinedType_unresolved group lst id entity e keys rels key :
  id ∈ getAllPropertiesIDs group → getProperties group id = Some entity →
  (e, (keys, rels)) ∈ data group → key ∈ keys → unresolved group key →
  ∃ lst', byPredefinedType group lst = Thrown "Fragment ID not found!" lst'.
Proof.
  intros Hid Hprops He Hkey Hu. unfold byPredefinedType. cbv zeta.
  destruct (_ !! "predefinedTypes") as [currentTypes|] eqn:Hct.
  2:{ exfalso. revert Hct. destruct (lst !! "predefinedTypes") eqn:Hl;
        [by rewrite Hl|by rewrite lookup_insert_eq]. }
  destruct (forEachT_throws "Fragment ID not found!" (predefinedEntity group)
              (getAllPropertiesIDs group) id) with (st := currentTypes)
    as [ct' ->]; [| |done|by eexists].
  - intros. by eapply predefinedEntity_only.
  - intros st. by eapply predefinedEntity_unresolved.
Qed.

Lemma saveItemKey_unresolved group systemName className expressID parentID key lst :
  unresolved group key →
  saveItemKey group systemName className expressID parentID key lst = lst.
Proof. intros Hu%unresolved_falsy. unfold saveItemKey. by rewrite Hu. Qed.

Lemma forEach_ext {A S} (xs : list A) (body1 body2 : A → S → S) st :
  (∀ x s, x ∈ xs → body1 x s = body2 x s) →
  forEach xs body1 st = forEach xs body2 st.
Proof.
  revert st. induction xs as [|x xs IH]; intros st Hext; [done|].
  rewrite !forEach_cons, Hext by (by left). apply IH.
  intros. apply Hext. by right.
Qed.

Lemma forEach_fmap {A B S} (f : A → B) (xs : list A) (body : B → S → S) st :
  forEach (f <$> xs) body st = forEach xs (λ x, body (f x)) st.
Proof.
  revert st. induction xs as [|x xs IH]; intros st; [done|].
  rewrite fmap_cons, !forEach_cons. apply IH.
Qed.

(** The loop of [saveItem] over the geometry keys passes an unresolved key
    by. *)
Lemma saveItemKeys_skip group systemName className expressID parentID key keys :
  unresolved group key →
  ∀ lst,
    forEach keys (saveItemKey group systemName className expressID parentID) lst
    = forEach (filter (λ k, k ≠ key) keys)
        (saveItemKey group systemName className expressID parentID) lst.
Proof.
  intros Hu. induction keys as [|k keys IH]; intros lst; [done|].
  rewrite filter_cons, forEach_cons. destruct (decide (k ≠ key)) as [Hne|He].
  - rewrite forEach_cons. apply IH.
  - apply dec_stable in He as ->. rewrite saveItemKey_unresolved by done.
    apply IH.
Qed.

Lemma data_get_dropKey key d e :
  data_get ((λ '(e, (keys, rels)), (e, (filter (λ k, k ≠ key) keys, rels))) <$> d) e
  = (λ '(keys, rels), (filter (λ k, k ≠ key) keys, rels)) <$> data_get d e.
Proof.
  induction d as [|[e' [keys rels]] d IH]; [done|].
  rewrite fmap_cons. simpl. by destruct (Z.eqb e' e).
Qed.

(** For [saveItem] the model could as well not have the unresolved key. *)
Lemma saveItem_dropKey group key systemName className expressID parentID lst :
  unresolved group key →
  saveItem group systemName className expressID parentID lst
  = saveItem (dropKey key group) systemName className expressID parentID lst.
Proof.
  intros Hu. unfold saveItem. simpl. rewrite data_get_dropKey.
  destruct (data_get (data group) expressID) as [[keys rels]|]; [|done].
  simpl. by rewrite (saveItemKeys_skip _ _ _ _ _ key).
Qed.

Lemma byEntity_dropKey table group key lst :
  unresolved group key →
  byEntity table group lst = byEntity table (dropKey key group) lst.
Proof.
  intros Hu. unfold byEntity. cbv zeta. simpl. rewrite forEach_fmap.
  apply forEach_ext. intros [e [keys rels]] s _. simpl.
  by apply saveItem_dropKey.
Qed.

Lemma byIfcRel_dropKey isRel relMap names group key ifcRel systemName lst :
  unresolved group key →
  byIfcRel isRel relMap names group ifcRel systemName lst
  = byIfcRel isRel relMap names (dropKey key group) ifcRel systemName lst.
Proof.
  intros Hu. unfold byIfcRel. destruct (negb (isRel ifcRel)); [done|].
  apply forEach_ext. intros [relatingID relatedIDs] s _.
  apply forEach_ext. intros expressID s' _. by apply saveItem_dropKey.
Qed.

Lemma bySpatialStructure_dropKey indexer model key config lst :
  unresolved model key →
  bySpatialStructure indexer model config lst
  = bySpatialStructure indexer (dropKey key model) config lst.
Proof.
  intros Hu. unfold bySpatialStructure. simpl.
  destruct (relationMaps indexer) as [modelRelations|]; [|done]. f_equal.
  apply forEach_ext. intros expressID s _. unfold spatialEntity. cbv zeta.
  assert (isolated (dropKey key model) config expressID
          = isolated model config expressID) as ->.
  { unfold isolated. simpl. rewrite data_get_dropKey.
    destruct (isolate config); [|done].
    by destruct (data_get (data model) expressID) as [[keys rels]|]. }
  destruct (isolated model config expressID); [done|].
  assert (∀ s0,
            match getEntityRelations indexer expressID "Decomposes" with
            | Some spatialRels =>
                forEach spatialRels
                  (spatialParent model (default true (useProperties config))
                     expressID) s0
            | None => s0
            end
            = match getEntityRelations indexer expressID "Decomposes" with
              | Some spatialRels =>
                  forEach spatialRels
                    (spatialParent (dropKey key model)
                       (default true (useProperties config)) expressID) s0
              | None => s0
              end) as ->.
  { intros s0. destruct (getEntityRelations indexer expressID "Decomposes");
      [|done].
    apply forEach_ext. intros id s1 _. unfold spatialParent. simpl.
    destruct (default true (useProperties config));
      [destruct (getProperties model id)|]; try done;
      by apply saveItem_dropKey. }
  destruct (getEntityRelations indexer expressID "ContainsElements"); [|done].
  change (containerName (dropKey key model)) with (containerName model).
  destruct (containerName model _ expressID) as [relName|]; [|done].
  apply forEach_ext. intros id s1 _. unfold spatialChild.
  rewrite <-(saveItem_dropKey model key) by done.
  destruct (getEntityRelations indexer id "IsDecomposedBy"); [|done].
  apply forEach_ext. intros part s2 _. by apply saveItem_dropKey.
Qed.

Lemma forEachT_total {A S} (body : A → S → Result S) (xs : list A) :
  (∀ x st, x ∈ xs → ∃ st', body x st = Done st') →
  ∀ st, ∃ st', forEachT xs body st = Done st'.
Proof.
  induction xs as [|x xs IH]; intros Hbody st; [by exists st|].
  simpl. destruct (Hbody x st) as [st1 ->]; [by left|].
  apply IH. intros. apply Hbody. by right.
Qed.

Lemma byPredefinedType_without_properties group lst :
  (∀ id, id ∈ getAllPropertiesIDs group → getProperties group id = None) →
  ∃ lst', byPredefinedType group lst = Done lst'.
Proof.
  intros Hnone. unfold byPredefinedType. cbv zeta.
  destruct (_ !! "predefinedTypes") as [currentTypes|]; [|by eexists].
  destruct (forEachT_total (predefinedEntity group) (getAllPropertiesIDs group))
    with (st := currentTypes) as [ct ->]; [|by eexists].
  intros id st Hid. unfold predefinedEntity. rewrite (Hnone id Hid).
  by eexists.
Qed.

(** C8 (counterexample): key 10 of entity 1 resolves to no fragment, and
    [byPredefinedType] returns: no entity of the model has properties, so
    the method never comes to the key. *)
Lemma unresolved_key_without_properties_returns :
  unresolved noProperties 10
  ∧ (1, ([10], [0; 10])) ∈ data noProperties
  ∧ byPredefinedType noProperties ∅ = Done {[ "predefinedTypes" := ∅ ]}.
Proof.
  split; [by left|]. split; [by left|]. vm_compute. reflexivity.
Qed.

(** C8 (amended): for a geometry key that resolves to no fragment
    identifier, the resolution step of [byPredefinedType] throws, and so
    does the method when it comes to the key, that is when some entity has
    properties and the key is one of the geometry keys of [group.data];
    when no entity has properties the method returns.  The resolution step
    of [saveItem] returns the index untouched, and [saveItem], [byEntity],
    [byIfcRel] and [bySpatialStructure] leave the index that they leave for
    the model without that key. *)
Theorem unresolved_key_thrown_or_skipped group key :
  unresolved group key →
  (∀ entity currentType,
     predefinedKey group entity key currentType
     = Thrown "Fragment ID not found!" currentType)
  ∧ (∀ lst id entity e keys rels,
       id ∈ getAllPropertiesIDs group → getProperties group id = Some entity →
       (e, (keys, rels)) ∈ data group → key ∈ keys →
       ∃ lst', byPredefinedType group lst = Thrown "Fragment ID not found!" lst')
  ∧ (∀ lst,
       (∀ id, id ∈ getAllPropertiesIDs group → getProperties group id = None) →
       ∃ lst', byPredefinedType group lst = Done lst')
  ∧ (∀ systemName className expressID parentID lst,
       saveItemKey group systemName className expressID parentID key lst = lst)
  ∧ (∀ systemName className expressID parentID lst,
       saveItem group systemName className expressID parentID lst
       = saveItem (dropKey key group) systemName className expressID parentID lst)
  ∧ (∀ table lst, byEntity table group lst = byEntity table (dropKey key group) lst)
  ∧ (∀ isRel relMap names ifcRel systemName lst,
       byIfcRel isRel relMap names group ifcRel systemName lst
       = byIfcRel isRel relMap names (dropKey key group) ifcRel systemName lst)
  ∧ (∀ indexer config lst,
       bySpatialStructure indexer group config lst
       = bySpatialStructure indexer (dropKey key group) config lst).
Proof.
  intros Hu. repeat split; intros.
  - by apply predefinedKey_unresolved.
  - by eapply byPredefinedType_unresolved.
  - by apply byPredefinedType_without_properties.
  - by apply saveItemKey_unresolved.
  - by apply saveItem_dropKey.
  - by apply byEntity_dropKey.
  - by apply byIfcRel_dropKey.
  - by apply bySpatialStructure_dropKey.
Qed.

Lemma unresolved_key_thrown_or_skipped_witness :
  unresolved halfResolved 10
  ∧ (∃ lst', byPredefinedType halfResolved ∅
             = Thrown "Fragment ID not found!" lst')
  ∧ saveItemKey halfResolved "entities" "IFCBEAM" 1 None 10 wallIndex = wallIndex.
Proof.
  assert (Hu : unresolved halfResolved 10) by (left; reflexivity).
  destruct (unresolved_key_thrown_or_skipped halfResolved 10 Hu)
    as (_ & Hthrow & _ & Hskip & _).
  split; [exact Hu|]. split; [|apply Hskip].
  apply (Hthrow ∅ 1 (mkEntity 1 (Some "beam") (Some "B1")) 1 [10] [0; 10]).
  - by left.
  - reflexivity.
  - by left.
  - by left.
Defined.

(** [byPredefinedType] returns when every geometry key of [group.data]
    resolves. *)
Lemma byPredefinedType_completes group lst :
  (∀ e keys rels key, (e, (keys, rels)) ∈ data group → key ∈ keys →
                      ¬ unresolved group key) →
  ∃ lst', byPredefinedType group lst = Done lst'.
Proof.
  intros Hres. unfold byPredefinedType. cbv zeta.
  destruct (_ !! "predefinedTypes") as [currentTypes|]; [|by eexists].
  destruct (forEachT_total (predefinedEntity group) (getAllPropertiesIDs group))
    with (st := currentTypes) as [ct' ->]; [|by eexists].
  intros id st _. unfold predefinedEntity.
  destruct (getProperties group id) as [entity|]; [|by eexists]. cbv zeta.
  destruct (_ !! predefinedTypeOf entity) as [ct|]; [|by eexists].
  destruct (forEachT_total
              (λ '(_, d) currentType,
                 forEachT d.1 (predefinedKey group entity) currentType)
              (data group)) with (st := ct) as [ct1 Hct1].
  - intros [e [keys rels]] s He. simpl. apply forEachT_total.
    intros key s' Hkey. unfold predefinedKey.
    pose proof (Hres _ _ _ _ He Hkey) as Hu. rewrite unresolved_falsy in Hu.
    apply not_true_is_false in Hu. rewrite Hu.
    apply falsy_spec in Hu as (f & -> & _). by eexists.
  - unfold predefinedData. rewrite Hct1. by eexists.
Qed.

(** ** Each entity against all fragments of the model (C9) *)

(** C9 (counterexample): entity 1 has properties, but key 10 of the first
    entity of [group.data] resolves to nothing: [byPredefinedType] throws
    there, and entity 1 is not recorded against [frag-2], the fragment that
    key 20 of entity 2 resolves to. *)
Lemma byPredefinedType_throw_leaves_fragments :
  getProperties halfResolved 1 = Some (mkEntity 1 (Some "beam") (Some "B1"))
  ∧ (2, ([20], [0; 10])) ∈ data halfResolved
  ∧ keyFragments halfResolved !! 20 = Some "frag-2"
  ∧ byPredefinedType halfResolved ∅
    = Thrown "Fragment ID not found!"
        {[ "predefinedTypes" := {[ "BEAM" := Group.mk ∅ "BEAM" None ]} ]}
  ∧ ¬ inClass (indexOf (byPredefinedType halfResolved ∅))
        "predefinedTypes" "BEAM" "frag-2" 1.
Proof.
  split; [reflexivity|]. split; [by right; left|]. split; [reflexivity|].
  split; [by vm_compute|]. rewrite <-inClassb_spec. by vm_compute.
Qed.

Lemma byPredefinedType_Done group lst lst' id entity e keys rels key f :
  byPredefinedType group lst = Done lst' →
  id ∈ getAllPropertiesIDs group → getProperties group id = Some entity →
  (e, (keys, rels)) ∈ data group → key ∈ keys →
  keyFragments group !! key = Some f →
  inClass lst' "predefinedTypes" (predefinedTypeOf entity) f (expressID entity).
Proof.
  unfold byPredefinedType. cbv zeta.
  destruct (_ !! "predefinedTypes") as [currentTypes|] eqn:Hct.
  2:{ exfalso. revert Hct. destruct (lst !! "predefinedTypes") eqn:Hl;
        [by rewrite Hl|by rewrite lookup_insert_eq]. }
  destruct (forEachT _ _ currentTypes) as [ct'|m ct'] eqn:Hloop; [|done].
  intros [= <-] Hid Hprops He Hkey Hf.
  apply (forEachT_Done systemGrows) in Hloop as [_ Hall];
    [|apply systemGrows_refl|apply systemGrows_trans|].
  2:{ intros y s s' H. by apply predefinedEntity_Done in H as [? _]. }
  destruct (Hall _ Hid) as (s1 & s2 & Hbody & Hgr).
  apply predefinedEntity_Done in Hbody as [_ Hbody].
  destruct (Hbody _ _ _ _ _ _ Hprops He Hkey Hf) as (g & Hg & Hin).
  destruct (Hgr _ _ Hg) as (g' & Hg' & Hgr').
  exists ct', g'. rewrite lookup_insert_eq. repeat split; try done.
  by eapply grows_inMap.
Qed.

(** C9 (amended): [byPredefinedType] returns without throwing when every
    geometry key of [group.data] resolves; and whenever it returns without
    throwing, every entity E whose [getProperties] lookup succeeds has its
    expressID, under the class of its predefined type, in the set of every
    fragment that a geometry key of any entity of [group.data] resolves
    to. *)
Theorem byPredefinedType_all_fragments group lst :
  ((∀ e keys rels key, (e, (keys, rels)) ∈ data group → key ∈ keys →
                       ¬ unresolved group key) →
   ∃ lst', byPredefinedType group lst = Done lst')
  ∧ (∀ lst' id entity e keys rels key f,
       byPredefinedType group lst = Done lst' →
       id ∈ getAllPropertiesIDs group → getProperties group id = Some entity →
       (e, (keys, rels)) ∈ data group → key ∈ keys →
       keyFragments group !! key = Some f →
       inClass lst' "predefinedTypes" (predefinedTypeOf entity) f
         (expressID entity)).
Proof.
  split.
  - apply byPredefinedType_completes.
  - intros. by eapply byPredefinedType_Done.
Qed.

Lemma byPredefinedType_all_fragments_witness :
  byPredefinedType oneWall ∅
  = Done {[ "predefinedTypes" :=
              {[ "STANDARD" := Group.mk {[ "frag-1" := {[ 7 ]} ]} "STANDARD" None ]} ]}
  ∧ inClass {[ "predefinedTypes" :=
                 {[ "STANDARD" := Group.mk {[ "frag-1" := {[ 7 ]} ]} "STANDARD" None ]} ]}
      "predefinedTypes" "STANDARD" "frag-1" 7.
Proof.
  assert (Hrun : byPredefinedType oneWall ∅
            = Done {[ "predefinedTypes" :=
                        {[ "STANDARD" :=
                             Group.mk {[ "frag-1" := {[ 7 ]} ]} "STANDARD" None ]} ]})
    by (vm_compute; reflexivity).
  split; [exact Hrun|].
  apply (proj2 (byPredefinedType_all_fragments oneWall ∅) _ 7
           (mkEntity 7 (Some "standard") (Some "W1")) 7 [70] [0; 10] 70 "frag-1"
           Hrun).
  - by left.
  - reflexivity.
  - by left.
  - by left.
  - reflexivity.
Defined.

(** ** Spatial structure (C7) *)

Lemma data_get_Some d e v : data_get d e = Some v → (e, v) ∈ d.
Proof.
  induction d as [|[e' v'] d IH]; [done|]. simpl.
  destruct (Z.eqb_spec e' e) as [->|Hne].
  - intros [= ->]. by left.
  - intros H. right. by apply IH.
Qed.

(** Each element of a loop of insertions is handled in a state that
    extends the initial one, and the final state extends what its body
    leaves. *)
Lemma forEach_reach {A} (xs : list A)
    (body : A → ClassificationList → ClassificationList) x :
  (∀ y st, extends st (body y st)) → x ∈ xs →
  ∀ lst, ∃ st, extends lst st ∧ extends (body x st) (forEach xs body lst).
Proof.
  intros Hbody. induction xs as [|y xs IH]; intros Hin lst.
  - by apply not_elem_of_nil in Hin.
  - rewrite forEach_cons. apply elem_of_cons in Hin as [->|Hin].
    + exists lst. split; [apply extends_refl|]. by apply forEach_extends.
    + destruct (IH Hin (body y lst)) as (st & Hst & Hfin). exists st.
      split; [|done]. eapply extends_trans; [apply Hbody|done].
Qed.

Lemma saveItemKey_in group systemName className expressID parentID key f
    (lst : ClassificationList) :
  is_Some (lst !! systemName) →
  keyFragments group !! key = Some f → f ≠ "" →
  inClass (saveItemKey group systemName className expressID parentID key lst)
    systemName className f expressID.
Proof.
  intros [system Hs] Hf Hne. unfold saveItemKey.
  assert (JS.falsy (keyFragments group !! key) = false) as ->
    by (apply falsy_spec; by exists f).
  rewrite Hf, Hs.
  destruct (ensureClass_lookup system className parentID) as [g Hg].
  rewrite Hg. eexists _, _. rewrite lookup_insert_eq. split; [done|].
  rewrite lookup_insert_eq. split; [done|]. apply Group_add_in.
Qed.

(** [saveItem] records the entity against every fragment that one of its
    geometry keys resolves to. *)
Lemma saveItem_in group systemName className expressID parentID lst
    keys rels key f :
  data_get (data group) expressID = Some (keys, rels) → key ∈ keys →
  keyFragments group !! key = Some f → f ≠ "" →
  inClass (saveItem group systemName className expressID parentID lst)
    systemName className f expressID.
Proof.
  intros Hdata Hkey Hf Hne. unfold saveItem. rewrite Hdata. simpl.
  assert (Hsome : is_Some (match lst !! systemName with
                           | None => <[systemName := ∅]> lst
                           | Some _ => lst
                           end !! systemName)).
  { destruct (lst !! systemName) eqn:Hl; [by rewrite Hl|].
    rewrite lookup_insert_eq. by eexists. }
  revert Hsome.
  generalize (match lst !! systemName with
              | None => <[systemName := ∅]> lst
              | Some _ => lst
              end). intros lst1 [system Hsys].
  destruct (forEach_reach keys
              (saveItemKey group systemName className expressID parentID) key)
    with (lst := lst1) as (st & Hst & Hfin); [|done|].
  { intros. apply saveItemKey_extends. }
  eapply extends_inClass; [exact Hfin|]. apply saveItemKey_in; [|done..].
  destruct (Hst _ _ Hsys) as (system' & -> & _). by eexists.
Qed.

Create HintDb insertions discriminated.
#[local] Hint Resolve extends_refl saveItem_extends forEach_extends : insertions.

Lemma spatialChild_extends indexer model relName expressID id lst :
  extends lst (spatialChild indexer model relName expressID id lst).
Proof.
  unfold spatialChild. eapply extends_trans; [apply saveItem_extends|].
  destruct (getEntityRelations indexer id "IsDecomposedBy");
    auto with insertions.
Qed.

Lemma spatialParent_extends model useProps expressID id lst :
  extends lst (spatialParent model useProps expressID id lst).
Proof.
  unfold spatialParent. destruct useProps; [|auto with insertions].
  destruct (getProperties model id); auto with insertions.
Qed.

Lemma spatialEntity_extends indexer model config expressID lst :
  extends lst (spatialEntity indexer model config expressID lst).
Proof.
  unfold spatialEntity. cbv zeta.
  destruct (isolated model config expressID); [apply extends_refl|].
  eapply extends_trans.
  { instantiate (1 := match getEntityRelations indexer expressID "Decomposes" with
                      | Some spatialRels =>
                          forEach spatialRels
                            (spatialParent model
                               (default true (useProperties config)) expressID)
                            lst
                      | None => lst
                      end).
    destruct (getEntityRelations indexer expressID "Decomposes");
      [|apply extends_refl].
    apply forEach_extends. intros. apply spatialParent_extends. }
  destruct (getEntityRelations indexer expressID "ContainsElements");
    [|apply extends_refl].
  destruct (containerName model _ expressID); [|apply extends_refl].
  apply forEach_extends. intros. apply spatialChild_extends.
Qed.

(** The nested pass: a part of a contained element, when it has geometry,
    is recorded in the class of the container. *)
Lemma spatialChild_nested indexer model relName expressID id lst
    parts part keys rels key f :
  getEntityRelations indexer id "IsDecomposedBy" = Some parts → part ∈ parts →
  data_get (data model) part = Some (keys, rels) → key ∈ keys →
  keyFragments model !! key = Some f → f ≠ "" →
  inClass (spatialChild indexer model relName expressID id lst)
    spatialSystem relName f part.
Proof.
  intros Hparts Hpart Hdata Hkey Hf Hne. unfold spatialChild. rewrite Hparts.
  destruct (forEach_reach parts
              (λ decomposedID lst,
                 saveItem model spatialSystem relName decomposedID
                   (Some expressID) lst) part)
    with (lst := saveItem model spatialSystem relName id (Some expressID) lst)
    as (st & _ & Hfin); [|done|].
  { intros. apply saveItem_extends. }
  eapply extends_inClass; [exact Hfin|]. by eapply saveItem_in.
Qed.

Lemma spatialEntity_nested indexer model config container lst
    contained element relName parts part keys rels key f :
  isolated model config container = false →
  getEntityRelations indexer container "ContainsElements" = Some contained →
  element ∈ contained →
  containerName model (default true (useProperties config)) container
  = Some relName →
  getEntityRelations indexer element "IsDecomposedBy" = Some parts →
  part ∈ parts →
  data_get (data model) part = Some (keys, rels) → key ∈ keys →
  keyFragments model !! key = Some f → f ≠ "" →
  inClass (spatialEntity indexer model config container lst)
    spatialSystem relName f part.
Proof.
  intros Hiso Hrels Hel Hname Hparts Hpart Hdata Hkey Hf Hne.
  unfold spatialEntity. cbv zeta. rewrite Hiso, Hrels, Hname.
  match goal with
  | |- inClass (forEach _ _ ?l) _ _ _ _ => generalize l
  end. intros lst1.
  destruct (forEach_reach contained
              (spatialChild indexer model relName container) element)
    with (lst := lst1) as (st & _ & Hfin); [|done|].
  { intros. apply spatialChild_extends. }
  eapply extends_inClass; [exact Hfin|]. by eapply spatialChild_nested.
Qed.

(** C7 (counterexample): the storey Level 3 contains the curtain wall 200,
    which is decomposed into the parts 300 and 301.  Part 300 has no
    geometry: after [bySpatialStructure] it is in no fragment of the class
    Level 3 (part 301, which has geometry, is). *)
Lemma part_without_geometry_not_classified :
  bySpatialStructure towerRelations tower (mkConfig None None) ∅
  = Done towerClassified
  ∧ getEntityRelations towerRelations 100 "ContainsElements" = Some [200]
  ∧ containerName tower true 100 = Some "Level 3"
  ∧ getEntityRelations towerRelations 200 "IsDecomposedBy" = Some [300; 301]
  ∧ data_get (data tower) 300 = None
  ∧ (∀ f, ¬ inClass towerClassified "spatialStructures" "Level 3" f 300)
  ∧ inClass towerClassified "spatialStructures" "Level 3" "frag-panel" 301.
Proof.
  split; [by vm_compute|]. do 4 (split; [reflexivity|]). split.
  - intros f (system & g & Hs & Hc & ids & Hf & Hin).
    unfold towerClassified in Hs. apply lookup_singleton_Some in Hs as [_ <-].
    apply lookup_singleton_Some in Hc as [_ <-]. simpl in Hf.
    apply lookup_insert_Some in Hf as [[_ <-]|[_ Hf]].
    + by apply elem_of_singleton in Hin.
    + apply lookup_singleton_Some in Hf as [_ <-].
      by apply elem_of_singleton in Hin.
  - apply inClassb_spec. by vm_compute.
Qed.

(** C7 (amended): after [bySpatialStructure(model, config)] has completed,
    for every container C (not skipped by [isolate]) whose class name is N
    and whose ContainsElements relation has the element E, every part D of
    E by IsDecomposedBy that has geometry is in the class N of the system
    spatialStructures, under each fragment that one of its geometry keys
    resolves to. *)
Theorem bySpatialStructure_nested indexer model config lst lst'
    modelRelations container contained element relName parts part
    keys rels key f :
  bySpatialStructure indexer model config lst = Done lst' →
  relationMaps indexer = Some modelRelations → container ∈ modelRelations →
  isolated model config container = false →
  getEntityRelations indexer container "ContainsElements" = Some contained →
  element ∈ contained →
  containerName model (default true (useProperties config)) container
  = Some relName →
  getEntityRelations indexer element "IsDecomposedBy" = Some parts →
  part ∈ parts →
  data_get (data model) part = Some (keys, rels) → key ∈ keys →
  keyFragments model !! key = Some f → f ≠ "" →
  inClass lst' "spatialStructures" relName f part.
Proof.
  intros Hrun Hmaps Hcont Hiso Hrels Hel Hname Hparts Hpart Hdata Hkey Hf Hne.
  unfold bySpatialStructure in Hrun. rewrite Hmaps in Hrun.
  injection Hrun as <-.
  destruct (forEach_reach modelRelations (spatialEntity indexer model config)
              container) with (lst := lst) as (st & _ & Hfin); [|done|].
  { intros. apply spatialEntity_extends. }
  eapply extends_inClass; [exact Hfin|]. by eapply spatialEntity_nested.
Qed.

Lemma bySpatialStructure_nested_witness :
  inClass towerClassified "spatialStructures" "Level 3" "frag-panel" 301.
Proof.
  apply (bySpatialStructure_nested towerRelations tower (mkConfig None None)
           ∅ towerClassified [100; 200] 100 [200] 200 "Level 3" [300; 301] 301
           [31] [0; 2] 31 "frag-panel").
  - vm_compute. reflexivity.
  - reflexivity.
  - by left.
  - reflexivity.
  - reflexivity.
  - by left.
  - reflexivity.
  - reflexivity.
  - by right; left.
  - reflexivity.
  - by left.
  - reflexivity.
  - discriminate.
Defined.

(** * Further properties of the classifier *)

(** ** [saveItem], class by class *)

Lemma classOf_Some (lst : ClassificationList) s c g :
  classOf lst s c = Some g
  ↔ ∃ system, lst !! s = Some system ∧ system !! c = Some g.
Proof.
  unfold classOf. destruct (lst !! s) as [system|]; simpl.
  - split; [by exists system|]. by intros (? & [= <-] & ?).
  - split; [done|]. by intros (? & ? & _).
Qed.

Lemma inClass_classOf lst s c f i :
  inClass lst s c f i ↔ ∃ g, classOf lst s c = Some g ∧ inMap (Group.map g) f i.
Proof.
  unfold inClass. split.
  - intros (system & g & Hs & Hc & Hin). exists g. split; [|done].
    apply classOf_Some. by exists system.
  - intros (g & (system & Hs & Hc)%classOf_Some & Hin). by exists system, g.
Qed.

(** Two indexes with the same systems apart from [s], where both have a
    system with the same classes, are equal. *)
Lemma index_eq (l1 l2 : ClassificationList) s :
  (∀ s', s' ≠ s → l1 !! s' = l2 !! s') →
  is_Some (l1 !! s) → is_Some (l2 !! s) →
  (∀ c, classOf l1 s c = classOf l2 s c) → l1 = l2.
Proof.
  intros Hother [sys1 H1] [sys2 H2] Hclass. apply map_eq. intros s'.
  destruct (decide (s' = s)) as [->|Hne]; [|by apply Hother].
  rewrite H1, H2. f_equal. apply map_eq. intros c.
  specialize (Hclass c). unfold classOf in Hclass. by rewrite H1, H2 in Hclass.
Qed.

Lemma saveItemKey_other_system group s c e p key (lst : ClassificationList) s' :
  s' ≠ s → saveItemKey group s c e p key lst !! s' = lst !! s'.
Proof.
  intros Hne. unfold saveItemKey. repeat case_match; try done;
    by rewrite lookup_insert_ne.
Qed.

Lemma saveItemKey_system group s c e p key (lst : ClassificationList) :
  is_Some (lst !! s) → is_Some (saveItemKey group s c e p key lst !! s).
Proof.
  intros Hs. unfold saveItemKey. repeat case_match; try done;
    rewrite lookup_insert_eq; by eexists.
Qed.

Lemma saveItemKey_class group s c e p key (lst : ClassificationList) c' :
  is_Some (lst !! s) →
  classOf (saveItemKey group s c e p key lst) s c'
  = if decide (c' = c) then saveKeyInClass group c e p key (classOf lst s c)
    else classOf lst s c'.
Proof.
  intros [system Hs]. unfold saveItemKey, saveKeyInClass, JS.falsy.
  destruct (keyFragments group !! key) as [f|]; simpl; [|by case_decide; subst].
  destruct (JS.truthy f); simpl; [|by case_decide; subst].
  unfold classOf at 2 3. rewrite Hs. simpl.
  destruct (system !! c) as [g|] eqn:Hc.
  - rewrite Hc. unfold classOf. rewrite lookup_insert_eq. simpl.
    case_decide as Hd.
    + subst. by rewrite lookup_insert_eq.
    + by rewrite lookup_insert_ne.
  - rewrite lookup_insert_eq. unfold classOf. rewrite lookup_insert_eq. simpl.
    case_decide as Hd.
    + subst. by rewrite lookup_insert_eq.
    + by rewrite !lookup_insert_ne.
Qed.

Lemma saveItemKeys_other_system group s c e p (keys : list Z) :
  ∀ (lst : ClassificationList) s', s' ≠ s →
    forEach keys (saveItemKey group s c e p) lst !! s' = lst !! s'.
Proof.
  induction keys as [|k keys IH]; intros lst s' Hne; [done|].
  rewrite forEach_cons, IH by done. by apply saveItemKey_other_system.
Qed.

Lemma saveItemKeys_system group s c e p (keys : list Z) :
  ∀ lst : ClassificationList, is_Some (lst !! s) →
    is_Some (forEach keys (saveItemKey group s c e p) lst !! s).
Proof.
  induction keys as [|k keys IH]; intros lst Hs; [done|].
  rewrite forEach_cons. by apply IH, saveItemKey_system.
Qed.

Lemma saveItemKeys_class group s c e p (keys : list Z) :
  ∀ (lst : ClassificationList) c', is_Some (lst !! s) →
    classOf (forEach keys (saveItemKey group s c e p) lst) s c'
    = if decide (c' = c)
      then forEach keys (saveKeyInClass group c e p) (classOf lst s c)
      else classOf lst s c'.
Proof.
  induction keys as [|k keys IH]; intros lst c' Hs.
  - rewrite !forEach_nil. by case_decide; subst.
  - rewrite !forEach_cons, IH by (by apply saveItemKey_system).
    rewrite !saveItemKey_class by done. case_decide as Hd; [|done].
    by rewrite decide_True.
Qed.

Lemma ensureSystem_other (lst : ClassificationList) s s' :
  s' ≠ s →
  match lst !! s with
  | None => <[s := ∅]> lst
  | Some _ => lst
  end !! s' = lst !! s'.
Proof. intros Hne. destruct (lst !! s); [done|]. by rewrite lookup_insert_ne. Qed.

Lemma ensureSystem_Some (lst : ClassificationList) s :
  is_Some (match lst !! s with
           | None => <[s := ∅]> lst
           | Some _ => lst
           end !! s).
Proof.
  destruct (lst !! s) eqn:Hs; [by rewrite Hs|].
  rewrite lookup_insert_eq. by eexists.
Qed.

Lemma ensureSystem_class (lst : ClassificationList) s s' c :
  classOf (match lst !! s with
           | None => <[s := ∅]> lst
           | Some _ => lst
           end) s' c = classOf lst s' c.
Proof.
  destruct (lst !! s) eqn:Hs; [done|]. unfold classOf.
  destruct (decide (s' = s)) as [->|Hne].
  - by rewrite lookup_insert_eq, Hs.
  - by rewrite lookup_insert_ne.
Qed.

(** The keys that [saveItem] goes through. *)
Lemma saveItem_other_system group s c e p (lst : ClassificationList) s' :
  s' ≠ s → saveItem group s c e p lst !! s' = lst !! s'.
Proof.
  intros Hne. unfold saveItem.
  destruct (data_get (data group) e) as [keys|].
  - rewrite saveItemKeys_other_system by done. by apply ensureSystem_other.
  - by apply ensureSystem_other.
Qed.

Lemma saveItem_system group s c e p (lst : ClassificationList) :
  is_Some (saveItem group s c e p lst !! s).
Proof.
  unfold saveItem. destruct (data_get (data group) e) as [keys|].
  - apply saveItemKeys_system, ensureSystem_Some.
  - apply ensureSystem_Some.
Qed.

Lemma saveItem_class group s c e p (lst : ClassificationList) c' :
  classOf (saveItem group s c e p lst) s c'
  = if decide (c' = c)
    then forEach (default [] (fst <$> data_get (data group) e))
           (saveKeyInClass group c e p) (classOf lst s c)
    else classOf lst s c'.
Proof.
  unfold saveItem. destruct (data_get (data group) e) as [[keys rels]|]; simpl.
  - rewrite saveItemKeys_class by apply ensureSystem_Some.
    by rewrite !ensureSystem_class.
  - rewrite ensureSystem_class. by case_decide; subst.
Qed.

Lemma saveKeyInClass_Some group c e p key g :
  ∃ g', saveKeyInClass group c e p key (Some g) = Some g'
        ∧ Group.name g' = Group.name g ∧ Group.id g' = Group.id g
        ∧ grows g g'.
Proof.
  unfold saveKeyInClass. destruct (keyFragments group !! key) as [f|].
  - destruct (JS.truthy f); simpl.
    + eexists. split; [done|]. destruct (Group_add_name f e g) as [-> ->].
      repeat split. apply Group_add_grows.
    + exists g. repeat split. apply grows_refl.
  - exists g. repeat split. apply grows_refl.
Qed.

Lemma saveKeyInClass_pairs group c e p key o f i :
  (∃ g, saveKeyInClass group c e p key o = Some g ∧ inMap (Group.map g) f i)
  ↔ (∃ g, o = Some g ∧ inMap (Group.map g) f i)
    ∨ (i = e ∧ keyFragments group !! key = Some f ∧ f ≠ "").
Proof.
  unfold saveKeyInClass. destruct (keyFragments group !! key) as [f0|] eqn:Hk.
  2:{ split; [by left|]. by intros [?|(_ & ? & _)]. }
  destruct (JS.truthy f0) eqn:Ht.
  2:{ split; [by left|]. intros [?|(_ & [= ->] & Hne)]; [done|].
      apply truthy_spec in Hne. congruence. }
  apply truthy_spec in Ht. split.
  - intros (g & [= <-] & Hin). apply Group_add_in_iff in Hin as [Hin|[-> ->]].
    + left. destruct o as [g0|]; [by exists g0|].
      destruct Hin as (ids & Hl & _). simpl in Hl. by rewrite lookup_empty in Hl.
    + by right.
  - intros [(g & -> & Hin)|(-> & [= ->] & _)]; eexists; (split; [done|]);
      apply Group_add_in_iff; [by left|by right].
Qed.

Lemma saveKeysInClass_Some group c e p (keys : list Z) :
  ∀ g, ∃ g', forEach keys (saveKeyInClass group c e p) (Some g) = Some g'
             ∧ Group.name g' = Group.name g ∧ Group.id g' = Group.id g
             ∧ grows g g'.
Proof.
  induction keys as [|k keys IH]; intros g.
  - exists g. repeat split. apply grows_refl.
  - rewrite forEach_cons.
    destruct (saveKeyInClass_Some group c e p k g) as (g1 & -> & Hn1 & Hi1 & Hg1).
    destruct (IH g1) as (g2 & -> & Hn2 & Hi2 & Hg2). exists g2.
    repeat split; try congruence. by apply grows_trans with g1.
Qed.

Lemma saveKeysInClass_None group c e p (keys : list Z) :
  forEach keys (saveKeyInClass group c e p) None = None
  ∨ ∃ g', forEach keys (saveKeyInClass group c e p) None = Some g'
          ∧ Group.name g' = c ∧ Group.id g' = p.
Proof.
  induction keys as [|k keys IH]; [by left|]. rewrite forEach_cons.
  destruct (saveKeyInClass group c e p k None) as [g1|] eqn:Hstep; [|done].
  right. assert (Group.name g1 = c ∧ Group.id g1 = p) as [Hn1 Hi1].
  { unfold saveKeyInClass in Hstep.
    destruct (keyFragments group !! k) as [f|]; [|done].
    destruct (JS.truthy f); [|done]. injection Hstep as <-.
    apply (Group_add_name f e (Group.mk ∅ c p)). }
  destruct (saveKeysInClass_Some group c e p keys g1) as (g' & -> & Hn & Hi & _).
  exists g'. split; [done|]. split; congruence.
Qed.

Lemma saveKeysInClass_pairs group c e p (keys : list Z) :
  ∀ o f i,
    (∃ g, forEach keys (saveKeyInClass group c e p) o = Some g
          ∧ inMap (Group.map g) f i)
    ↔ (∃ g, o = Some g ∧ inMap (Group.map g) f i)
      ∨ (i = e ∧ ∃ key, key ∈ keys ∧ keyFragments group !! key = Some f ∧ f ≠ "").
Proof.
  induction keys as [|k keys IH]; intros o f i.
  - rewrite forEach_nil. split; [by left|].
    intros [?|(_ & ? & H & _)]; [done|]. by apply not_elem_of_nil in H.
  - rewrite forEach_cons, IH, saveKeyInClass_pairs. split.
    + intros [[?|(-> & ? & ?)]|(-> & key & ? & ? & ?)]; [by left|right..].
      * split; [done|]. exists k. split; [by left|done].
      * split; [done|]. exists key. split; [by right|done].
    + intros [?|(-> & key & [->|?]%elem_of_cons & ? & ?)].
      * by left; left.
      * by left; right.
      * right. split; [done|]. by exists key.
Qed.

(** A class that has the pairs of the keys is left as it is. *)
Lemma saveKeysInClass_absorb group c e p (keys : list Z) g :
  (∀ key f, key ∈ keys → keyFragments group !! key = Some f → f ≠ "" →
            inMap (Group.map g) f e) →
  forEach keys (saveKeyInClass group c e p) (Some g) = Some g.
Proof.
  induction keys as [|k keys IH]; intros Hall; [done|].
  rewrite forEach_cons.
  assert (saveKeyInClass group c e p k (Some g) = Some g) as ->.
  { unfold saveKeyInClass. destruct (keyFragments group !! k) as [f|] eqn:Hk;
      [|done].
    destruct (JS.truthy f) eqn:Ht; [|done]. apply truthy_spec in Ht. simpl.
    destruct (Hall k f) as (ids & Hf & He); [by left|done..|].
    f_equal. unfold Group.add. rewrite Hf. simpl. rewrite Hf.
    destruct g as [m n i]. simpl in *. f_equal.
    rewrite insert_id; [done|]. rewrite Hf. f_equal.
    apply set_eq. intros x. rewrite elem_of_union, elem_of_singleton.
    split; [by right|by intros [->|?]]. }
  apply IH. intros. eapply Hall; [by right|done..].
Qed.

Lemma entityFragment_keys group e f :
  entityFragment group e f
  ↔ ∃ key, key ∈ default [] (fst <$> data_get (data group) e)
           ∧ keyFragments group !! key = Some f ∧ f ≠ "".
Proof.
  unfold entityFragment. destruct (data_get (data group) e) as [[keys rels]|];
    simpl.
  - split.
    + intros (? & ? & key & [= <- <-] & ?). by exists key.
    + intros (key & ?). by exists keys, rels, key.
  - split; [by intros (? & ? & ? & ? & _)|].
    intros (? & H & _). by apply not_elem_of_nil in H.
Qed.

(** ** What [saveItem] records and what it leaves alone *)

Lemma saveItem_inClass_iff group s c e p lst s' c' f i :
  inClass (saveItem group s c e p lst) s' c' f i
  ↔ inClass lst s' c' f i
    ∨ (s' = s ∧ c' = c ∧ i = e ∧ entityFragment group e f).
Proof.
  destruct (decide (s' = s)) as [->|Hs].
  2:{ unfold inClass. rewrite saveItem_other_system by done.
      split; [by left|]. by intros [?|(? & _)]. }
  rewrite !inClass_classOf, saveItem_class. case_decide as Hc.
  2:{ split; [by left|]. by intros [?|(_ & ? & _)]. }
  subst. rewrite saveKeysInClass_pairs, entityFragment_keys.
  split; (intros [?|H]; [by left|right]).
  - by destruct H as [-> ?].
  - by destruct H as (_ & _ & -> & ?).
Qed.

Lemma saveKeysInClass_stays_None group c e p p' (keys : list Z) :
  forEach keys (saveKeyInClass group c e p) None = None →
  forEach keys (saveKeyInClass group c e p') None = None.
Proof.
  induction keys as [|k keys IH]; [done|]. rewrite !forEach_cons.
  unfold saveKeyInClass at 2 4.
  destruct (keyFragments group !! k) as [f|]; [|done].
  destruct (JS.truthy f); [|done]. simpl. intros Hg.
  destruct (saveKeysInClass_Some group c e p keys
              (Group.add f e (Group.mk ∅ c p))) as (g1 & Hg1 & _).
  congruence.
Qed.

Lemma saveItem_again group s c e p p' lst :
  saveItem group s c e p' (saveItem group s c e p lst)
  = saveItem group s c e p lst.
Proof.
  apply (index_eq _ _ s).
  - intros s' Hs. by rewrite saveItem_other_system.
  - apply saveItem_system.
  - apply saveItem_system.
  - intros c'. rewrite saveItem_class. case_decide as Hc; [|done]. subst.
    destruct (classOf (saveItem group s c e p lst) s c) as [g|] eqn:Hg.
    + apply saveKeysInClass_absorb. intros key f Hkey Hf Hne.
      assert (Hin : inClass (saveItem group s c e p lst) s c f e).
      { apply saveItem_inClass_iff. right. repeat split.
        apply entityFragment_keys. by exists key. }
      apply inClass_classOf in Hin as (g' & Hg' & Hin). congruence.
    + rewrite saveItem_class, decide_True in Hg by done.
      destruct (classOf lst s c) as [g0|].
      * destruct (saveKeysInClass_Some group c e p
                    (default [] (fst <$> data_get (data group) e)) g0)
          as (g' & Hg' & _). congruence.
      * by apply (saveKeysInClass_stays_None group c e p p').
Qed.

(** [saveItem] adds to the index exactly the pairs of the entity with the
    fragments of its geometry keys, in the class and the system it is
    given. *)
Theorem saveItem_pairs group s c e p lst s' c' f i :
  inClass (saveItem group s c e p lst) s' c' f i
  ↔ inClass lst s' c' f i
    ∨ (s' = s ∧ c' = c ∧ i = e ∧ entityFragment group e f).
Proof. apply saveItem_inClass_iff. Qed.

(** [saveItem] leaves the other systems and the other classes of its
    system as they are; a class that exists keeps its name and its parent
    id, whatever [parentID] is given, and a class that it creates gets the
    class name and [parentID]. *)
Theorem saveItem_frame group s c e p lst :
  (∀ s', s' ≠ s → saveItem group s c e p lst !! s' = lst !! s')
  ∧ (∀ c', c' ≠ c → classOf (saveItem group s c e p lst) s c' = classOf lst s c')
  ∧ (∀ g, classOf lst s c = Some g →
       ∃ g', classOf (saveItem group s c e p lst) s c = Some g'
             ∧ Group.name g' = Group.name g ∧ Group.id g' = Group.id g)
  ∧ (∀ g', classOf lst s c = None →
       classOf (saveItem group s c e p lst) s c = Some g' →
       Group.name g' = c ∧ Group.id g' = p).
Proof.
  split; [intros; by apply saveItem_other_system|].
  split; [intros c' Hc; by rewrite saveItem_class, decide_False|].
  split.
  - intros g Hg. rewrite saveItem_class, decide_True, Hg by done.
    destruct (saveKeysInClass_Some group c e p
                (default [] (fst <$> data_get (data group) e)) g)
      as (g' & -> & ? & ? & _). by exists g'.
  - intros g' Hnone. rewrite saveItem_class, decide_True, Hnone by done.
    destruct (saveKeysInClass_None group c e p
                (default [] (fst <$> data_get (data group) e)))
      as [->|(g1 & -> & ? & ?)]; [done|]. by intros [= <-].
Qed.

(** Saving the same item again, with whatever parent id, changes nothing. *)
Theorem saveItem_idempotent group s c e p p' lst :
  saveItem group s c e p' (saveItem group s c e p lst)
  = saveItem group s c e p lst.
Proof. apply saveItem_again. Qed.

(** ** [remove] and the disposal handler, pair by pair *)

Lemma inMap_delete (m : FragmentIdMap) guid f i :
  inMap (delete guid m) f i ↔ inMap m f i ∧ f ≠ guid.
Proof.
  unfold inMap. destruct (decide (f = guid)) as [->|Hne].
  - rewrite lookup_delete_eq. split; [by intros (? & ? & _)|by intros [_ ?]].
  - rewrite lookup_delete_ne by done. split; [done|by intros [? _]].
Qed.

Lemma remove_classOf fields guid lst s c :
  classOf (remove fields guid lst) s c
  = (λ g, if decide (s ∈ reached fields lst ∧ c ∈ fields)
          then Group.deleteFragment guid g else g) <$> classOf lst s c.
Proof.
  unfold classOf. rewrite remove_lookup.
  destruct (lst !! s) as [system|]; [|done]. simpl.
  destruct (decide (s ∈ reached fields lst)) as [Hs|Hs].
  - rewrite removeFromGroups_lookup. destruct (system !! c); [|done].
    simpl. f_equal. destruct (decide (c ∈ fields)).
    + by rewrite decide_True.
    + rewrite decide_False; [done|]. by intros [_ ?].
  - destruct (system !! c); [|done]. simpl.
    rewrite decide_False; [done|]. by intros [? _].
Qed.

Lemma remove_inClass fields guid lst s c f i :
  inClass (remove fields guid lst) s c f i
  ↔ inClass lst s c f i
    ∧ ¬ (f = guid ∧ s ∈ reached fields lst ∧ c ∈ fields).
Proof.
  rewrite !inClass_classOf, remove_classOf.
  destruct (classOf lst s c) as [g|]; simpl.
  2:{ split; [by intros (? & ? & _)|by intros [(? & ? & _) _]]. }
  case_decide as Hr.
  - split.
    + intros (g' & [= <-] & Hin). apply inMap_delete in Hin as [Hin Hne].
      split; [by exists g|]. by intros [? _].
    + intros [(g' & [= <-] & Hin) Hn]. eexists. split; [done|].
      apply inMap_delete. split; [done|]. intros ->. by apply Hn.
  - split.
    + intros (g' & [= <-] & Hin). split; [by exists g|].
      intros (_ & ? & ?). by apply Hr.
    + intros [(g' & [= <-] & Hin) _]. by exists g.
Qed.

(** [remove(guid)] deletes the fragment from the classes that it reaches,
    and from no other: the classes named like a field of a [DataMap], in
    the systems named like the fields at the head of the enumeration, up
    to the first field that names no system.  Every other pair of the
    index, of the fragment [guid] too, is where it was. *)
Theorem remove_reached_pairs fields guid lst s c f i :
  inClass (remove fields guid lst) s c f i
  ↔ inClass lst s c f i
    ∧ ¬ (f = guid ∧ s ∈ reached fields lst ∧ c ∈ fields).
Proof. apply remove_inClass. Qed.

(** Removing a fragment twice is removing it once, and two fragments can be
    removed in either order. *)
Theorem remove_idempotent_commutes fields a b lst :
  remove fields a (remove fields a lst) = remove fields a lst
  ∧ remove fields a (remove fields b lst)
    = remove fields b (remove fields a lst).
Proof.
  split; apply map_eq; intros s; rewrite !remove_lookup, !reached_remove;
    destruct (lst !! s) as [system|]; simpl; try done; f_equal;
    case_decide; try done.
  - apply removeFromGroups_idemp.
  - apply map_eq. intros c. rewrite !removeFromGroups_lookup.
    destruct (system !! c); simpl; [|done]. f_equal.
    case_decide; [apply deleteFragment_commute|done].
Qed.

Lemma disposedSystem_pairs fields groupID fragmentIDs
    (system : ClassificationSystem) c f i :
  (∃ g, disposedSystem fields groupID fragmentIDs system !! c = Some g
        ∧ inMap (Group.map g) f i)
  ↔ (∃ g, system !! c = Some g ∧ inMap (Group.map g) f i)
    ∧ if decide (groupID ∈ fields) then c ≠ groupID
      else ¬ (c ∈ fields ∧ f ∈ fragmentIDs).
Proof.
  unfold disposedSystem. case_decide as Hg.
  - split.
    + intros (g & Hc & Hin). apply lookup_delete_Some in Hc as [Hne Hc].
      split; [by exists g|done].
    + intros [(g & Hc & Hin) Hne]. exists g.
      split; [by apply lookup_delete_Some|done].
  - rewrite map_lookup_imap. destruct (system !! c) as [g1|]; simpl.
    2:{ split; [by intros (? & ? & _)|by intros [(? & ? & _) _]]. }
    case_decide as Hc.
    + split.
      * intros (g & [= <-] & ids & Hf & Hi). rewrite deleteFragments_map in Hf.
        case_decide; [done|]. split; [|by intros [_ ?]].
        exists g1. split; [done|]. by exists ids.
      * intros [(g & [= <-] & ids & Hf & Hi) Hn]. eexists. split; [done|].
        exists ids. rewrite deleteFragments_map, decide_False; [done|].
        intros ?. by apply Hn.
    + split.
      * intros (g & [= <-] & Hin). split; [by exists g1|]. by intros [? _].
      * intros [(g & [= <-] & Hin) _]. by exists g1.
Qed.

(** The disposal handler, pair by pair.  It reaches the systems that are
    named like a field of a [DataMap], and no other system changes.  In a
    system that it reaches, when [groupID] is the name of a field the
    class [groupID] goes and every other pair stays; otherwise the pairs of
    the disposed fragments go from the classes named like a field, and
    every other pair stays. *)
Theorem onFragmentsDisposed_pairs fields groupID fragmentIDs lst s c f i :
  inClass (onFragmentsDisposed fields groupID fragmentIDs lst) s c f i
  ↔ inClass lst s c f i
    ∧ (s ∈ fields →
       if decide (groupID ∈ fields) then c ≠ groupID
       else ¬ (c ∈ fields ∧ f ∈ fragmentIDs)).
Proof.
  unfold inClass. rewrite onFragmentsDisposed_lookup.
  destruct (lst !! s) as [system|]; simpl.
  2:{ split; [by intros (? & ? & ? & _)|by intros [(? & ? & ? & _) _]]. }
  case_decide as Hs.
  - pose proof (disposedSystem_pairs fields groupID fragmentIDs system c f i)
      as [H1 H2].
    split.
    + intros (? & g & [= <-] & ? & ?).
      destruct H1 as [(g1 & ? & ?) ?]; [by exists g|].
      split; [by exists system, g1|done].
    + intros [(? & g & [= <-] & ? & ?) Hif].
      destruct H2 as (g2 & ? & ?); [split; [by exists g|by apply Hif]|].
      by eexists _, g2.
  - split.
    + intros (? & g & [= <-] & ? & ?). split; [by exists system, g|done].
    + intros [(? & g & [= <-] & ? & ?) _]. by exists system, g.
Qed.

Lemma onFragmentsDisposed_idemp fields groupID fragmentIDs lst :
  onFragmentsDisposed fields groupID fragmentIDs
    (onFragmentsDisposed fields groupID fragmentIDs lst)
  = onFragmentsDisposed fields groupID fragmentIDs lst.
Proof.
  apply map_eq. intros s. rewrite !onFragmentsDisposed_lookup.
  destruct (lst !! s); [|done]. simpl. f_equal.
  case_decide; [apply disposedSystem_idemp|done].
Qed.

(** A second notification for the same disposal changes nothing, whether
    or not a class is named [groupID], and no later one does: which branch
    the handler takes depends on the fields of the [DataMap], not on the
    classes that are left. *)
Theorem onFragmentsDisposed_settles fields groupID fragmentIDs lst :
  onFragmentsDisposed fields groupID fragmentIDs
    (onFragmentsDisposed fields groupID fragmentIDs lst)
  = onFragmentsDisposed fields groupID fragmentIDs lst
  ∧ onFragmentsDisposed fields groupID fragmentIDs
      (onFragmentsDisposed fields groupID fragmentIDs
         (onFragmentsDisposed fields groupID fragmentIDs lst))
    = onFragmentsDisposed fields groupID fragmentIDs
        (onFragmentsDisposed fields groupID fragmentIDs lst).
Proof. by rewrite !onFragmentsDisposed_idemp. Qed.

Lemma sum_list_pos {A} (f : A → nat) (l : list A) :
  (1 ≤ sum_list (f <$> l))%nat → ∃ x, x ∈ l ∧ (1 ≤ f x)%nat.
Proof.
  induction l as [|a l IH]; simpl; [lia|]. intros Hsum.
  destruct (f a) as [|n] eqn:Ha.
  - destruct IH as (x & Hx & Hfx); [done|]. exists x. split; [by right|done].
  - exists a. split; [by left|lia].
Qed.

(** What a filter finds is classified: every fragment it returns comes with
    at least one entity, and every pair it returns belongs to a class that
    the filter lists for one of its keys. *)
Theorem find_returns_classified fragments lst (filter : Filter) :
  noEmptySet (find fragments lst (Some filter))
  ∧ ∀ g i, inMap (find fragments lst (Some filter)) g i →
           ∃ name values value, filter !! name = Some values ∧ value ∈ values
                                ∧ inClass lst name value g i.
Proof.
  split; [apply findFiltered_noEmptySet|]. intros g i Hin. simpl in Hin.
  apply findFiltered_counts in Hin as [Hsum Hpos]. rewrite totalHits_fmap in Hsum.
  destruct (sum_list_pos (λ e : string * list string, keyHits lst e.1 e.2 g i)
              (map_to_list filter)) as ([name values] & Hin & Hhit); [lia|].
  apply elem_of_map_to_list in Hin. apply keyHits_pos in Hhit as (v & Hv & Hc).
  by exists name, values, v.
Qed.

Lemma find_all_lookup (fragments : list (string * list Z)) :
  NoDup fragments.*1 →
  ∀ (acc : FragmentIdMap) g,
    forEach fragments (λ '(id, ids) result, <[id := list_to_set ids]> result)
      acc !! g
    = match (list_to_map fragments : gmap string (list Z)) !! g with
      | Some ids => Some (list_to_set ids)
      | None => acc !! g
      end.
Proof.
  induction fragments as [|[k ids] l IH]; intros Hnd acc g; [done|].
  rewrite fmap_cons in Hnd. apply NoDup_cons in Hnd as [Hk Hnd].
  rewrite forEach_cons, IH by done. simpl.
  destruct (decide (g = k)) as [->|Hne].
  - rewrite (not_elem_of_list_to_map_1 _ k) by done.
    by rewrite !lookup_insert_eq.
  - by rewrite !lookup_insert_ne.
Qed.

(** Without a filter [find] lists the loaded fragments, whatever the index
    holds: every fragment of the manager is a key of the result, also one
    without entities, and the pairs are those of the fragments and their
    ids. *)
Theorem find_without_filter_lists fragments lst g :
  NoDup fragments.*1 →
  (is_Some (find fragments lst None !! g) ↔ g ∈ fragments.*1)
  ∧ ∀ i, inMap (find fragments lst None) g i
         ↔ ∃ ids, (g, ids) ∈ fragments ∧ i ∈ ids.
Proof.
  intros Hnd. simpl. unfold inMap. rewrite find_all_lookup by done.
  rewrite lookup_empty. split.
  - destruct (list_to_map fragments !! g) as [ids|] eqn:Hg.
    + apply elem_of_list_to_map in Hg; [|done]. split; [|by eexists].
      intros _. apply list_elem_of_fmap. by exists (g, ids).
    + apply not_elem_of_list_to_map in Hg. split; [by intros [? ?]|done].
  - intros i. destruct (list_to_map fragments !! g) as [ids|] eqn:Hg.
    + split.
      * intros (? & [= <-] & Hi). exists ids.
        split; [by apply elem_of_list_to_map in Hg|].
        by apply elem_of_list_to_set in Hi.
      * intros (ids' & Hin & Hi).
        apply (elem_of_list_to_map_1 (M:=gmap string)) in Hin; [|done].
        assert (ids' = ids) as -> by congruence.
        eexists. split; [done|]. by apply elem_of_list_to_set.
    + apply not_elem_of_list_to_map in Hg. split; [by intros (? & ? & _)|].
      intros (ids & Hin & _). exfalso. apply Hg, list_elem_of_fmap.
      by exists (g, ids).
Qed.

Lemma find_without_filter_lists_witness :
  (is_Some (find [("frag-1", [7; 8; 7]); ("frag-2", [])] wallIndex None
              !! "frag-2")
   ↔ "frag-2" ∈ [("frag-1", [7; 8; 7]); ("frag-2", [] : list Z)].*1)
  ∧ ∀ i, inMap (find [("frag-1", [7; 8; 7]); ("frag-2", [])] wallIndex None)
           "frag-2" i
         ↔ ∃ ids, ("frag-2", ids) ∈ [("frag-1", [7; 8; 7]); ("frag-2", [] : list Z)]
                  ∧ i ∈ ids.
Proof.
  apply (find_without_filter_lists
           [("frag-1", [7; 8; 7]); ("frag-2", [])] wallIndex "frag-2").
  repeat constructor; rewrite ?elem_of_cons; intros H;
    repeat (destruct H as [H|H]; [discriminate|]); by apply not_elem_of_nil in H.
Defined.

(** ** [byModel] in closed form *)

Lemma byModel_eq modelID group (lst : ClassificationList) :
  byModel modelID group lst
  = <["models" :=
        <[modelID :=
            fillModel group
              (default (Group.mk ∅ modelID None) (classOf lst "models" modelID))]>
          (default ∅ (lst !! "models"))]> lst.
Proof.
  unfold byModel, classOf, fillModel. cbv zeta.
  destruct (lst !! "models") as [mc|] eqn:Hmc; simpl.
  - rewrite Hmc. destruct (mc !! modelID) as [cm|] eqn:Hcm; simpl.
    + by rewrite Hcm.
    + by rewrite lookup_insert_eq, insert_insert_eq.
  - rewrite lookup_insert_eq, lookup_empty, lookup_insert_eq.
    by rewrite !insert_insert_eq.
Qed.

Lemma fillModel_in group cm f i :
  inMap (Group.map (fillModel group cm)) f i
  ↔ inMap (Group.map cm) f i ∨ modelPair group f i.
Proof. apply byModelData_in. Qed.

Lemma Group_add_absorb f e g :
  inMap (Group.map g) f e → Group.add f e g = g.
Proof.
  intros (ids & Hf & He). unfold Group.add. rewrite Hf. simpl. rewrite Hf.
  destruct g as [m n i]. simpl in *. f_equal.
  rewrite insert_id; [done|]. rewrite Hf. f_equal.
  apply set_eq. intros x. rewrite elem_of_union, elem_of_singleton.
  split; [by right|by intros [->|?]].
Qed.

Lemma byModelKeys_absorb group e (keys : list Z) cm :
  (∀ key f, key ∈ keys → keyFragments group !! key = Some f → f ≠ "" →
            inMap (Group.map cm) f e) →
  forEach keys (byModelKey group e) cm = cm.
Proof.
  induction keys as [|k keys IH]; intros Hall; [done|]. rewrite forEach_cons.
  assert (byModelKey group e k cm = cm) as ->.
  { unfold byModelKey. destruct (JS.falsy (keyFragments group !! k)) eqn:Hf;
      [done|]. apply falsy_spec in Hf as (f & Hk & Hne). rewrite Hk.
    apply Group_add_absorb. apply (Hall k); [by left|done..]. }
  apply IH. intros. eapply Hall; [by right|done..].
Qed.

Lemma byModelData_absorb group (d : list (Z * (list Z * list Z))) cm :
  (∀ e keys rels key f, (e, (keys, rels)) ∈ d → key ∈ keys →
                        keyFragments group !! key = Some f → f ≠ "" →
                        inMap (Group.map cm) f e) →
  forEach d
    (λ '(expressID, d) currentModel,
       forEach d.1 (byModelKey group expressID) currentModel) cm = cm.
Proof.
  induction d as [|[e [keys rels]] d IH]; intros Hall; [done|].
  rewrite forEach_cons. simpl. rewrite byModelKeys_absorb.
  - apply IH. intros. eapply Hall; [by right|done..].
  - intros. eapply Hall; [by left|done..].
Qed.

Lemma fillModel_idemp group cm :
  fillModel group (fillModel group cm) = fillModel group cm.
Proof.
  apply byModelData_absorb. intros e keys rels key f He Hkey Hf Hne.
  apply fillModel_in. right. by exists keys, rels, key.
Qed.

Lemma byModel_classOf modelID group lst c :
  classOf (byModel modelID group lst) "models" c
  = if decide (c = modelID)
    then Some (fillModel group
                 (default (Group.mk ∅ modelID None) (classOf lst "models" modelID)))
    else classOf lst "models" c.
Proof.
  rewrite byModel_eq. unfold classOf at 1. rewrite lookup_insert_eq. simpl.
  case_decide as Hc.
  - subst. by rewrite lookup_insert_eq.
  - rewrite lookup_insert_ne by done. unfold classOf.
    by destruct (lst !! "models").
Qed.

Lemma byModel_inClass modelID group lst s c f i :
  inClass (byModel modelID group lst) s c f i
  ↔ inClass lst s c f i ∨ (s = "models" ∧ c = modelID ∧ modelPair group f i).
Proof.
  destruct (decide (s = "models")) as [->|Hs].
  2:{ unfold inClass. rewrite byModel_eq, lookup_insert_ne by done.
      split; [by left|]. by intros [?|(? & _)]. }
  rewrite !inClass_classOf, byModel_classOf. case_decide as Hc.
  2:{ split; [by left|]. by intros [?|(_ & ? & _)]. }
  subst. split.
  - intros (g & [= <-] & Hin). apply fillModel_in in Hin as [Hin|Hin].
    + left. destruct (classOf lst "models" modelID) as [g0|]; [by exists g0|].
      destruct Hin as (? & Hl & _). simpl in Hl. by rewrite lookup_empty in Hl.
    + by right.
  - intros Hin. eexists. split; [done|]. apply fillModel_in.
    destruct Hin as [(g & -> & Hin)|(_ & _ & Hin)]; [by left|by right].
Qed.

(** [byModel] adds to the index exactly the pairs of the model, in the
    class named after it in the system of the models; whatever else the
    index holds is left as it is. *)
Theorem byModel_pairs modelID group lst s c f i :
  inClass (byModel modelID group lst) s c f i
  ↔ inClass lst s c f i ∨ (s = "models" ∧ c = modelID ∧ modelPair group f i).
Proof. apply byModel_inClass. Qed.

(** [byModel] always leaves a class named after the model, an empty one for
    a model without entities; the other classes and systems, and the parent
    id of the class, are not touched; classifying the same model again
    changes nothing. *)
Theorem byModel_class_and_frame modelID group lst :
  (∃ g, classOf (byModel modelID group lst) "models" modelID = Some g
        ∧ Group.name g
          = Group.name (default (Group.mk ∅ modelID None)
                          (classOf lst "models" modelID))
        ∧ Group.id g
          = Group.id (default (Group.mk ∅ modelID None)
                        (classOf lst "models" modelID)))
  ∧ (∀ c, c ≠ modelID →
          classOf (byModel modelID group lst) "models" c = classOf lst "models" c)
  ∧ (∀ s, s ≠ "models" → byModel modelID group lst !! s = lst !! s)
  ∧ byModel modelID group (byModel modelID group lst) = byModel modelID group lst.
Proof.
  repeat split.
  - eexists. rewrite byModel_classOf, decide_True by done. split; [done|].
    unfold fillModel.
    generalize (default (Group.mk ∅ modelID None) (classOf lst "models" modelID)).
    intros cm. revert cm.
    assert (Hkeys : ∀ e keys cm,
              Group.name (forEach keys (byModelKey group e) cm) = Group.name cm
              ∧ Group.id (forEach keys (byModelKey group e) cm) = Group.id cm).
    { intros e keys. induction keys as [|k keys IH]; intros cm; [done|].
      rewrite forEach_cons. destruct (IH (byModelKey group e k cm)) as [-> ->].
      unfold byModelKey. destruct (JS.falsy _); [done|].
      destruct (keyFragments group !! k); [apply Group_add_name|done]. }
    induction (data group) as [|[e d] l IH]; intros cm; [done|].
    rewrite forEach_cons. destruct (IH (forEach d.1 (byModelKey group e) cm))
      as [-> ->]. apply Hkeys.
  - intros c Hc. by rewrite byModel_classOf, decide_False.
  - intros s Hs. by rewrite byModel_eq, lookup_insert_ne.
  - rewrite (byModel_eq modelID group (byModel modelID group lst)).
    rewrite byModel_classOf, decide_True by done. simpl.
    rewrite fillModel_idemp. rewrite (byModel_eq modelID group lst) at 1 2.
    rewrite lookup_insert_eq. simpl. rewrite !insert_insert_eq.
    symmetry. apply byModel_eq.
Qed.

(** Classifying a model with [byModel] and then disposing of it, under the
    identifier it was classified with, leaves the class of the model in
    the index: when no system is named like a field of a [DataMap], the
    handler reaches neither the system of the models nor any other. *)
Theorem byModel_survives_disposal fields modelID group fragmentIDs
    (lst : ClassificationList) :
  noFieldNamed fields lst → "models" ∉ fields →
  onFragmentsDisposed fields modelID fragmentIDs (byModel modelID group lst)
  = byModel modelID group lst.
Proof.
  intros Hno Hm. apply onFragmentsDisposed_unreached. intros f Hf.
  rewrite byModel_eq, lookup_insert_ne; [by apply Hno|]. by intros <-.
Qed.

Lemma byModel_survives_disposal_witness :
  onFragmentsDisposed eventFields "model-1" ["frag-1"]
    (byModel "model-1" oneWall ∅)
  = {[ "models" :=
         {[ "model-1" := Group.mk {[ "frag-1" := {[ 7 ]} ]} "model-1" None ]} ]}.
Proof.
  rewrite (byModel_survives_disposal eventFields "model-1" oneWall
             ["frag-1"] ∅).
  - vm_compute. reflexivity.
  - intros f _. apply lookup_empty.
  - compute_done.
Defined.

(** ** Builders as sets of added pairs *)

Lemma adds_nothing : adds (λ lst, lst) (λ _ _ _ _, False).
Proof. intros lst s c f i. split; [by left|]. by intros [?|?]. Qed.

Lemma adds_ext F (P Q : string → string → string → Z → Prop) :
  adds F P → (∀ s c f i, P s c f i ↔ Q s c f i) → adds F Q.
Proof. unfold adds. intros HF HPQ lst s c f i. by rewrite HF, HPQ. Qed.

Lemma adds_then F G (P Q : string → string → string → Z → Prop) :
  adds F P → adds G Q →
  adds (λ lst, G (F lst)) (λ s c f i, P s c f i ∨ Q s c f i).
Proof.
  unfold adds. intros HF HG lst s c f i. rewrite HG, HF. split.
  - intros [[?|?]|?]; auto.
  - intros [?|[?|?]]; auto.
Qed.

Lemma adds_forEach {A} (xs : list A)
    (body : A → ClassificationList → ClassificationList)
    (P : A → string → string → string → Z → Prop) :
  (∀ x, x ∈ xs → adds (body x) (P x)) →
  adds (forEach xs body) (λ s c f i, ∃ x, x ∈ xs ∧ P x s c f i).
Proof.
  unfold adds. induction xs as [|x xs IH]; intros Hbody lst s c f i.
  - rewrite forEach_nil. split; [by left|].
    intros [?|(? & H & _)]; [done|]. by apply not_elem_of_nil in H.
  - rewrite forEach_cons, IH by (intros; apply Hbody; by right).
    rewrite (Hbody x) by (by left). split.
    + intros [[?|?]|(y & ? & ?)]; [by left|right..].
      * exists x. split; [by left|done].
      * exists y. split; [by right|done].
    + intros [?|(y & [->|?]%elem_of_cons & ?)].
      * by left; left.
      * by left; right.
      * right. by exists y.
Qed.

Lemma adds_saveItem group s0 c0 e0 p0 :
  adds (saveItem group s0 c0 e0 p0)
    (λ s c f i, s = s0 ∧ c = c0 ∧ i = e0 ∧ entityFragment group e0 f).
Proof. intros lst s c f i. apply saveItem_inClass_iff. Qed.

Lemma adds_ensureSystem name :
  adds (λ lst : ClassificationList,
          match lst !! name with
          | None => <[name := ∅]> lst
          | Some _ => lst
          end) (λ _ _ _ _, False).
Proof.
  intros lst s c f i. rewrite !inClass_classOf, ensureSystem_class.
  split; [by left|]. by intros [?|?].
Qed.

Lemma byEntity_adds table group :
  adds (byEntity table group)
    (λ s c f i, s = "entities"
                ∧ ∃ d, (i, d) ∈ data group ∧ c = entityClass table d
                       ∧ entityFragment group i f).
Proof.
  unfold byEntity. cbv zeta.
  eapply adds_ext.
  - eapply (adds_then
             (λ lst : ClassificationList,
                match lst !! "entities" with
                | None => <["entities" := ∅]> lst
                | Some _ => lst
                end)
             (forEach (data group)
                (λ '(expressID, d) lst,
                   saveItem group "entities"
                     (JS.propertyKey (d.2 !! 1%nat ≫= table)) expressID None lst)));
      [apply (adds_ensureSystem "entities")|].
    apply (adds_forEach (data group) _
             (λ x s c f i, s = "entities" ∧ c = entityClass table x.2
                           ∧ i = x.1 ∧ entityFragment group x.1 f)).
    intros [e d] _. apply adds_saveItem.
  - intros s c f i. simpl. split.
    + intros [[]|([e d] & Hin & -> & -> & -> & Hf)]. split; [done|].
      by exists d.
    + intros (-> & d & Hin & -> & Hf). right. by exists (i, d).
Qed.

(** [byEntity] adds to the index exactly the pairs of the entities of
    [group.data] with the fragments of their geometry keys, each entity in
    the class of the system of the entities that is named after its
    category; nothing else changes. *)
Theorem byEntity_pairs table group lst s c f i :
  inClass (byEntity table group lst) s c f i
  ↔ inClass lst s c f i
    ∨ (s = "entities"
       ∧ ∃ d, (i, d) ∈ data group ∧ c = entityClass table d
              ∧ entityFragment group i f).
Proof. apply byEntity_adds. Qed.

Lemma byIfcRel_adds isRel relMap names group ifcRel systemName :
  adds (byIfcRel isRel relMap names group ifcRel systemName)
    (λ s c f i,
       isRel ifcRel = true ∧ s = systemName
       ∧ ∃ relatingID relatedIDs,
           (relatingID, relatedIDs) ∈ relMap ifcRel ∧ i ∈ relatedIDs
           ∧ c = default "NO REL NAME" (names relatingID)
           ∧ entityFragment group i f).
Proof.
  unfold byIfcRel. destruct (isRel ifcRel); simpl.
  2:{ eapply adds_ext; [apply adds_nothing|]. intros. split; [done|].
      by intros [? _]. }
  eapply adds_ext.
  - apply (adds_forEach (relMap ifcRel) _
             (λ x s c f i, ∃ e, e ∈ x.2
                ∧ (s = systemName ∧ c = default "NO REL NAME" (names x.1)
                   ∧ i = e ∧ entityFragment group e f))).
    intros [relatingID relatedIDs] _. simpl.
    apply (adds_forEach relatedIDs _
             (λ e s c f i, s = systemName
                           ∧ c = default "NO REL NAME" (names relatingID)
                           ∧ i = e ∧ entityFragment group e f)).
    intros e _. apply adds_saveItem.
  - intros s c f i. simpl. split.
    + intros ([relatingID relatedIDs] & Hin & e & He & -> & -> & -> & Hf).
      split; [done|]. split; [done|]. by exists relatingID, relatedIDs.
    + intros (_ & -> & relatingID & relatedIDs & Hin & He & -> & Hf).
      exists (relatingID, relatedIDs). split; [done|]. by exists i.
Qed.

(** [byIfcRel] adds nothing for a code that is not a relation; for a
    relation it adds exactly the pairs of the related entities with the
    fragments of their geometry keys, in the system it is given, each
    entity in the class named after the relating entity, or NO REL NAME
    when that entity has no name. *)
Theorem byIfcRel_pairs isRel relMap names group ifcRel systemName lst s c f i :
  inClass (byIfcRel isRel relMap names group ifcRel systemName lst) s c f i
  ↔ inClass lst s c f i
    ∨ (isRel ifcRel = true ∧ s = systemName
       ∧ ∃ relatingID relatedIDs,
           (relatingID, relatedIDs) ∈ relMap ifcRel ∧ i ∈ relatedIDs
           ∧ c = default "NO REL NAME" (names relatingID)
           ∧ entityFragment group i f).
Proof. apply byIfcRel_adds. Qed.

(** ** [bySpatialStructure], pair by pair *)

Lemma adds_iff F (P : string → string → string → Z → Prop) :
  adds F P →
  ∀ lst s c f i, inClass (F lst) s c f i ↔ inClass lst s c f i ∨ P s c f i.
Proof. done. Qed.

Lemma spatialParent_adds model useProps expressID id :
  adds (spatialParent model useProps expressID id)
    (λ s c f i, s = spatialSystem ∧ containerName model useProps id = Some c
                ∧ i = expressID ∧ entityFragment model expressID f).
Proof.
  unfold spatialParent, containerName. destruct useProps.
  - destruct (getProperties model id) as [attrs|]; simpl.
    + eapply adds_ext; [apply adds_saveItem|]. intros s c f i. simpl. split.
      * by intros (-> & -> & -> & ?).
      * by intros (-> & [= <-] & -> & ?).
    + eapply adds_ext; [apply adds_nothing|]. intros. split; [done|].
      by intros (_ & ? & _).
  - eapply adds_ext; [apply adds_saveItem|]. intros s c f i. simpl. split.
    + by intros (-> & -> & -> & ?).
    + by intros (-> & [= <-] & -> & ?).
Qed.

Lemma spatialChild_adds indexer model relName expressID id :
  adds (spatialChild indexer model relName expressID id)
    (λ s c f i,
       s = spatialSystem ∧ c = relName
       ∧ (i = id
          ∨ ∃ parts, getEntityRelations indexer id "IsDecomposedBy" = Some parts
                     ∧ i ∈ parts)
       ∧ entityFragment model i f).
Proof.
  unfold spatialChild. intros lst s c f i.
  destruct (getEntityRelations indexer id "IsDecomposedBy") as [parts|].
  - rewrite (adds_iff _ _
               (adds_forEach parts
                  (λ decomposedID lst,
                     saveItem model spatialSystem relName decomposedID
                       (Some expressID) lst)
                  (λ e s c f i, s = spatialSystem ∧ c = relName ∧ i = e
                                ∧ entityFragment model e f)
                  (λ e _, adds_saveItem model spatialSystem relName e
                            (Some expressID)))).
    rewrite (adds_iff _ _
               (adds_saveItem model spatialSystem relName id (Some expressID))).
    cbv beta. split.
    + intros [[?|(-> & -> & -> & ?)]|(e & ? & -> & -> & -> & ?)]; [by left|..];
        right; repeat split; try done; [by left|].
      right. by exists parts.
    + intros [?|(-> & -> & [->|(parts' & [= <-] & ?)] & ?)].
      * by left; left.
      * by left; right.
      * right. by exists i.
  - rewrite (adds_iff _ _
               (adds_saveItem model spatialSystem relName id (Some expressID))).
    cbv beta. split.
    + intros [?|(-> & -> & -> & ?)]; [by left|]. right.
      repeat split; try done. by left.
    + intros [?|(-> & -> & [->|(? & ? & _)] & ?)]; [by left| |done].
      by right.
Qed.

Lemma spatialEntity_adds indexer model config expressID :
  adds (spatialEntity indexer model config expressID)
    (λ s c f i, s = spatialSystem
                ∧ spatialPair indexer model config expressID c f i).
Proof.
  intros lst s c f i. unfold spatialEntity, spatialPair. cbv zeta.
  destruct (isolated model config expressID).
  { split; [by left|]. by intros [?|(_ & ? & _)]. }
  set (useProps := default true (useProperties config)).
  assert (H1 : ∀ s c f i,
            inClass (match getEntityRelations indexer expressID "Decomposes" with
                     | Some spatialRels =>
                         forEach spatialRels
                           (spatialParent model useProps expressID) lst
                     | None => lst
                     end) s c f i
            ↔ inClass lst s c f i
              ∨ (s = spatialSystem
                 ∧ ∃ spatialRels id,
                     getEntityRelations indexer expressID "Decomposes"
                     = Some spatialRels
                     ∧ id ∈ spatialRels
                     ∧ containerName model useProps id = Some c
                     ∧ i = expressID ∧ entityFragment model expressID f)).
  { intros s' c' f' i'.
    destruct (getEntityRelations indexer expressID "Decomposes") as [rels|].
    - rewrite (adds_iff _ _
                 (adds_forEach rels (spatialParent model useProps expressID)
                    (λ id s c f i,
                       s = spatialSystem
                       ∧ containerName model useProps id = Some c
                       ∧ i = expressID ∧ entityFragment model expressID f)
                    (λ id _, spatialParent_adds model useProps expressID id))).
      cbv beta. split; (intros [?|H]; [by left|right]).
      + destruct H as (id & ? & -> & ? & ? & ?). split; [done|].
        by exists rels, id.
      + destruct H as (-> & rels' & id & [= <-] & ? & ? & ? & ?). by exists id.
    - split; [by left|]. by intros [?|(_ & ? & ? & ? & _)]. }
  revert H1.
  generalize (match getEntityRelations indexer expressID "Decomposes" with
              | Some spatialRels =>
                  forEach spatialRels
                    (spatialParent model useProps expressID) lst
              | None => lst
              end). intros lst1 H1.
  destruct (getEntityRelations indexer expressID "ContainsElements") as [rels|].
  2:{ rewrite H1. split; (intros [?|H]; [by left|right]).
      - destruct H as [-> H]. repeat split; try done. by left.
      - destruct H as (-> & _ & [H|(? & ? & ? & _)]); [|done]. by split. }
  destruct (containerName model useProps expressID) as [relName|].
  2:{ rewrite H1. split; (intros [?|H]; [by left|right]).
      - destruct H as [-> H]. repeat split; try done. by left.
      - destruct H as (-> & _ & [H|(? & ? & ? & ? & _)]); [|done]. by split. }
  rewrite (adds_iff _ _
             (adds_forEach rels (spatialChild indexer model relName expressID)
                (λ id s c f i,
                   s = spatialSystem ∧ c = relName
                   ∧ (i = id
                      ∨ ∃ parts,
                          getEntityRelations indexer id "IsDecomposedBy"
                          = Some parts
                          ∧ i ∈ parts)
                   ∧ entityFragment model i f)
                (λ id _, spatialChild_adds indexer model relName expressID id))).
  cbv beta. rewrite H1. split.
  - intros [[?|[-> H]]|(id & ? & -> & -> & ? & ?)]; [by left|right..].
    + repeat split; try done. by left.
    + repeat split; try done. right. by exists rels, id.
  - intros [?|(-> & _ & [H|(rels' & id & [= <-] & [= <-] & ? & ? & ?)])].
    + by left; left.
    + left; right. by split.
    + right. by exists id.
Qed.

(** [bySpatialStructure] on an indexed model returns, having added to the
    index exactly these pairs, all in the system of the spatial structures:
    for every entity of the relations of the model that [isolate] lets
    through, the entity itself in the class of every spatial element that
    it decomposes, and the elements that it contains and their parts in the
    class of the entity; each of them with the fragments of its own
    geometry keys. *)
Theorem bySpatialStructure_pairs indexer model config lst modelRelations :
  relationMaps indexer = Some modelRelations →
  ∃ lst', bySpatialStructure indexer model config lst = Done lst'
          ∧ ∀ s c f i,
              inClass lst' s c f i
              ↔ inClass lst s c f i
                ∨ (s = "spatialStructures"
                   ∧ ∃ expressID, expressID ∈ modelRelations
                                  ∧ spatialPair indexer model config expressID c f i).
Proof.
  intros Hmaps. unfold bySpatialStructure. rewrite Hmaps. eexists.
  split; [done|]. intros s c f i.
  rewrite (adds_iff _ _
             (adds_forEach modelRelations (spatialEntity indexer model config)
                (λ e s c f i, s = spatialSystem
                              ∧ spatialPair indexer model config e c f i)
                (λ e _, spatialEntity_adds indexer model config e))).
  cbv beta. split; (intros [?|H]; [by left|right]).
  - destruct H as (e & ? & -> & ?). split; [done|]. by exists e.
  - destruct H as (-> & e & ? & ?). by exists e.
Qed.

Lemma bySpatialStructure_pairs_witness :
  ∃ lst', bySpatialStructure towerRelations tower (mkConfig None None) ∅
          = Done lst'
          ∧ ∀ s c f i,
              inClass lst' s c f i
              ↔ inClass ∅ s c f i
                ∨ (s = "spatialStructures"
                   ∧ ∃ expressID, expressID ∈ [100; 200]
                                  ∧ spatialPair towerRelations tower
                                      (mkConfig None None) expressID c f i).
Proof.
  exact (bySpatialStructure_pairs towerRelations tower (mkConfig None None) ∅
           [100; 200] eq_refl).
Defined.

(** ** [byPredefinedType]: when it throws and what it adds *)

Lemma forEachT_Thrown_inv {A S} (body : A → S → Result S) (xs : list A) :
  ∀ st m st', forEachT xs body st = Thrown m st' →
    ∃ x s, x ∈ xs ∧ body x s = Thrown m st'.
Proof.
  induction xs as [|y xs IH]; intros st m st'; [done|]. simpl.
  destruct (body y st) as [st1|m1 st1] eqn:Hy.
  - intros (x & s & ? & ?)%IH. exists x, s. split; [by right|done].
  - intros [= <- <-]. exists y, st. split; [by left|done].
Qed.

Lemma forEachT_Done_exact {A S T} (M : S → T → Prop) (P : A → T → Prop)
    (body : A → S → Result S) (xs : list A) :
  (∀ x s s', body x s = Done s' → ∀ t, M s' t ↔ M s t ∨ P x t) →
  ∀ st st', forEachT xs body st = Done st' →
    ∀ t, M st' t ↔ M st t ∨ ∃ x, x ∈ xs ∧ P x t.
Proof.
  intros Hbody. induction xs as [|y xs IH]; intros st st'.
  - intros [= <-] t. split; [by left|].
    intros [?|(? & H & _)]; [done|]. by apply not_elem_of_nil in H.
  - simpl. destruct (body y st) as [st1|m st1] eqn:Hy; [|done].
    intros Hrest t. rewrite (IH _ _ Hrest), (Hbody _ _ _ Hy). split.
    + intros [[?|?]|(x & ? & ?)]; [by left|right..].
      * exists y. split; [by left|done].
      * exists x. split; [by right|done].
    + intros [?|(x & [->|?]%elem_of_cons & ?)].
      * by left; left.
      * by left; right.
      * right. by exists x.
Qed.

Lemma predefinedKey_Thrown group entity key st m st' :
  predefinedKey group entity key st = Thrown m st' → unresolved group key.
Proof.
  unfold predefinedKey. destruct (JS.falsy _) eqn:Hf.
  - intros _. by apply unresolved_falsy.
  - destruct (keyFragments group !! key) eqn:Hk; [done|]. intros _. by left.
Qed.

Lemma predefinedKey_Done_exact group entity key st st' :
  predefinedKey group entity key st = Done st' →
  ∀ t : string * Z,
    inMap (Group.map st') t.1 t.2
    ↔ inMap (Group.map st) t.1 t.2
      ∨ (t.2 = expressID entity ∧ keyFragments group !! key = Some t.1
         ∧ t.1 ≠ "").
Proof.
  unfold predefinedKey. destruct (JS.falsy _) eqn:Hf; [done|].
  apply falsy_spec in Hf as (f & Hk & Hne). rewrite Hk. intros [= <-] [f' i].
  simpl. rewrite Group_add_in_iff. split; (intros [?|H]; [by left|right]).
  - by destruct H as [-> ->].
  - by destruct H as (-> & [= ->] & _).
Qed.

Lemma predefinedData_Done_exact group entity st st' :
  predefinedData group entity st = Done st' →
  ∀ f i,
    inMap (Group.map st') f i
    ↔ inMap (Group.map st) f i
      ∨ (i = expressID entity
         ∧ ∃ e keys rels key, (e, (keys, rels)) ∈ data group ∧ key ∈ keys
                              ∧ keyFragments group !! key = Some f ∧ f ≠ "").
Proof.
  intros Hdone f i. unfold predefinedData in Hdone.
  assert (Hbody : ∀ (x : Z * (list Z * list Z)) (s s' : Group.t),
            (λ '(_, d) (currentType : Group.t),
               forEachT d.1 (predefinedKey group entity) currentType) x s
            = Done s' →
            ∀ t : string * Z,
              inMap (Group.map s') t.1 t.2
              ↔ inMap (Group.map s) t.1 t.2
                ∨ ∃ key, key ∈ x.2.1
                         ∧ (t.2 = expressID entity
                            ∧ keyFragments group !! key = Some t.1 ∧ t.1 ≠ "")).
  { intros [e d] s s' Hb.
    apply (forEachT_Done_exact
             (λ (g : Group.t) (t : string * Z), inMap (Group.map g) t.1 t.2)
             (λ key (t : string * Z),
                t.2 = expressID entity ∧ keyFragments group !! key = Some t.1
                ∧ t.1 ≠ "") _ _ (predefinedKey_Done_exact group entity) _ _ Hb). }
  pose proof (forEachT_Done_exact
                (λ (g : Group.t) (t : string * Z), inMap (Group.map g) t.1 t.2)
                (λ (x : Z * (list Z * list Z)) (t : string * Z),
                   ∃ key, key ∈ x.2.1
                          ∧ (t.2 = expressID entity
                             ∧ keyFragments group !! key = Some t.1 ∧ t.1 ≠ ""))
                (λ '(_, d) currentType,
                   forEachT d.1 (predefinedKey group entity) currentType)
                (data group) Hbody _ _ Hdone (f, i)) as Hex.
  simpl in Hex. rewrite Hex.
  split; (intros [?|H]; [by left|right]).
  - destruct H as ([e [keys rels]] & ? & key & ? & -> & ? & ?).
    split; [done|]. by exists e, keys, rels, key.
  - destruct H as (-> & e & keys & rels & key & ? & ? & ? & ?).
    exists (e, (keys, rels)). split; [done|]. by exists key.
Qed.

Lemma predefinedEntity_Thrown group id st m st' :
  predefinedEntity group id st = Thrown m st' →
  is_Some (getProperties group id)
  ∧ ∃ e keys rels key, (e, (keys, rels)) ∈ data group ∧ key ∈ keys
                       ∧ unresolved group key.
Proof.
  unfold predefinedEntity. destruct (getProperties group id) as [entity|]; [|done].
  cbv zeta. destruct (_ !! predefinedTypeOf entity) as [ct|]; [|done].
  destruct (predefinedData group entity ct) as [ct'|m' ct'] eqn:Hd; [done|].
  intros _. split; [by eexists|]. unfold predefinedData in Hd.
  apply forEachT_Thrown_inv in Hd as ([e [keys rels]] & s & He & Hd).
  simpl in Hd. apply forEachT_Thrown_inv in Hd as (key & s' & Hkey & Hd).
  apply predefinedKey_Thrown in Hd. by exists e, keys, rels, key.
Qed.

Lemma predefinedEntity_Done_exact group id st st' :
  predefinedEntity group id st = Done st' →
  ∀ t : string * string * Z,
    (∃ g, st' !! t.1.1 = Some g ∧ inMap (Group.map g) t.1.2 t.2)
    ↔ (∃ g, st !! t.1.1 = Some g ∧ inMap (Group.map g) t.1.2 t.2)
      ∨ (∃ entity,
           getProperties group id = Some entity
           ∧ t.1.1 = predefinedTypeOf entity ∧ t.2 = expressID entity
           ∧ ∃ e keys rels key, (e, (keys, rels)) ∈ data group ∧ key ∈ keys
                                ∧ keyFragments group !! key = Some t.1.2
                                ∧ t.1.2 ≠ "").
Proof.
  unfold predefinedEntity. destruct (getProperties group id) as [entity|].
  2:{ intros [= <-] t. split; [by left|]. by intros [?|(? & ? & _)]. }
  cbv zeta. intros Hdone [[c f] i]. simpl.
  assert (Hens : ∀ c f i,
            (∃ g, match st !! predefinedTypeOf entity with
                  | None => <[predefinedTypeOf entity :=
                                Group.mk ∅ (predefinedTypeOf entity) None]> st
                  | Some _ => st
                  end !! c = Some g ∧ inMap (Group.map g) f i)
            ↔ ∃ g, st !! c = Some g ∧ inMap (Group.map g) f i).
  { intros c' f' i'. destruct (st !! predefinedTypeOf entity) eqn:Hpt; [done|].
    destruct (decide (c' = predefinedTypeOf entity)) as [->|Hne].
    - rewrite lookup_insert_eq, Hpt. split.
      + intros (? & [= <-] & ? & Hl & _). simpl in Hl.
        by rewrite lookup_empty in Hl.
      + by intros (? & ? & _).
    - by rewrite lookup_insert_ne. }
  rewrite <-Hens. clear Hens.
  destruct (ensureClass_lookup st (predefinedTypeOf entity) None) as [ct Hct].
  revert Hdone Hct.
  generalize (match st !! predefinedTypeOf entity with
              | None => <[predefinedTypeOf entity :=
                            Group.mk ∅ (predefinedTypeOf entity) None]> st
              | Some _ => st
              end). intros st1 Hdone Hct. rewrite Hct in Hdone.
  destruct (predefinedData group entity ct) as [ct'|] eqn:Hd; [|done].
  injection Hdone as <-.
  pose proof (predefinedData_Done_exact _ _ _ _ Hd f i) as Hex.
  destruct (decide (c = predefinedTypeOf entity)) as [->|Hne].
  - rewrite lookup_insert_eq, Hct. split.
    + intros (? & [= <-] & Hin). apply Hex in Hin as [Hin|[-> Hin]].
      * left. by exists ct.
      * right. by exists entity.
    + intros Hin. exists ct'. split; [done|]. apply Hex.
      destruct Hin as [(? & [= <-] & ?)|(? & [= <-] & _ & -> & ?)];
        [by left|by right].
  - rewrite lookup_insert_ne by done. split; [by left|].
    intros [?|(? & [= <-] & ? & _)]; [done|congruence].
Qed.

Lemma byPredefinedType_loop (lst : ClassificationList) :
  ∃ currentTypes,
    match lst !! "predefinedTypes" with
    | None => <["predefinedTypes" := ∅]> lst
    | Some _ => lst
    end !! "predefinedTypes" = Some currentTypes
    ∧ currentTypes = default ∅ (lst !! "predefinedTypes").
Proof.
  destruct (lst !! "predefinedTypes") as [ct|] eqn:Hl.
  - exists ct. by rewrite Hl.
  - exists ∅. by rewrite lookup_insert_eq.
Qed.

(** [byPredefinedType] throws exactly when some entity of the model has
    properties and some geometry key of [group.data] resolves to no
    fragment, and then with the message of the missing fragment; a model
    none of whose entities has properties is accepted whatever its keys. *)
Theorem byPredefinedType_throws_iff group lst :
  ((∃ lst', byPredefinedType group lst = Thrown "Fragment ID not found!" lst')
   ↔ (∃ id, id ∈ getAllPropertiesIDs group ∧ is_Some (getProperties group id))
     ∧ ∃ e keys rels key, (e, (keys, rels)) ∈ data group ∧ key ∈ keys
                          ∧ unresolved group key)
  ∧ ∀ m lst', byPredefinedType group lst = Thrown m lst' →
              m = "Fragment ID not found!".
Proof.
  assert (Hinv : ∀ m lst', byPredefinedType group lst = Thrown m lst' →
            m = "Fragment ID not found!"
            ∧ (∃ id, id ∈ getAllPropertiesIDs group
                     ∧ is_Some (getProperties group id))
            ∧ ∃ e keys rels key, (e, (keys, rels)) ∈ data group ∧ key ∈ keys
                                 ∧ unresolved group key).
  { intros m lst'. unfold byPredefinedType. cbv zeta.
    destruct (byPredefinedType_loop lst) as (ct & -> & _).
    destruct (forEachT _ _ ct) as [ct'|m' ct'] eqn:Hloop; [done|].
    intros [= <- _]. split.
    - eapply forEachT_only; [|done]. intros. by eapply predefinedEntity_only.
    - apply forEachT_Thrown_inv in Hloop as (id & s & Hid & Hbody).
      apply predefinedEntity_Thrown in Hbody as [Hprops Hkey].
      split; [by exists id|done]. }
  split; [split|].
  - intros [lst' H]. by apply Hinv in H as (_ & ? & ?).
  - intros [(id & Hid & entity & Hprops) (e & keys & rels & key & He & Hkey & Hu)].
    by eapply byPredefinedType_unresolved.
  - intros m lst' H. by apply Hinv in H as (? & _).
Qed.

(** When [byPredefinedType] returns it has added to the index exactly these
    pairs, in the system of the predefined types: every entity that has
    properties, in the class of its predefined type, with every fragment of
    the model. *)
Theorem byPredefinedType_pairs group lst lst' s c f i :
  byPredefinedType group lst = Done lst' →
  inClass lst' s c f i
  ↔ inClass lst s c f i ∨ (s = "predefinedTypes" ∧ predefinedPair group c f i).
Proof.
  unfold byPredefinedType. cbv zeta.
  destruct (byPredefinedType_loop lst) as (ct & Hct & Hdef).
  rewrite Hct. destruct (forEachT _ _ ct) as [ct'|] eqn:Hloop; [|done].
  intros [= <-].
  pose proof (forEachT_Done_exact _ _ _ _ (predefinedEntity_Done_exact group)
                _ _ Hloop (c, f, i)) as Hex. simpl in Hex.
  destruct (decide (s = "predefinedTypes")) as [->|Hs].
  - unfold inClass. rewrite lookup_insert_eq. split.
    + intros (? & g & [= <-] & Hc & Hin).
      destruct Hex as [Hex _]. destruct Hex as [(g0 & Hg0 & Hin0)|Hnew].
      * by exists g.
      * left. subst ct. destruct (lst !! "predefinedTypes") as [sys|] eqn:Hl;
          simpl in Hg0.
        -- by exists sys, g0.
        -- by rewrite lookup_empty in Hg0.
      * right. split; [done|]. destruct Hnew as (id & ? & entity & ? & ? & ? & ?).
        by exists id, entity.
    + intros Hin. destruct Hex as [_ Hex]. destruct Hex as (g & Hg & Hin').
      * destruct Hin as [(sys & g & Hl & Hc & Hin)|[_ Hnew]].
        -- left. exists g. subst ct. rewrite Hl. simpl. done.
        -- right. destruct Hnew as (id & entity & ? & ? & ? & ? & ?).
           exists id. split; [done|]. by exists entity.
      * by exists ct', g.
  - unfold inClass. rewrite lookup_insert_ne by done.
    assert (Hother : match lst !! "predefinedTypes" with
                     | None => <["predefinedTypes" := ∅]> lst
                     | Some _ => lst
                     end !! s = lst !! s) by (by apply ensureSystem_other).
    rewrite Hother. split; [by left|]. by intros [?|[? _]].
Qed.

Lemma byPredefinedType_pairs_witness :
  inClass {[ "predefinedTypes" :=
               {[ "STANDARD" := Group.mk {[ "frag-1" := {[ 7 ]} ]} "STANDARD" None ]} ]}
    "predefinedTypes" "STANDARD" "frag-1" 7
  ↔ inClass ∅ "predefinedTypes" "STANDARD" "frag-1" 7
    ∨ ("predefinedTypes" = "predefinedTypes"
       ∧ predefinedPair oneWall "STANDARD" "frag-1" 7).
Proof.
  apply (byPredefinedType_pairs oneWall ∅). vm_compute. reflexivity.
Defined.

(** ** What every operation keeps *)

Lemma forEachT_stateOf {A S} (R : S → S → Prop) (body : A → S → Result S) :
  (∀ s, R s s) → (∀ s1 s2 s3, R s1 s2 → R s2 s3 → R s1 s3) →
  (∀ x s, R s (stateOf (body x s))) →
  ∀ xs st, R st (stateOf (forEachT xs body st)).
Proof.
  intros Hrefl Htrans Hbody. induction xs as [|x xs IH]; intros st; [apply Hrefl|].
  simpl. pose proof (Hbody x st) as Hx. destruct (body x st) as [st1|m st1].
  - eapply Htrans; [exact Hx|apply IH].
  - exact Hx.
Qed.

Lemma predefinedData_grows group entity ct :
  grows ct (stateOf (predefinedData group entity ct)).
Proof.
  unfold predefinedData.
  apply (forEachT_stateOf grows); [apply grows_refl|apply grows_trans|].
  intros [e d] s.
  apply (forEachT_stateOf grows); [apply grows_refl|apply grows_trans|].
  intros key s'. unfold predefinedKey. destruct (JS.falsy _); [apply grows_refl|].
  destruct (keyFragments group !! key); [apply Group_add_grows|apply grows_refl].
Qed.

Lemma predefinedEntity_grows group id st :
  systemGrows st (stateOf (predefinedEntity group id st)).
Proof.
  unfold predefinedEntity.
  destruct (getProperties group id) as [entity|]; [|apply systemGrows_refl].
  cbv zeta.
  pose proof (ensureClass_grows st (predefinedTypeOf entity) None) as Hens.
  destruct (ensureClass_lookup st (predefinedTypeOf entity) None) as [ct Hct].
  revert Hens Hct.
  generalize (match st !! predefinedTypeOf entity with
              | None => <[predefinedTypeOf entity :=
                            Group.mk ∅ (predefinedTypeOf entity) None]> st
              | Some _ => st
              end). intros st1 Hens Hct. rewrite Hct.
  pose proof (predefinedData_grows group entity ct) as Hgr.
  eapply systemGrows_trans; [exact Hens|].
  destruct (predefinedData group entity ct) as [ct'|m ct']; simpl in *;
    unfold systemGrows; apply system_insert_grows; intros g Hg; by simplify_eq.
Qed.

Lemma byPredefinedType_extends group lst :
  extends lst (indexOf (byPredefinedType group lst)).
Proof.
  unfold byPredefinedType. cbv zeta.
  eapply extends_trans; [apply (ensureSystem_extends _ "predefinedTypes")|].
  destruct (byPredefinedType_loop lst) as (ct & Hct & _). revert Hct.
  generalize (match lst !! "predefinedTypes" with
              | None => <["predefinedTypes" := ∅]> lst
              | Some _ => lst
              end). intros lst1 Hct. rewrite Hct.
  pose proof (forEachT_stateOf systemGrows (predefinedEntity group)
                systemGrows_refl systemGrows_trans
                (predefinedEntity_grows group)
                (getAllPropertiesIDs group) ct) as Hgr.
  destruct (forEachT _ _ ct) as [ct'|m ct']; simpl in *;
    by apply (extends_insert_system _ _ ct).
Qed.

Lemma byEntity_extends table group lst : extends lst (byEntity table group lst).
Proof.
  unfold byEntity. cbv zeta.
  eapply extends_trans; [apply (ensureSystem_extends _ "entities")|].
  apply forEach_extends. intros [e d] st. apply saveItem_extends.
Qed.

Lemma byIfcRel_extends isRel relMap names group ifcRel systemName lst :
  extends lst (byIfcRel isRel relMap names group ifcRel systemName lst).
Proof.
  unfold byIfcRel. destruct (negb (isRel ifcRel)); [apply extends_refl|].
  apply forEach_extends. intros [relatingID relatedIDs] st.
  apply forEach_extends. intros e st'. apply saveItem_extends.
Qed.

Lemma bySpatialStructure_extends indexer model config lst :
  extends lst (indexOf (bySpatialStructure indexer model config lst)).
Proof.
  unfold bySpatialStructure. destruct (relationMaps indexer); simpl;
    [|apply extends_refl].
  apply forEach_extends. intros. apply spatialEntity_extends.
Qed.

Lemma remove_shrinks fields guid lst : extends (remove fields guid lst) lst.
Proof.
  intros s system'. rewrite remove_lookup.
  destruct (lst !! s) as [system|]; [|done]. intros [= <-].
  exists system. split; [done|]. intros c g'.
  case_decide; [|intros Hc; exists g'; split; [done|apply grows_refl]].
  rewrite removeFromGroups_lookup.
  destruct (system !! c) as [g|]; [|done]. intros [= <-].
  exists g. split; [done|]. case_decide; [|apply grows_refl].
  intros f ids. simpl. intros [_ Hf]%lookup_delete_Some. by exists ids.
Qed.

Lemma onFragmentsDisposed_shrinks fields groupID fragmentIDs lst :
  extends (onFragmentsDisposed fields groupID fragmentIDs lst) lst.
Proof.
  intros s system'. rewrite onFragmentsDisposed_lookup.
  destruct (lst !! s) as [system|]; [|done]. simpl. intros [= <-].
  exists system. split; [done|]. intros c g'.
  case_decide; [|intros Hc; exists g'; split; [done|apply grows_refl]].
  unfold disposedSystem. case_decide.
  - intros [_ Hc]%lookup_delete_Some. exists g'. split; [done|].
    apply grows_refl.
  - rewrite map_lookup_imap. destruct (system !! c) as [g|]; [|done].
    simpl. intros [= <-]. exists g. split; [done|].
    case_decide; [|apply grows_refl].
    intros f ids. rewrite deleteFragments_map.
    case_decide; [done|]. intros Hf. by exists ids.
Qed.

(** Every operation either only adds or only deletes: the builders and
    [saveItem] keep every system, class, fragment entry and pair of the
    index, also when they throw; [remove] and the disposal handler add
    none. *)
Theorem operations_add_or_delete fields op lst :
  match op with
  | OpRemove _ | OpFragmentsDisposed _ _ => extends (perform fields op lst) lst
  | _ => extends lst (perform fields op lst)
  end.
Proof.
  destruct op; simpl.
  - apply saveItem_extends.
  - apply remove_shrinks.
  - apply onFragmentsDisposed_shrinks.
  - apply byModel_extends.
  - apply byPredefinedType_extends.
  - apply byEntity_extends.
  - apply byIfcRel_extends.
  - apply bySpatialStructure_extends.
Qed.

Lemma forEach_other_system {A} (xs : list A)
    (body : A → ClassificationList → ClassificationList) s :
  (∀ x st, body x st !! s = st !! s) →
  ∀ lst, forEach xs body lst !! s = lst !! s.
Proof.
  intros Hbody. induction xs as [|x xs IH]; intros lst; [done|].
  by rewrite forEach_cons, IH, Hbody.
Qed.

(** A builder writes to one system only: every other system of the index
    is after the call, also after one that throws, what it was before. *)
Theorem builders_own_system fields op name s lst :
  systemOf op = Some name → s ≠ name → perform fields op lst !! s = lst !! s.
Proof.
  intros Hop Hs. destruct op; simpl in *; try done; injection Hop as <-.
  - by apply saveItem_other_system.
  - by rewrite byModel_eq, lookup_insert_ne.
  - unfold byPredefinedType. cbv zeta.
    destruct (byPredefinedType_loop lst) as (ct & -> & _).
    destruct (forEachT _ _ ct); simpl; rewrite lookup_insert_ne by done;
      by apply ensureSystem_other.
  - unfold byEntity. cbv zeta. rewrite forEach_other_system.
    + by apply ensureSystem_other.
    + intros [e d] st. by apply saveItem_other_system.
  - unfold byIfcRel. destruct (negb (isRel ifcRel)); [done|].
    apply forEach_other_system. intros [relatingID relatedIDs] st.
    apply forEach_other_system. intros e st'. by apply saveItem_other_system.
  - unfold bySpatialStructure. destruct (relationMaps indexer); [|done]. simpl.
    apply forEach_other_system. intros e st. unfold spatialEntity. cbv zeta.
    destruct (isolated model config e); [done|].
    assert (H1 : match getEntityRelations indexer e "Decomposes" with
                 | Some spatialRels =>
                     forEach spatialRels
                       (spatialParent model (default true (useProperties config)) e)
                       st
                 | None => st
                 end !! s = st !! s).
    { destruct (getEntityRelations indexer e "Decomposes"); [|done].
      apply forEach_other_system. intros id st'. unfold spatialParent.
      destruct (default true (useProperties config));
        [destruct (getProperties model id)|]; try done;
        by apply saveItem_other_system. }
    destruct (getEntityRelations indexer e "ContainsElements"); [|done].
    destruct (containerName model _ e); [|done].
    rewrite forEach_other_system; [done|]. intros id st'. unfold spatialChild.
    destruct (getEntityRelations indexer id "IsDecomposedBy").
    + rewrite forEach_other_system; [by apply saveItem_other_system|].
      intros part st''. by apply saveItem_other_system.
    + by apply saveItem_other_system.
Qed.

Lemma builders_own_system_witness :
  perform eventFields (OpByModel "model-1" oneWall) wallIndex !! "entities"
  = wallIndex !! "entities".
Proof.
  apply (builders_own_system eventFields (OpByModel "model-1" oneWall)
           "models").
  - reflexivity.
  - discriminate.
Defined.

(** ** Classes are filed under their names *)

Lemma wellNamed_insert (lst : ClassificationList) s
    (system : ClassificationSystem) :
  wellNamed lst → systemNamed system → wellNamed (<[s := system]> lst).
Proof.
  intros Hl Hs s' c g. unfold classOf. destruct (decide (s' = s)) as [->|Hne].
  - rewrite lookup_insert_eq. simpl. apply Hs.
  - rewrite lookup_insert_ne by done. apply Hl.
Qed.

Lemma wellNamed_system (lst : ClassificationList) s
    (system : ClassificationSystem) :
  wellNamed lst → lst !! s = Some system → systemNamed system.
Proof.
  intros Hl Hs c g Hc. apply (Hl s c g). unfold classOf. by rewrite Hs.
Qed.

Lemma ensureSystem_wellNamed (lst : ClassificationList) s :
  wellNamed lst →
  wellNamed (match lst !! s with
             | None => <[s := ∅]> lst
             | Some _ => lst
             end).
Proof. intros Hl s' c g. rewrite ensureSystem_class. apply Hl. Qed.

Lemma saveItem_wellNamed group s c e p lst :
  wellNamed lst → wellNamed (saveItem group s c e p lst).
Proof.
  intros Hl s' c' g'. destruct (decide (s' = s)) as [->|Hs].
  - rewrite saveItem_class. case_decide as Hc; [|apply Hl]. subst.
    destruct (classOf lst s c) as [g|] eqn:Hg.
    + destruct (saveKeysInClass_Some group c e p
                  (default [] (fst <$> data_get (data group) e)) g)
        as (g1 & -> & Hn & _). intros [= <-]. rewrite Hn. by apply (Hl s).
    + destruct (saveKeysInClass_None group c e p
                  (default [] (fst <$> data_get (data group) e)))
        as [->|(g1 & -> & Hn & _)]; [done|]. by intros [= <-].
  - unfold classOf. rewrite saveItem_other_system by done. apply Hl.
Qed.

Lemma fillModel_name group cm :
  Group.name (fillModel group cm) = Group.name cm.
Proof.
  unfold fillModel. revert cm.
  assert (Hkeys : ∀ e keys cm,
            Group.name (forEach keys (byModelKey group e) cm) = Group.name cm).
  { intros e keys. induction keys as [|k keys IH]; intros cm; [done|].
    rewrite forEach_cons, IH. unfold byModelKey. destruct (JS.falsy _); [done|].
    destruct (keyFragments group !! k); [apply Group_add_name|done]. }
  induction (data group) as [|[e d] l IH]; intros cm; [done|].
  rewrite forEach_cons, IH. apply Hkeys.
Qed.

Lemma byModel_wellNamed modelID group lst :
  wellNamed lst → wellNamed (byModel modelID group lst).
Proof.
  intros Hl s c g. destruct (decide (s = "models")) as [->|Hs].
  - rewrite byModel_classOf. case_decide as Hc; [|apply Hl]. subst.
    intros [= <-]. rewrite fillModel_name.
    destruct (classOf lst "models" modelID) as [g0|] eqn:Hg0; [|done].
    by apply (Hl "models").
  - unfold classOf. rewrite byModel_eq, lookup_insert_ne by done. apply Hl.
Qed.

Lemma remove_wellNamed fields guid lst :
  wellNamed lst → wellNamed (remove fields guid lst).
Proof.
  intros Hl s c g. rewrite remove_classOf.
  destruct (classOf lst s c) as [g0|] eqn:Hg0; [|done]. intros [= <-].
  case_decide; simpl; by apply (Hl s).
Qed.

Lemma onFragmentsDisposed_wellNamed fields groupID fragmentIDs lst :
  wellNamed lst → wellNamed (onFragmentsDisposed fields groupID fragmentIDs lst).
Proof.
  intros Hl s c g. unfold classOf. rewrite onFragmentsDisposed_lookup.
  destruct (lst !! s) as [system|] eqn:Hs; [|done]. simpl.
  pose proof (wellNamed_system _ _ _ Hl Hs) as Hsys.
  case_decide; [|by apply Hsys]. unfold disposedSystem. case_decide.
  - intros [_ Hc]%lookup_delete_Some. by apply Hsys.
  - rewrite map_lookup_imap. destruct (system !! c) as [g0|] eqn:Hc; [|done].
    simpl. intros [= <-]. case_decide; [|by apply Hsys].
    destruct (deleteFragments_name fragmentIDs g0) as [-> _]. by apply Hsys.
Qed.

Lemma predefinedData_name group entity ct :
  Group.name (stateOf (predefinedData group entity ct)) = Group.name ct.
Proof.
  unfold predefinedData.
  apply (forEachT_stateOf (λ g g' : Group.t, Group.name g' = Group.name g));
    [done|congruence|].
  intros [e d] s.
  apply (forEachT_stateOf (λ g g' : Group.t, Group.name g' = Group.name g));
    [done|congruence|].
  intros key s'. unfold predefinedKey. destruct (JS.falsy _); [done|].
  destruct (keyFragments group !! key); [apply Group_add_name|done].
Qed.

Lemma predefinedEntity_named group id st :
  systemNamed st → systemNamed (stateOf (predefinedEntity group id st)).
Proof.
  intros Hst. unfold predefinedEntity.
  destruct (getProperties group id) as [entity|]; [|done]. cbv zeta.
  assert (Hens : systemNamed
                   (match st !! predefinedTypeOf entity with
                    | None => <[predefinedTypeOf entity :=
                                  Group.mk ∅ (predefinedTypeOf entity) None]> st
                    | Some _ => st
                    end)).
  { destruct (st !! predefinedTypeOf entity) eqn:Hpt; [done|]. intros c g.
    destruct (decide (c = predefinedTypeOf entity)) as [->|Hne].
    - rewrite lookup_insert_eq. by intros [= <-].
    - rewrite lookup_insert_ne by done. apply Hst. }
  revert Hens.
  generalize (match st !! predefinedTypeOf entity with
              | None => <[predefinedTypeOf entity :=
                            Group.mk ∅ (predefinedTypeOf entity) None]> st
              | Some _ => st
              end). intros st1 Hens.
  destruct (st1 !! predefinedTypeOf entity) as [ct|] eqn:Hct; [|done].
  pose proof (predefinedData_name group entity ct) as Hn.
  assert (Hins : ∀ ct', Group.name ct' = Group.name ct →
            systemNamed (<[predefinedTypeOf entity := ct']> st1)).
  { intros ct' Hname c g. destruct (decide (c = predefinedTypeOf entity))
      as [->|Hne].
    - rewrite lookup_insert_eq. intros [= <-]. rewrite Hname. by apply Hens.
    - rewrite lookup_insert_ne by done. apply Hens. }
  destruct (predefinedData group entity ct); simpl in *; by apply Hins.
Qed.

Lemma byPredefinedType_wellNamed group lst :
  wellNamed lst → wellNamed (indexOf (byPredefinedType group lst)).
Proof.
  intros Hl. unfold byPredefinedType. cbv zeta.
  pose proof (ensureSystem_wellNamed lst "predefinedTypes" Hl) as Hl1.
  destruct (byPredefinedType_loop lst) as (ct & Hct & _). revert Hl1 Hct.
  generalize (match lst !! "predefinedTypes" with
              | None => <["predefinedTypes" := ∅]> lst
              | Some _ => lst
              end). intros lst1 Hl1 Hct. rewrite Hct.
  pose proof (forEachT_stateOf
                (λ s s' : ClassificationSystem, systemNamed s → systemNamed s')
                (predefinedEntity group) (λ _ H, H) (λ _ _ _ H1 H2 H, H2 (H1 H))
                (predefinedEntity_named group)
                (getAllPropertiesIDs group) ct
                (wellNamed_system _ _ _ Hl1 Hct)) as Hnamed.
  destruct (forEachT _ _ ct); simpl in *; by apply wellNamed_insert.
Qed.

Lemma perform_wellNamed fields op lst :
  wellNamed lst → wellNamed (perform fields op lst).
Proof.
  intros Hl. destruct op; simpl.
  - by apply saveItem_wellNamed.
  - by apply remove_wellNamed.
  - by apply onFragmentsDisposed_wellNamed.
  - by apply byModel_wellNamed.
  - by apply byPredefinedType_wellNamed.
  - unfold byEntity. cbv zeta. apply forEach_invariant.
    + intros [e d] st. apply saveItem_wellNamed.
    + by apply ensureSystem_wellNamed.
  - unfold byIfcRel. destruct (negb (isRel ifcRel)); [done|].
    apply forEach_invariant; [|done]. intros [relatingID relatedIDs] st Hst.
    apply forEach_invariant; [|done]. intros e st'. apply saveItem_wellNamed.
  - unfold bySpatialStructure. destruct (relationMaps indexer); [|done]. simpl.
    apply forEach_invariant; [|done]. intros e st Hst.
    unfold spatialEntity. cbv zeta. destruct (isolated model config e); [done|].
    assert (H1 : wellNamed
                   (match getEntityRelations indexer e "Decomposes" with
                    | Some spatialRels =>
                        forEach spatialRels
                          (spatialParent model
                             (default true (useProperties config)) e) st
                    | None => st
                    end)).
    { destruct (getEntityRelations indexer e "Decomposes"); [|done].
      apply forEach_invariant; [|done]. intros id st' Hst'. unfold spatialParent.
      destruct (default true (useProperties config));
        [destruct (getProperties model id)|]; try done;
        by apply saveItem_wellNamed. }
    destruct (getEntityRelations indexer e "ContainsElements"); [|done].
    destruct (containerName model _ e); [|done].
    apply forEach_invariant; [|done]. intros id st' Hst'. unfold spatialChild.
    destruct (getEntityRelations indexer id "IsDecomposedBy").
    + apply forEach_invariant; [|by apply saveItem_wellNamed].
      intros part st'' Hst''. by apply saveItem_wellNamed.
    + by apply saveItem_wellNamed.
Qed.

(** Whatever operations the classifier runs from its empty index, in
    whatever order and whether they return or throw, every class of the
    index is filed under the name that its record carries. *)
Theorem classes_filed_under_their_names fields (ops : list Operation) s c g :
  classOf (forEach ops (perform fields) ∅) s c = Some g → Group.name g = c.
Proof.
  revert s c g. change (wellNamed (forEach ops (perform fields) ∅)).
  apply forEach_invariant.
  - intros op st. apply perform_wellNamed.
  - intros s c g. unfold classOf. by rewrite lookup_empty.
Qed.

Lemma classes_filed_under_their_names_witness :
  Group.name (Group.mk {[ "frag-1" := {[ 7 ]} ]} "model-1" None) = "model-1".
Proof.
  apply (classes_filed_under_their_names eventFields
           [OpByModel "model-1" oneWall; OpRemove "frag-9"] "models" "model-1").
  vm_compute. reflexivity.
Defined.

(** ** Further edge cases of the classifier *)

(** When [isolate] lets no entity of the relations through, because its
    category is not in the set or because it has no entry in [model.data],
    [bySpatialStructure] returns with the index untouched: not even the
    system of the spatial structures is created. *)
Theorem bySpatialStructure_all_isolated indexer model config lst modelRelations :
  relationMaps indexer = Some modelRelations →
  (∀ e, e ∈ modelRelations → isolated model config e = true) →
  bySpatialStructure indexer model config lst = Done lst.
Proof.
  intros Hmaps Hiso. unfold bySpatialStructure. rewrite Hmaps. f_equal.
  induction modelRelations as [|e l IH] in Hiso |- *; [done|].
  rewrite forEach_cons. unfold spatialEntity at 2. cbv zeta.
  rewrite Hiso by (by left). apply IH. intros. apply Hiso. by right.
Qed.

Lemma bySpatialStructure_all_isolated_witness :
  bySpatialStructure towerRelations tower (mkConfig None (Some ∅)) wallIndex
  = Done wallIndex.
Proof.
  apply (bySpatialStructure_all_isolated towerRelations tower
           (mkConfig None (Some ∅)) wallIndex [100; 200] eq_refl).
  intros e He.
  apply elem_of_cons in He as [->|He]; [vm_compute; reflexivity|].
  apply elem_of_cons in He as [->|He]; [vm_compute; reflexivity|].
  by apply not_elem_of_nil in He.
Defined.

Lemma countName_agree (l1 l2 : ClassificationList) (filter : Filter) name models :
  l1 !! name = l2 !! name →
  countName l1 filter name models = countName l2 filter name models.
Proof.
  intros Heq. unfold countName. destruct (filter !! name) as [values|]; [|done].
  rewrite <-Heq. destruct (l1 !! name) eqn:H1; [|done].
  apply forEach_ext. intros value s _. unfold countValue.
  by rewrite <-Heq, ?H1.
Qed.

(** What a filter finds depends on the systems that the filter names only:
    two indexes that agree on them give the same result. *)
Theorem find_reads_filter_systems fragments (l1 l2 : ClassificationList)
    (filter : Filter) :
  (∀ name, is_Some (filter !! name) → l1 !! name = l2 !! name) →
  find fragments l1 (Some filter) = find fragments l2 (Some filter).
Proof.
  intros Heq. simpl. unfold findFiltered. cbv zeta.
  assert (forEach (Object_keys filter) (countName l1 filter) ∅
          = forEach (Object_keys filter) (countName l2 filter) ∅) as ->; [|done].
  apply forEach_ext. intros name s Hname. apply countName_agree.
  by apply Heq, elem_of_Object_keys.
Qed.

Lemma find_reads_filter_systems_witness :
  find [] wallIndex (Some {[ "entities" := ["IFCWALL"] ]})
  = find [] (byModel "model-1" oneWall wallIndex)
      (Some {[ "entities" := ["IFCWALL"] ]}).
Proof.
  apply (find_reads_filter_systems [] wallIndex
           (byModel "model-1" oneWall wallIndex) {[ "entities" := ["IFCWALL"] ]}).
  intros name [values [<- _]%lookup_singleton_Some]. reflexivity.
Defined.

(** ** The configurator *)

Lemma overwriteKeys_lookup {V} (config : gmap string V) (keys : list string) :
  ∀ (st : gmap string V * bool) k,
    (forEach keys (overwriteKey config) st).1 !! k
    = match st.1 !! k with
      | None => None
      | Some v => if decide (k ∈ keys) then Some (default v (config !! k))
                  else Some v
      end.
Proof.
  induction keys as [|key keys IH]; intros st k.
  - rewrite forEach_nil. destruct (st.1 !! k); [|done].
    by rewrite decide_False by apply not_elem_of_nil.
  - rewrite forEach_cons, IH.
    assert (Hstep : (overwriteKey config key st).1 !! k
                    = match st.1 !! k with
                      | None => None
                      | Some v => if decide (k = key)
                                  then Some (default v (config !! k))
                                  else Some v
                      end).
    { unfold overwriteKey. destruct (decide (k = key)) as [->|Hne].
      - destruct (st.1 !! key) eqn:Hk; [|by rewrite Hk].
        destruct (config !! key) eqn:Hc; simpl;
          [by rewrite lookup_insert_eq|by rewrite Hk].
      - destruct (st.1 !! key); [|by destruct (st.1 !! k)].
        destruct (config !! key); simpl; [rewrite lookup_insert_ne by done|];
          by destruct (st.1 !! k). }
    rewrite Hstep. destruct (st.1 !! k) as [v|]; [|done].
    destruct (decide (k = key)) as [->|Hne].
    + rewrite (decide_True (P := key ∈ key :: keys)) by (by left).
      case_decide; [|done]. by destruct (config !! key).
    + destruct (decide (k ∈ keys)) as [Hin|Hin].
      * by rewrite decide_True by (by right).
      * rewrite decide_False; [done|]. by intros [?|?]%elem_of_cons.
Qed.

Lemma overwriteKeys_flag {V} (config : gmap string V) (keys : list string) :
  ∀ st : gmap string V * bool,
    (forEach keys (overwriteKey config) st).2 = true
    ↔ st.2 = true
      ∨ ∃ k, k ∈ keys ∧ is_Some (st.1 !! k) ∧ is_Some (config !! k).
Proof.
  induction keys as [|key keys IH]; intros st.
  - rewrite forEach_nil. split; [by left|].
    intros [?|(? & H & _)]; [done|]. by apply not_elem_of_nil in H.
  - rewrite forEach_cons, IH. unfold overwriteKey.
    destruct (st.1 !! key) as [v|] eqn:Hk.
    + destruct (config !! key) as [w|] eqn:Hc; simpl.
      * split; [|by left]. intros _. right. exists key.
        split; [by left|]. rewrite Hk, Hc. by split; eexists.
      * split.
        -- intros [?|(k & ? & ? & ?)]; [by left|]. right. exists k.
           split; [by right|done].
        -- intros [?|(k & [->|?]%elem_of_cons & ? & Hck)]; [by left| |].
           ++ rewrite Hc in Hck. by destruct Hck.
           ++ right. by exists k.
    + split.
      * intros [?|(k & ? & ? & ?)]; [by left|]. right. exists k.
        split; [by right|done].
      * intros [?|(k & [->|?]%elem_of_cons & Hsk & ?)]; [by left| |].
        -- rewrite Hk in Hsk. by destruct Hsk.
        -- right. by exists k.
Qed.

Lemma overwrite_lookup {V} isConfigurable (config : option (gmap string V))
    (this : gmap string V) k :
  (overwrite isConfigurable config this).1 !! k
  = (λ v, default v (default ∅ config !! k)) <$> this !! k.
Proof.
  unfold overwrite. destruct config as [config|]; simpl.
  - rewrite overwriteKeys_lookup. simpl. destruct (this !! k) as [v|]; [|done].
    simpl. case_decide as Hin; [done|].
    rewrite elem_of_Object_keys, <-not_eq_None_Some in Hin.
    apply dec_stable in Hin. by rewrite Hin.
  - rewrite lookup_empty. by destruct (this !! k).
Qed.

(** [overwrite] sets the properties that the configurator has and the
    configuration gives, to the values given, and no other: a key that the
    configurator does not have is passed by, so the configurator never
    gets a new property.  [onSetup] is triggered exactly when at least one
    property was set and the component is configurable; without a
    configuration nothing happens. *)
Theorem overwrite_known_settings {V} isConfigurable
    (config : option (gmap string V)) (this : gmap string V) :
  (∀ k, (overwrite isConfigurable config this).1 !! k
        = (λ v, default v (default ∅ config !! k)) <$> this !! k)
  ∧ dom (overwrite isConfigurable config this).1 = dom this
  ∧ ((overwrite isConfigurable config this).2 = true
     ↔ isConfigurable = true
       ∧ ∃ k, is_Some (this !! k) ∧ is_Some (default ∅ config !! k)).
Proof.
  split; [intros; apply overwrite_lookup|]. split.
  - apply set_eq. intros k. rewrite !elem_of_dom, overwrite_lookup.
    by rewrite fmap_is_Some.
  - unfold overwrite. simpl. rewrite andb_true_iff.
    destruct config as [config|]; simpl.
    + rewrite overwriteKeys_flag. simpl. split.
      * intros [[?|(k & _ & ? & ?)] ?]; [done|]. split; [done|]. by exists k.
      * intros [? (k & ? & Hc)]. split; [|done]. right. exists k.
        split; [by apply elem_of_Object_keys|done].
    + split; [by intros [? _]|]. intros [_ (k & _ & Hc)].
      rewrite lookup_empty in Hc. by destruct Hc.
Qed.

(** Two configurations applied one after the other leave the configurator
    that their union leaves, the later one winning where both give a
    value; the same configuration applied twice is applied once. *)
Theorem overwrite_twice {V} b1 b2 b (c1 c2 : gmap string V)
    (this : gmap string V) :
  (overwrite b2 (Some c2) (overwrite b1 (Some c1) this).1).1
  = (overwrite b (Some (c2 ∪ c1)) this).1
  ∧ (overwrite b2 (Some c1) (overwrite b1 (Some c1) this).1).1
    = (overwrite b1 (Some c1) this).1.
Proof.
  split; apply map_eq; intros k; rewrite !overwrite_lookup; simpl;
    destruct (this !! k) as [v|]; simpl; try done; f_equal.
  - rewrite lookup_union. by destruct (c2 !! k), (c1 !! k).
  - by destruct (c1 !! k).
Qed.
